(** * Skelly animatronics: the cooperative motion scheduler

    A shallow embedding of [skelly-animatronics.ino] and the properties of
    its motion scheduler.

    Conventions of the embedding.
    - [unsigned long] (32 bits on the target boards) is a [Z] in
      [0, 2^32); subtraction wraps, as in C.
    - [int] and [long] are [Z]; every integer the sketch computes stays far
      inside their range (servo angles, table entries, small indices).
    - A [float] value is the rational it denotes ([Q]).  Where the sketch
      computes on floats it is embedded twice.  The scheduler as a whole is
      modelled with exact rational arithmetic, which is enough for its
      bounds, its order of events and what each routine leaves alone.  The
      four float routines are modelled again in [Rounded], with every
      operation rounded to binary32 as the AVR boards round it; the lengths
      of the interpolation steps, of the jitter and of the breathing are
      stated there.
    - [millis()], [random()] and [sin()] belong to the platform.  Every
      reading of the clock and every raw random draw is an explicit input
      of the function that makes the call; [sin] and [PI] are parameters of
      the development.
    - A [Servo] object is the last angle commanded on it: [write] stores
      the angle, [read] returns it.  Writes, delays and serial output are
      also appended to a trace of events. *)

From Stdlib Require Import ZArith QArith Qabs Qround Qpower Qreduction Lqa Lia.
From Stdlib Require Import SpecFloat.
From Stdlib Require Import List Bool Ascii String.
Import ListNotations.

Local Open Scope Z_scope.

(** ** Platform primitives *)

Module Arduino.

(** [unsigned long] arithmetic. *)
Definition ULONG_MOD : Z := 2 ^ 32.
Definition ulong (z : Z) : Z := z mod ULONG_MOD.
Definition ulong_sub (a b : Z) : Z := (a - b) mod ULONG_MOD.

(** [long map(long x, long in_min, long in_max, long out_min, long out_max)]:
    integer arithmetic, the division truncates toward zero. *)
Definition map (x in_min in_max out_min out_max : Z) : Z :=
  Z.quot ((x - in_min) * (out_max - out_min)) (in_max - in_min) + out_min.

(** [long random(long howbig)] and [long random(long howsmall, long howbig)]
    over the raw, non-negative draw [raw] of the generator. *)
Definition random1 (raw howbig : Z) : Z :=
  if howbig =? 0 then 0 else raw mod howbig.
Definition random2 (raw howsmall howbig : Z) : Z :=
  if howbig <=? howsmall then howsmall
  else random1 raw (howbig - howsmall) + howsmall.

(** Comparisons on [float]. *)
Definition Qltb (x y : Q) : bool := negb (Qle_bool y x).
Definition Qneqb (x y : Q) : bool := negb (Qeq_bool x y).

(** The macro [abs(x)]: [((x)>0?(x):-(x))]. *)
Definition abs (x : Z) : Z := if 0 <? x then x else - x.
Definition fabs (x : Q) : Q := if Qltb 0 x then x else (- x)%Q.

(** The macro [constrain(amt,low,high)]:
    [((amt)<(low)?(low):((amt)>(high)?(high):(amt)))]. *)
Definition constrain (amt low high : Q) : Q :=
  if Qltb amt low then low else if Qltb high amt then high else amt.

(** The cast [(long)x] of a float: truncation toward zero. *)
Definition to_long (x : Q) : Z := Z.quot (Qnum x) (Zpos (Qden x)).

(** The macro [round(x)]: [((x)>=0?(long)((x)+0.5):(long)((x)-0.5))]. *)
Definition round (x : Q) : Z :=
  if Qle_bool 0 x then to_long (x + (1 # 2))%Q else to_long (x - (1 # 2))%Q.

End Arduino.
Import Arduino.

(** ** Configuration constants *)

Definition SKULL_R_PIN : Z := 8.
Definition SKULL_X_PIN : Z := 9.
Definition SKULL_Y_PIN : Z := 10.
Definition SKULL_JAW_PIN : Z := 11.

Definition DEFAULT_POSITION : Z := 90.
Definition JAW_CLOSED : Z := 115.
Definition JAW_OPEN_MAX : Z := 70.
Definition HEAD_ROTATION_MIN : Z := 60.
Definition HEAD_ROTATION_MAX : Z := 120.
Definition HEAD_X_MIN : Z := 75.
Definition HEAD_X_MAX : Z := 115.
Definition HEAD_Y_MIN : Z := 75.
Definition HEAD_Y_MAX : Z := 115.

Definition LETTER_DURATION : Z := 100.
Definition HEAD_MOVE_DURATION : Z := 5000.
Definition GRADUAL_MOVE_INTERVAL : Z := 20.
Definition JAW_SMOOTH_INTERVAL : Z := 10.
Definition RANDOM_MOVE_INTERVAL : Z := 1000.
Definition PHRASE_DURATION : Z := 10000.
Definition JAW_CLOSE_DURATION : Z := 200.

Definition JAW_SMOOTHING_STEP : Z := 5.
Definition RANDOM_MOVE_RANGE : Z := 35.
Definition HEAD_MOVE_SPEED : Q := 8.

Definition BREATH_INTERVAL : Z := 3000.
Definition BREATH_AMPLITUDE : Q := 2.

(** ** Helper functions of the sketch that touch no global *)

(** [float moveTowards(float current, float target, float maxMove)] *)
Definition moveTowards (current target maxMove : Q) : Q :=
  if Qle_bool (fabs (current - target)) maxMove then target
  else if Qltb current target then (current + maxMove)%Q
  else (current - maxMove)%Q.

(** [bool isSilentCharacter(char c)] *)
Definition isSilentCharacter (c : ascii) : bool :=
  (c =? " ")%char || (c =? ".")%char || (c =? ",")%char || (c =? "!")%char.

(** [const int letterToJaw[]] *)
Definition letterToJaw : list Z :=
  [ 50; 25; 38; 25; 50;
    25; 38; 25; 50; 25;
    25; 25; 38; 38; 50;
    25; 25; 38; 38; 25;
    50; 25; 25; 38; 50;
    25 ].

(** The code of a [char].  Codes above 127 are negative on boards where
    [char] is signed; both readings fail the test [letter >= 'A' && letter
    <= 'Z'], so the code is kept unsigned here. *)
Definition char_code (c : ascii) : Z := Z.of_N (N_of_ascii c).

(** [int getJawPositionForLetter(char letter)] *)
Definition getJawPositionForLetter (letter : ascii) : Z :=
  if (char_code "A" <=? char_code letter) && (char_code letter <=? char_code "Z")
  then nth (Z.to_nat (char_code letter - char_code "A")) letterToJaw 0
  else 0.

(** [const char* phrases[]] and [numPhrases]. *)
Definition phrases : list string :=
  [ "HELLO THERE";
    "HOW ARE YOU";
    "I AM A SKELETON";
    "NICE TO MEET YOU";
    "WELCOME TO MY LAIR";
    "BEWARE OF GHOSTS";
    "HAPPY HALLOWEEN";
    "BOO DID I SCARE YOU";
    "LETS HAVE SOME FUN";
    "TIME FOR A PARTY" ]%string.
Definition numPhrases : Z := Z.of_nat (List.length phrases).

(** ** Character buffers

    [char currentPhrase[20]] is a list of 20 characters.  An access outside
    the array, or a scan for a terminator that leaves it, has no defined
    result: the operation returns [None]. *)

Module CString.

Definition NUL : ascii := Ascii.zero.
Definition is_nul (c : ascii) : bool := (c =? NUL)%char.

(** [buf[i]], read. *)
Definition get (buf : list ascii) (i : Z) : option ascii :=
  if i <? 0 then None else nth_error buf (Z.to_nat i).

(** [buf[i] = c]. *)
Fixpoint set (buf : list ascii) (i : nat) (c : ascii) : option (list ascii) :=
  match buf, i with
  | [], _ => None
  | _ :: rest, O => Some (c :: rest)
  | b :: rest, S i' => option_map (cons b) (set rest i' c)
  end.

(** [strlen(buf)]: the number of characters before the first NUL. *)
Fixpoint strlen (buf : list ascii) : option nat :=
  match buf with
  | [] => None
  | c :: rest => if is_nul c then Some O else option_map S (strlen rest)
  end.

(** [strncpy(dest, src, n)]: the first [n] characters of [src], padded
    with NULs up to [n] when [src] is shorter; the rest of [dest] is
    untouched.  [src] is the text of a string literal: it ends at the end
    of the list or at a NUL inside it. *)
Fixpoint strncpy (dest src : list ascii) (n : nat) {struct n}
  : option (list ascii) :=
  match n with
  | O => Some dest
  | S n' =>
      match dest with
      | [] => None
      | _ :: dest' =>
          match src with
          | [] => option_map (cons NUL) (strncpy dest' [] n')
          | c :: src' =>
              if is_nul c then option_map (cons NUL) (strncpy dest' [] n')
              else option_map (cons c) (strncpy dest' src' n')
          end
      end
  end.

(** The text a buffer holds, for printing. *)
Fixpoint text (buf : list ascii) : list ascii :=
  match buf with
  | [] => []
  | c :: rest => if is_nul c then [] else c :: text rest
  end.

End CString.

(** ** Program state *)

Inductive Servo : Type :=
| skull_r_servo
| skull_x_servo
| skull_y_servo
| skull_jaw_servo.

Definition Servo_eqb (a b : Servo) : bool :=
  match a, b with
  | skull_r_servo, skull_r_servo
  | skull_x_servo, skull_x_servo
  | skull_y_servo, skull_y_servo
  | skull_jaw_servo, skull_jaw_servo => true
  | _, _ => false
  end.

(** The pin each servo is attached to in [setup()]. *)
Definition pin (sv : Servo) : Z :=
  match sv with
  | skull_r_servo => SKULL_R_PIN
  | skull_x_servo => SKULL_X_PIN
  | skull_y_servo => SKULL_Y_PIN
  | skull_jaw_servo => SKULL_JAW_PIN
  end.

Inductive Event : Type :=
| ServoWrite (servo : Servo) (angle : Z)
| Delay (ms : Z)
| SerialPrint (text : list ascii)
| SerialPrintln (text : list ascii).

Record Timers : Type := mkTimers {
  lastLetterTime : Z;
  lastHeadMoveTime : Z;
  lastGradualMoveTime : Z;
  lastJawSmoothTime : Z;
  lastRandomMoveTime : Z;
  lastPhraseTime : Z;
  lastBreathTime : Z
}.

Record Head : Type := mkHead {
  targetRotation : Q;
  targetX : Q;
  targetY : Q;
  currentRotation : Q;
  currentX : Q;
  currentY : Q;
  breathOffset : Q
}.

Record Speech : Type := mkSpeech {
  currentPhrase : list ascii;
  currentLetterIndex : Z
}.

Record State : Type := mkState {
  timers : Timers;
  head : Head;
  speech : Speech;
  servos : Servo -> Z;
  trace : list Event
}.

Definition sizeof_currentPhrase : nat := 20.

(** *** Assignments to the globals *)

Definition with_timers (f : Timers -> Timers) (s : State) : State :=
  mkState (f (timers s)) (head s) (speech s) (servos s) (trace s).
Definition with_head (f : Head -> Head) (s : State) : State :=
  mkState (timers s) (f (head s)) (speech s) (servos s) (trace s).
Definition with_speech (f : Speech -> Speech) (s : State) : State :=
  mkState (timers s) (head s) (f (speech s)) (servos s) (trace s).

Definition set_lastLetterTime (v : Z) : State -> State :=
  with_timers (fun t => mkTimers v (lastHeadMoveTime t) (lastGradualMoveTime t)
    (lastJawSmoothTime t) (lastRandomMoveTime t) (lastPhraseTime t) (lastBreathTime t)).
Definition set_lastHeadMoveTime (v : Z) : State -> State :=
  with_timers (fun t => mkTimers (lastLetterTime t) v (lastGradualMoveTime t)
    (lastJawSmoothTime t) (lastRandomMoveTime t) (lastPhraseTime t) (lastBreathTime t)).
Definition set_lastGradualMoveTime (v : Z) : State -> State :=
  with_timers (fun t => mkTimers (lastLetterTime t) (lastHeadMoveTime t) v
    (lastJawSmoothTime t) (lastRandomMoveTime t) (lastPhraseTime t) (lastBreathTime t)).
Definition set_lastJawSmoothTime (v : Z) : State -> State :=
  with_timers (fun t => mkTimers (lastLetterTime t) (lastHeadMoveTime t)
    (lastGradualMoveTime t) v (lastRandomMoveTime t) (lastPhraseTime t) (lastBreathTime t)).
Definition set_lastRandomMoveTime (v : Z) : State -> State :=
  with_timers (fun t => mkTimers (lastLetterTime t) (lastHeadMoveTime t)
    (lastGradualMoveTime t) (lastJawSmoothTime t) v (lastPhraseTime t) (lastBreathTime t)).
Definition set_lastPhraseTime (v : Z) : State -> State :=
  with_timers (fun t => mkTimers (lastLetterTime t) (lastHeadMoveTime t)
    (lastGradualMoveTime t) (lastJawSmoothTime t) (lastRandomMoveTime t) v (lastBreathTime t)).
Definition set_lastBreathTime (v : Z) : State -> State :=
  with_timers (fun t => mkTimers (lastLetterTime t) (lastHeadMoveTime t)
    (lastGradualMoveTime t) (lastJawSmoothTime t) (lastRandomMoveTime t) (lastPhraseTime t) v).

Definition set_targetRotation (v : Q) : State -> State :=
  with_head (fun h => mkHead v (targetX h) (targetY h)
    (currentRotation h) (currentX h) (currentY h) (breathOffset h)).
Definition set_targetX (v : Q) : State -> State :=
  with_head (fun h => mkHead (targetRotation h) v (targetY h)
    (currentRotation h) (currentX h) (currentY h) (breathOffset h)).
Definition set_targetY (v : Q) : State -> State :=
  with_head (fun h => mkHead (targetRotation h) (targetX h) v
    (currentRotation h) (currentX h) (currentY h) (breathOffset h)).
Definition set_currentRotation (v : Q) : State -> State :=
  with_head (fun h => mkHead (targetRotation h) (targetX h) (targetY h)
    v (currentX h) (currentY h) (breathOffset h)).
Definition set_currentX (v : Q) : State -> State :=
  with_head (fun h => mkHead (targetRotation h) (targetX h) (targetY h)
    (currentRotation h) v (currentY h) (breathOffset h)).
Definition set_currentY (v : Q) : State -> State :=
  with_head (fun h => mkHead (targetRotation h) (targetX h) (targetY h)
    (currentRotation h) (currentX h) v (breathOffset h)).
Definition set_breathOffset (v : Q) : State -> State :=
  with_head (fun h => mkHead (targetRotation h) (targetX h) (targetY h)
    (currentRotation h) (currentX h) (currentY h) v).

Definition set_currentPhrase (v : list ascii) : State -> State :=
  with_speech (fun p => mkSpeech v (currentLetterIndex p)).
Definition set_currentLetterIndex (v : Z) : State -> State :=
  with_speech (fun p => mkSpeech (currentPhrase p) v).

(** *** Effects on the platform *)

Definition emit (e : Event) (s : State) : State :=
  mkState (timers s) (head s) (speech s) (servos s) (trace s ++ [e]).

(** [servo.read()] and [servo.write(angle)]. *)
Definition servo_read (sv : Servo) (s : State) : Z := servos s sv.
Definition servo_write (sv : Servo) (angle : Z) (s : State) : State :=
  mkState (timers s) (head s) (speech s)
    (fun x => if Servo_eqb x sv then angle else servos s x)
    (trace s ++ [ServoWrite sv angle]).

(** [delay(ms)] changes no variable of the sketch; the clock readings that
    follow it are inputs. *)
Definition delay (ms : Z) (s : State) : State := emit (Delay ms) s.

Definition Serial_print (text : list ascii) : State -> State :=
  emit (SerialPrint text).
Definition Serial_println (text : list ascii) : State -> State :=
  emit (SerialPrintln text).

(** ** The sketch *)


(** The globals as their initialisers leave them, before [setup()]. *)
Definition power_on : State :=
  mkState
    (mkTimers 0 0 0 0 0 0 0)
    (mkHead (inject_Z DEFAULT_POSITION) (inject_Z DEFAULT_POSITION)
            (inject_Z DEFAULT_POSITION) (inject_Z DEFAULT_POSITION)
            (inject_Z DEFAULT_POSITION) (inject_Z DEFAULT_POSITION) 0)
    (mkSpeech (repeat CString.NUL sizeof_currentPhrase) 0)
    (fun _ => 0)
    [].

(** [void setup()]: the four servos are commanded to their defaults.  Seeding
    the generator, attaching the servos and opening the serial port change
    nothing the sketch reads back. *)
Definition setup (s : State) : State :=
  let s := servo_write skull_r_servo DEFAULT_POSITION s in
  let s := servo_write skull_x_servo DEFAULT_POSITION s in
  let s := servo_write skull_y_servo DEFAULT_POSITION s in
  servo_write skull_jaw_servo JAW_CLOSED s.

Definition initial : State := setup power_on.

Notation "x <- e ;; k" :=
  (match e with Some x => k | None => None end)
  (at level 61, e at next level, right associativity).

(** [void smoothJawMovement(int targetPosition)]; [now] is its reading of
    [millis()]. *)
Definition smoothJawMovement (now targetPosition : Z) (s : State) : State :=
  let currentTime := ulong now in
  let currentPosition := servo_read skull_jaw_servo s in
  if JAW_SMOOTHING_STEP * 2 <? abs (currentPosition - targetPosition) then
    servo_write skull_jaw_servo targetPosition s
  else if JAW_SMOOTH_INTERVAL <=? ulong_sub currentTime (lastJawSmoothTime (timers s)) then
    let currentPosition :=
      if currentPosition <? targetPosition then
        let moved := currentPosition + JAW_SMOOTHING_STEP in
        if targetPosition <? moved then targetPosition else moved
      else if targetPosition <? currentPosition then
        let moved := currentPosition - JAW_SMOOTHING_STEP in
        if moved <? targetPosition then targetPosition else moved
      else currentPosition in
    let s := servo_write skull_jaw_servo currentPosition s in
    set_lastJawSmoothTime currentTime s
  else s.

(** [void updateJawMovement()], in three parts.

    [letterTarget] is the [if (isSilentCharacter(currentLetter)) ... else ...]
    block: the jaw target for the letter being consumed and, at a silent
    letter, the pause. *)
Definition letterTarget (currentLetter : ascii) (s : State) : Z * State :=
  if isSilentCharacter currentLetter then
    (JAW_CLOSED, delay JAW_CLOSE_DURATION s)
  else
    let jawPosition := getJawPositionForLetter currentLetter in
    (map jawPosition 0 50 JAW_CLOSED JAW_OPEN_MAX, s).

(** [finishLetter] is what follows the first call of [smoothJawMovement]:
    the index advances, the phrase is cleared at its end, and the letter
    timer restarts. *)
Definition finishLetter (currentTime nowClose : Z) (s : State) : option State :=
  let s := set_currentLetterIndex (currentLetterIndex (speech s) + 1) s in
  len <- CString.strlen (currentPhrase (speech s)) ;;
  s <- (if Z.of_nat len <=? currentLetterIndex (speech s) then
          cleared <- CString.set (currentPhrase (speech s)) 0 CString.NUL ;;
          let s := set_currentPhrase cleared s in
          let s := set_currentLetterIndex 0 s in
          Some (smoothJawMovement nowClose JAW_CLOSED s)
        else Some s) ;;
  Some (set_lastLetterTime currentTime s).

(** [now] is the function's own reading of [millis()]; [nowSmooth] and
    [nowClose] are the readings made inside the calls of
    [smoothJawMovement] (the second one when the phrase ends). *)
Definition updateJawMovement (now nowSmooth nowClose : Z) (s : State)
  : option State :=
  let currentTime := ulong now in
  first <- CString.get (currentPhrase (speech s)) 0 ;;
  if negb (CString.is_nul first) then
    if LETTER_DURATION <=? ulong_sub currentTime (lastLetterTime (timers s)) then
      currentLetter <-
        CString.get (currentPhrase (speech s)) (currentLetterIndex (speech s)) ;;
      let '(targetJawPosition, s) := letterTarget currentLetter s in
      let s := smoothJawMovement nowSmooth targetJawPosition s in
      finishLetter currentTime nowClose s
    else Some s
  else Some (smoothJawMovement nowSmooth JAW_CLOSED s).

(** [void updateHeadMovement()]; [rawR], [rawX], [rawY] are the three draws. *)
Definition updateHeadMovement (now rawR rawX rawY : Z) (s : State) : State :=
  let currentTime := ulong now in
  if HEAD_MOVE_DURATION <=? ulong_sub currentTime (lastHeadMoveTime (timers s)) then
    let s := set_targetRotation
      (inject_Z (random2 rawR HEAD_ROTATION_MIN (HEAD_ROTATION_MAX + 1))) s in
    let s := set_targetX (inject_Z (random2 rawX HEAD_X_MIN (HEAD_X_MAX + 1))) s in
    let s := set_targetY (inject_Z (random2 rawY HEAD_Y_MIN (HEAD_Y_MAX + 1))) s in
    let s := set_lastHeadMoveTime currentTime s in
    set_lastRandomMoveTime currentTime s
  else s.

(** [void randomMovementsBetweenSentences()] *)
Definition randomMovementsBetweenSentences (now rawR rawX rawY : Z) (s : State)
  : option State :=
  let currentTime := ulong now in
  first <- CString.get (currentPhrase (speech s)) 0 ;;
  if CString.is_nul first
     && (RANDOM_MOVE_INTERVAL <=? ulong_sub currentTime (lastRandomMoveTime (timers s)))
  then
    let randomR :=
      (inject_Z (random2 rawR (- RANDOM_MOVE_RANGE) (RANDOM_MOVE_RANGE + 1)) / 10)%Q in
    let randomX :=
      (inject_Z (random2 rawX (- RANDOM_MOVE_RANGE) (RANDOM_MOVE_RANGE + 1)) / 10)%Q in
    let randomY :=
      (inject_Z (random2 rawY (- RANDOM_MOVE_RANGE) (RANDOM_MOVE_RANGE + 1)) / 10)%Q in
    let s := set_targetRotation
      (constrain (targetRotation (head s) + randomR)
         (inject_Z HEAD_ROTATION_MIN) (inject_Z HEAD_ROTATION_MAX)) s in
    let s := set_targetX
      (constrain (targetX (head s) + randomX)
         (inject_Z HEAD_X_MIN) (inject_Z HEAD_X_MAX)) s in
    let s := set_targetY
      (constrain (targetY (head s) + randomY)
         (inject_Z HEAD_Y_MIN) (inject_Z HEAD_Y_MAX)) s in
    Some (set_lastRandomMoveTime currentTime s)
  else Some s.

(** [void graduallyMoveServos()] *)
Definition graduallyMoveServos (now : Z) (s : State) : State :=
  let currentTime := ulong now in
  if GRADUAL_MOVE_INTERVAL <=? ulong_sub currentTime (lastGradualMoveTime (timers s)) then
    let elapsedSeconds :=
      (inject_Z (ulong_sub currentTime (lastGradualMoveTime (timers s))) / 1000)%Q in
    let maxMove := (HEAD_MOVE_SPEED * elapsedSeconds)%Q in
    let newRotation :=
      moveTowards (currentRotation (head s)) (targetRotation (head s)) maxMove in
    let s :=
      if Qneqb newRotation (currentRotation (head s)) then
        let s := set_currentRotation newRotation s in
        servo_write skull_r_servo (round (currentRotation (head s))) s
      else s in
    let newX := moveTowards (currentX (head s)) (targetX (head s)) maxMove in
    let s :=
      if Qneqb newX (currentX (head s)) then
        let s := set_currentX newX s in
        servo_write skull_x_servo (round (currentX (head s))) s
      else s in
    let newY := moveTowards (currentY (head s)) (targetY (head s)) maxMove in
    let s :=
      if Qneqb newY (currentY (head s)) then
        let s := set_currentY newY s in
        servo_write skull_y_servo (round (currentY (head s))) s
      else s in
    set_lastGradualMoveTime currentTime s
  else s.

(** The copy in [generateNewPhrase]:
    [strncpy(currentPhrase, source, sizeof(currentPhrase) - 1)] followed by
    [currentPhrase[sizeof(currentPhrase) - 1] = '\0']. *)
Definition copyPhrase (buffer : list ascii) (source : string)
  : option (list ascii) :=
  copied <- CString.strncpy buffer (list_ascii_of_string source)
              (sizeof_currentPhrase - 1) ;;
  CString.set copied (sizeof_currentPhrase - 1) CString.NUL.

(** [void generateNewPhrase()]; [raw] is the draw behind [random(numPhrases)]. *)
Definition generateNewPhrase (now raw : Z) (s : State) : option State :=
  let currentTime := ulong now in
  first <- CString.get (currentPhrase (speech s)) 0 ;;
  if CString.is_nul first
     && (PHRASE_DURATION <=? ulong_sub currentTime (lastPhraseTime (timers s)))
  then
    let phraseIndex := random1 raw numPhrases in
    source <- (if phraseIndex <? 0 then None
               else nth_error phrases (Z.to_nat phraseIndex)) ;;
    installed <- copyPhrase (currentPhrase (speech s)) source ;;
    let s := set_currentPhrase installed s in
    let s := set_currentLetterIndex 0 s in
    let s := set_lastPhraseTime currentTime s in
    let s := Serial_print (list_ascii_of_string "New phrase: ") s in
    Some (Serial_println (CString.text (currentPhrase (speech s))) s)
  else Some s.

Section Platform.

(** The platform's [sin] and [PI], as values of the float model. *)
Variable sin : Q -> Q.
Variable PI : Q.

(** [void updateBreathing(unsigned long currentTime)] *)
Definition updateBreathing (currentTime : Z) (s : State) : State :=
  let currentTime := ulong currentTime in
  if 20 <=? ulong_sub currentTime (lastBreathTime (timers s)) then
    let breathCycle :=
      (inject_Z (currentTime mod BREATH_INTERVAL) / inject_Z BREATH_INTERVAL)%Q in
    let s := set_breathOffset (sin (breathCycle * 2 * PI) * BREATH_AMPLITUDE)%Q s in
    let s := set_targetY (targetY (head s) + breathOffset (head s))%Q s in
    let s := set_targetY
      (constrain (targetY (head s)) (inject_Z HEAD_Y_MIN) (inject_Z HEAD_Y_MAX)) s in
    set_lastBreathTime currentTime s
  else s.

(** A call of one of the scheduler's operations, with the inputs the
    platform hands to it. *)
Inductive Op : Type :=
| CallUpdateJawMovement (now nowSmooth nowClose : Z)
| CallUpdateHeadMovement (now rawR rawX rawY : Z)
| CallRandomMovementsBetweenSentences (now rawR rawX rawY : Z)
| CallUpdateBreathing (currentTime : Z)
| CallGraduallyMoveServos (now : Z)
| CallGenerateNewPhrase (now raw : Z).

Definition exec (op : Op) (s : State) : option State :=
  match op with
  | CallUpdateJawMovement now nowSmooth nowClose =>
      updateJawMovement now nowSmooth nowClose s
  | CallUpdateHeadMovement now rawR rawX rawY =>
      Some (updateHeadMovement now rawR rawX rawY s)
  | CallRandomMovementsBetweenSentences now rawR rawX rawY =>
      randomMovementsBetweenSentences now rawR rawX rawY s
  | CallUpdateBreathing currentTime =>
      Some (updateBreathing currentTime s)
  | CallGraduallyMoveServos now =>
      Some (graduallyMoveServos now s)
  | CallGenerateNewPhrase now raw =>
      generateNewPhrase now raw s
  end.

Fixpoint run (ops : list Op) (s : State) : option State :=
  match ops with
  | [] => Some s
  | op :: rest => s' <- exec op s ;; run rest s'
  end.



(** The states the sketch can be in: [setup()] has run, then any number
    of operations, each with any inputs. *)
Inductive reachable : State -> Prop :=
| reachable_initial : reachable initial
| reachable_step (s s' : State) (op : Op) :
    reachable s -> exec op s = Some s' -> reachable s'.

End Platform.

(** ** Vocabulary of the properties *)

(** The three head axes, each with its variables, its bound and its servo. *)
Inductive Axis : Type := Rotation | AxisX | AxisY.

Definition target_of (a : Axis) (s : State) : Q :=
  match a with
  | Rotation => targetRotation (head s)
  | AxisX => targetX (head s)
  | AxisY => targetY (head s)
  end.

Definition current_of (a : Axis) (s : State) : Q :=
  match a with
  | Rotation => currentRotation (head s)
  | AxisX => currentX (head s)
  | AxisY => currentY (head s)
  end.

Definition axis_min (a : Axis) : Z :=
  match a with
  | Rotation => HEAD_ROTATION_MIN
  | AxisX => HEAD_X_MIN
  | AxisY => HEAD_Y_MIN
  end.

Definition axis_max (a : Axis) : Z :=
  match a with
  | Rotation => HEAD_ROTATION_MAX
  | AxisX => HEAD_X_MAX
  | AxisY => HEAD_Y_MAX
  end.

Definition servo_of (a : Axis) : Servo :=
  match a with
  | Rotation => skull_r_servo
  | AxisX => skull_x_servo
  | AxisY => skull_y_servo
  end.

Definition within_bound (a : Axis) (v : Q) : Prop :=
  (inject_Z (axis_min a) <= v /\ v <= inject_Z (axis_max a))%Q.

(** The seconds [graduallyMoveServos] measures at the reading [now]. *)
Definition elapsed_seconds (now : Z) (s : State) : Q :=
  (inject_Z (ulong_sub (ulong now) (lastGradualMoveTime (timers s))) / 1000)%Q.

(** The events a step from [s] to [s'] added to the trace. *)
Definition emitted (s s' : State) : list Event :=
  skipn (List.length (trace s)) (trace s').

(** The jaw's position is what was last commanded on its servo. *)
Definition jaw (s : State) : Z := servo_read skull_jaw_servo s.

(** No phrase is being spoken. *)
Definition idle (s : State) : bool :=
  match currentPhrase (speech s) with
  | first :: _ => CString.is_nul first
  | [] => false
  end.

(** [graduallyMoveServos] is due at the reading [now]. *)
Definition gradual_due (now : Z) (s : State) : bool :=
  GRADUAL_MOVE_INTERVAL <=? ulong_sub (ulong now) (lastGradualMoveTime (timers s)).

(** Where [moveTowards] puts an axis at the reading [now], and the servo
    command that goes with it. *)
Definition interpolated (now : Z) (s : State) (a : Axis) : Q :=
  moveTowards (current_of a s) (target_of a s)
    (HEAD_MOVE_SPEED * elapsed_seconds now s).

Definition axis_write (now : Z) (s : State) (a : Axis) : list Event :=
  if Qneqb (interpolated now s a) (current_of a s)
  then [ServoWrite (servo_of a) (round (interpolated now s a))]
  else [].

(** The assignment to an axis's current position. *)
Definition set_current (a : Axis) : Q -> State -> State :=
  match a with
  | Rotation => set_currentRotation
  | AxisX => set_currentX
  | AxisY => set_currentY
  end.

(** One of the three blocks of [graduallyMoveServos], for the axis [a] and
    the step length [maxMove]. *)
Definition interpolate_axis (a : Axis) (maxMove : Q) (s : State) : State :=
  let new := moveTowards (current_of a s) (target_of a s) maxMove in
  if Qneqb new (current_of a s) then
    let s := set_current a new s in
    servo_write (servo_of a) (round (current_of a s)) s
  else s.

(** [smoothJawMovement]'s cadence has elapsed at the reading [now]. *)
Definition jaw_smooth_due (now : Z) (s : State) : bool :=
  JAW_SMOOTH_INTERVAL <=? ulong_sub (ulong now) (lastJawSmoothTime (timers s)).

(** Repeated calls of [smoothJawMovement] with one target, at the readings
    [nows]; [all_due] says the cadence has elapsed at each of them. *)
Fixpoint smooth_calls (nows : list Z) (target : Z) (s : State) : State :=
  match nows with
  | [] => s
  | now :: rest => smooth_calls rest target (smoothJawMovement now target s)
  end.

Fixpoint all_due (nows : list Z) (target : Z) (s : State) : bool :=
  match nows with
  | [] => true
  | now :: rest =>
      jaw_smooth_due now s && all_due rest target (smoothJawMovement now target s)
  end.

(** [x] lies on the way from [start] to [target], ends included: it has
    not passed the target. *)
Definition on_the_way (start target x : Z) : Prop :=
  (start <= x <= target) \/ (target <= x <= start).

(** Letters of either case. *)
Definition is_alphabetic (c : ascii) : bool :=
  ((char_code "A" <=? char_code c) && (char_code c <=? char_code "Z"))
  || ((char_code "a" <=? char_code c) && (char_code c <=? char_code "z")).

(** [updateJawMovement] is about to consume a letter at the reading [now]. *)
Definition letter_due (now : Z) (s : State) : bool :=
  negb (idle s)
  && (LETTER_DURATION <=? ulong_sub (ulong now) (lastLetterTime (timers s))).

(** [generateNewPhrase]'s gate at the reading [now]. *)
Definition phrase_due (now : Z) (s : State) : bool :=
  PHRASE_DURATION <=? ulong_sub (ulong now) (lastPhraseTime (timers s)).

(** A buffer of the size of [currentPhrase] that holds a terminated string. *)
Definition well_terminated (buffer : list ascii) : Prop :=
  List.length buffer = sizeof_currentPhrase
  /\ exists n : nat,
       CString.strlen buffer = Some n /\ (n <= sizeof_currentPhrase - 1)%nat.

(** The letter index points into the phrase being spoken. *)
Definition index_in_phrase (s : State) : Prop :=
  exists n : nat,
    CString.strlen (currentPhrase (speech s)) = Some n
    /\ 0 <= currentLetterIndex (speech s) < Z.of_nat n.

Definition phrase_invariant (s : State) : Prop :=
  idle s = true \/ index_in_phrase s.

(** The buffer keeps its size and its final NUL, and the letter index
    points into the phrase whenever one is being spoken. *)
Definition speech_well_formed (s : State) : Prop :=
  List.length (currentPhrase (speech s)) = sizeof_currentPhrase
  /\ nth_error (currentPhrase (speech s)) (sizeof_currentPhrase - 1)
     = Some CString.NUL
  /\ phrase_invariant s.

(** A sample platform for closed examples: [PI] as 355/113 and Bhaskara's
    rational approximation of the sine on one period. *)
Module SamplePlatform.
Definition PI : Q := 355 # 113.
Definition half_wave (x : Q) : Q :=
  (16 * x * (PI - x) / (5 * PI * PI - 4 * x * (PI - x)))%Q.
Definition sin (x : Q) : Q :=
  if Qle_bool x PI then half_wave x else (- half_wave (x - PI))%Q.
End SamplePlatform.

(** The phrase "HELLO THERE" from its selection at 10 s to its last letter:
    a letter every [LETTER_DURATION], and the pause at the space. *)
Definition hello_there_selected : list Op :=
  [ CallGenerateNewPhrase 10000 0 ].
Definition hello_there_letters : list Op :=
  [ CallUpdateJawMovement 10000 10000 10000;
    CallUpdateJawMovement 10100 10100 10100;
    CallUpdateJawMovement 10200 10200 10200;
    CallUpdateJawMovement 10300 10300 10300;
    CallUpdateJawMovement 10400 10400 10400;
    CallUpdateJawMovement 10500 10700 10700;
    CallUpdateJawMovement 10700 10700 10700;
    CallUpdateJawMovement 10800 10800 10800;
    CallUpdateJawMovement 10900 10900 10900;
    CallUpdateJawMovement 11000 11000 11000 ].
Definition hello_there_last_letter : Op :=
  CallUpdateJawMovement 11100 11100 11100.

(** The state a run ends in, for closed examples. *)
Definition or_initial (o : option State) : State :=
  match o with
  | Some s => s
  | None => initial
  end.

(** "HELLO THERE" just selected, and the same phrase with "HELLO" spoken and
    the space next. *)
Definition first_phrase_selected : State :=
  or_initial (generateNewPhrase 10000 0 initial).

Definition hello_spoken : State :=
  or_initial
    (run SamplePlatform.sin SamplePlatform.PI
       (hello_there_selected ++ firstn 5 hello_there_letters) initial).

(** The same phrase with its last letter next, then ended, and the phrase
    selected after it. *)
Definition hello_last_letter_due : State :=
  or_initial
    (run SamplePlatform.sin SamplePlatform.PI
       (hello_there_selected ++ hello_there_letters) initial).

Definition hello_ended : State :=
  or_initial
    (exec SamplePlatform.sin SamplePlatform.PI hello_there_last_letter
       hello_last_letter_due).

Definition second_phrase_selected : State :=
  or_initial (generateNewPhrase 20000 3 hello_ended).

(** What the jaw operations have no business with: the head variables and
    the phrase timer. *)
Definition beside_jaw (s : State) : Head * Z :=
  (head s, lastPhraseTime (timers s)).

(** Targets and current positions of the three axes respect their bounds. *)
Definition head_in_bounds (s : State) : Prop :=
  forall a : Axis,
    within_bound a (target_of a s) /\ within_bound a (current_of a s).

(** A state in which a head move was just planned, one interpolation
    period before the next update. *)
Definition head_move_planned : State :=
  updateHeadMovement 5000 40 25 25 (graduallyMoveServos 5000 initial).

(** ** Vocabulary of the further properties *)






(** The step from [s] to [s'] only added events that satisfy [P]. *)
Definition extends_trace (P : Event -> Prop) (s s' : State) : Prop :=
  exists es : list Event, trace s' = trace s ++ es /\ Forall P es.

Definition is_jaw_write (e : Event) : Prop :=
  match e with
  | ServoWrite skull_jaw_servo _ => True
  | _ => False
  end.

Definition is_head_write (e : Event) : Prop :=
  match e with
  | ServoWrite skull_jaw_servo _ => False
  | ServoWrite _ _ => True
  | _ => False
  end.

Definition is_serial (e : Event) : Prop :=
  match e with
  | SerialPrint _ | SerialPrintln _ => True
  | _ => False
  end.

(** At the reading [now], [updateJawMovement] consumes a silent letter. *)
Definition consumes_silent_letter (now : Z) (s : State) : Prop :=
  letter_due now s = true
  /\ exists letter : ascii,
       CString.get (currentPhrase (speech s)) (currentLetterIndex (speech s))
         = Some letter
       /\ isSilentCharacter letter = true.

(** What the interpolator has no business with: the phrase, the breathing
    offset and the timers of the other operations. *)
Definition beside_interpolator (s : State) : Speech * Q * Z * Z * Z * Z * Z * Z :=
  (speech s, breathOffset (head s),
   lastLetterTime (timers s), lastHeadMoveTime (timers s),
   lastJawSmoothTime (timers s), lastRandomMoveTime (timers s),
   lastPhraseTime (timers s), lastBreathTime (timers s)).

(** The distance left to a target [d] away after moving [moved] toward it
    without passing it. *)
Definition distance_left (d moved : Q) : Q :=
  if Qle_bool moved d then (d - moved)%Q else 0%Q.

(** Readings of a clock that has not wrapped, each at least
    [GRADUAL_MOVE_INTERVAL] after the one before, starting after [t0]. *)
Fixpoint paced (t0 : Z) (nows : list Z) : Prop :=
  match nows with
  | [] => True
  | now :: rest =>
      t0 + GRADUAL_MOVE_INTERVAL <= now < ULONG_MOD /\ paced now rest
  end.

(** Successive calls of [updateJawMovement], each with its three clock
    readings, and the statement that each of them consumes a letter. *)
Fixpoint jaw_calls (calls : list (Z * Z * Z)) (s : State) : option State :=
  match calls with
  | [] => Some s
  | (now, nowSmooth, nowClose) :: rest =>
      s' <- updateJawMovement now nowSmooth nowClose s ;; jaw_calls rest s'
  end.

Fixpoint all_letters_due (calls : list (Z * Z * Z)) (s : State) : Prop :=
  match calls with
  | [] => True
  | (now, nowSmooth, nowClose) :: rest =>
      letter_due now s = true
      /\ forall s' : State,
           updateJawMovement now nowSmooth nowClose s = Some s' ->
           all_letters_due rest s'
  end.

(** Upper-case letters, the only ones [getJawPositionForLetter] looks up. *)
Definition is_upper (c : ascii) : bool :=
  (char_code "A" <=? char_code c) && (char_code c <=? char_code "Z").

(** The gates of the head planner, the jitter and the breathing. *)
Definition head_due (now : Z) (s : State) : bool :=
  HEAD_MOVE_DURATION <=? ulong_sub (ulong now) (lastHeadMoveTime (timers s)).

Definition jitter_due (now : Z) (s : State) : bool :=
  idle s
  && (RANDOM_MOVE_INTERVAL <=? ulong_sub (ulong now) (lastRandomMoveTime (timers s))).

Definition breath_due (currentTime : Z) (s : State) : bool :=
  20 <=? ulong_sub (ulong currentTime) (lastBreathTime (timers s)).

(** The draw of the head planner for an axis. *)
Definition head_draw (a : Axis) (raw : Z) : Z :=
  random2 raw (axis_min a) (axis_max a + 1).


(** The seven timers of a state. *)
Definition timer_values (s : State) : list Z :=
  [ lastLetterTime (timers s); lastHeadMoveTime (timers s);
    lastGradualMoveTime (timers s); lastJawSmoothTime (timers s);
    lastRandomMoveTime (timers s); lastPhraseTime (timers s);
    lastBreathTime (timers s) ].

Definition timers_in_range (s : State) : Prop :=
  Forall (fun t => 0 <= t < ULONG_MOD) (timer_values s).

(** States and inputs for closed examples of the further properties: the
    head one interpolation step into a planned move, a jitter held back by
    a head move, the pause at the space of "HELLO THERE", and the inputs of
    a pass of [loop()] at 10 s. *)
Definition head_moving : State := graduallyMoveServos 5020 head_move_planned.

Definition jitter_held : State :=
  or_initial
    (randomMovementsBetweenSentences 5500 3 4 5
       (updateHeadMovement 5000 40 25 25 initial)).

Definition space_consumed : State :=
  or_initial (updateJawMovement 10500 10700 10700 hello_spoken).


(** ** Binary32 arithmetic

    On the AVR boards (Uno, Nano, Mega) [float] and [double] are both the
    IEEE 754 binary32 format: a significand of 24 bits, exponents from -126
    (with subnormals below), and every operation rounded to the nearest
    value of the format, ties to the even significand.  A value of the
    format is the rational it denotes.  Overflow starts at 2^128, far above
    anything the sketch computes, and is not modelled. *)

Module Binary32.

Definition prec : Z := 24.
Definition emin : Z := -126.

Definition pow2 (k : Z) : Q := (2 ^ k)%Q.

(** The binade of a positive rational [x]: the [e] with
    [2^e <= x < 2^(e+1)]. *)
Definition ilog2 (x : Q) : Z :=
  let e := Z.log2 (Qnum x) - Z.log2 (Zpos (Qden x)) in
  if Qle_bool (pow2 e) x then e else e - 1.

(** The exponent of the unit in the last place of the format at [x]. *)
Definition ulp_of (x : Q) : Z :=
  Z.max (ilog2 (Qabs (Qred x))) emin - (prec - 1).

(** The integer nearest to [x], the even one of two that are equally near. *)
Definition nearest_even (x : Q) : Z :=
  let f := Qfloor x in
  match (x - inject_Z f ?= 1 # 2)%Q with
  | Lt => f
  | Gt => f + 1
  | Eq => if Z.even f then f else f + 1
  end.

(** The value of the format nearest to [x]. *)
Definition rounded (x : Q) : Q :=
  let q := ulp_of x in
  (inject_Z (nearest_even (x / pow2 q)) * pow2 q)%Q.

Definition is_float (x : Q) : Prop := (rounded x == x)%Q.

(** The operations on [float], and the conversion of an integer. *)
Definition add (x y : Q) : Q := rounded (x + y).
Definition sub (x y : Q) : Q := rounded (x - y).
Definition mul (x y : Q) : Q := rounded (x * y).
Definition div (x y : Q) : Q := rounded (x / y).
Definition of_long (z : Z) : Q := rounded (inject_Z z).

(** Half a unit in the last place of the values between 64 and 128, where
    the head positions lie. *)
Definition half_ulp : Q := pow2 (- 18).

(** The Standard Library's specification of IEEE 754 arithmetic
    ([SpecFloat]) at this format, for comparison at concrete inputs: the
    conversion of an integer and the rational a finite value denotes. *)
Definition emax : Z := 128.

Definition spec_of_long (z : Z) : spec_float :=
  binary_normalize prec emax z 0 false.

Definition spec_value (f : spec_float) : Q :=
  match f with
  | S754_finite s m e =>
      (inject_Z (if s then Z.neg m else Z.pos m) * pow2 e)%Q
  | _ => 0%Q
  end.

End Binary32.

(** ** The float routines of the sketch in binary32

    The four routines that compute on [float], with every operation
    rounded as the board rounds it.  They act on the same [State]; the
    other routines of the sketch compute on integers only and are shared. *)

Module Rounded.

(** The macro [round(x)]; the addition of 0.5 is a float addition. *)
Definition round (x : Q) : Z :=
  if Qle_bool 0 x then to_long (Binary32.add x (1 # 2))
  else to_long (Binary32.sub x (1 # 2)).

(** [float moveTowards(float current, float target, float maxMove)] *)
Definition moveTowards (current target maxMove : Q) : Q :=
  if Qle_bool (fabs (Binary32.sub current target)) maxMove then target
  else if Qltb current target then Binary32.add current maxMove
  else Binary32.sub current maxMove.

(** [void graduallyMoveServos()] *)
Definition graduallyMoveServos (now : Z) (s : State) : State :=
  let currentTime := ulong now in
  if GRADUAL_MOVE_INTERVAL <=? ulong_sub currentTime (lastGradualMoveTime (timers s)) then
    let elapsedSeconds :=
      Binary32.div
        (Binary32.of_long (ulong_sub currentTime (lastGradualMoveTime (timers s))))
        1000 in
    let maxMove := Binary32.mul HEAD_MOVE_SPEED elapsedSeconds in
    let newRotation :=
      moveTowards (currentRotation (head s)) (targetRotation (head s)) maxMove in
    let s :=
      if Qneqb newRotation (currentRotation (head s)) then
        let s := set_currentRotation newRotation s in
        servo_write skull_r_servo (round (currentRotation (head s))) s
      else s in
    let newX := moveTowards (currentX (head s)) (targetX (head s)) maxMove in
    let s :=
      if Qneqb newX (currentX (head s)) then
        let s := set_currentX newX s in
        servo_write skull_x_servo (round (currentX (head s))) s
      else s in
    let newY := moveTowards (currentY (head s)) (targetY (head s)) maxMove in
    let s :=
      if Qneqb newY (currentY (head s)) then
        let s := set_currentY newY s in
        servo_write skull_y_servo (round (currentY (head s))) s
      else s in
    set_lastGradualMoveTime currentTime s
  else s.

(** [void randomMovementsBetweenSentences()] *)
Definition randomMovementsBetweenSentences (now rawR rawX rawY : Z) (s : State)
  : option State :=
  let currentTime := ulong now in
  first <- CString.get (currentPhrase (speech s)) 0 ;;
  if CString.is_nul first
     && (RANDOM_MOVE_INTERVAL <=? ulong_sub currentTime (lastRandomMoveTime (timers s)))
  then
    let randomR :=
      Binary32.div
        (Binary32.of_long (random2 rawR (- RANDOM_MOVE_RANGE) (RANDOM_MOVE_RANGE + 1)))
        10 in
    let randomX :=
      Binary32.div
        (Binary32.of_long (random2 rawX (- RANDOM_MOVE_RANGE) (RANDOM_MOVE_RANGE + 1)))
        10 in
    let randomY :=
      Binary32.div
        (Binary32.of_long (random2 rawY (- RANDOM_MOVE_RANGE) (RANDOM_MOVE_RANGE + 1)))
        10 in
    let s := set_targetRotation
      (constrain (Binary32.add (targetRotation (head s)) randomR)
         (inject_Z HEAD_ROTATION_MIN) (inject_Z HEAD_ROTATION_MAX)) s in
    let s := set_targetX
      (constrain (Binary32.add (targetX (head s)) randomX)
         (inject_Z HEAD_X_MIN) (inject_Z HEAD_X_MAX)) s in
    let s := set_targetY
      (constrain (Binary32.add (targetY (head s)) randomY)
         (inject_Z HEAD_Y_MIN) (inject_Z HEAD_Y_MAX)) s in
    Some (set_lastRandomMoveTime currentTime s)
  else Some s.

Section Platform.

(** The platform's [sin], and [PI] as the board holds it. *)
Variable sin : Q -> Q.
Variable PI : Q.

(** [void updateBreathing(unsigned long currentTime)] *)
Definition updateBreathing (currentTime : Z) (s : State) : State :=
  let currentTime := ulong currentTime in
  if 20 <=? ulong_sub currentTime (lastBreathTime (timers s)) then
    let breathCycle :=
      Binary32.div (Binary32.of_long (currentTime mod BREATH_INTERVAL))
        (Binary32.of_long BREATH_INTERVAL) in
    let s := set_breathOffset
      (Binary32.mul
         (sin (Binary32.mul (Binary32.mul breathCycle 2) PI))
         BREATH_AMPLITUDE) s in
    let s := set_targetY (Binary32.add (targetY (head s)) (breathOffset (head s))) s in
    let s := set_targetY
      (constrain (targetY (head s)) (inject_Z HEAD_Y_MIN) (inject_Z HEAD_Y_MAX)) s in
    set_lastBreathTime currentTime s
  else s.

(** The operations of the scheduler, the float routines in binary32. *)
Definition exec (op : Op) (s : State) : option State :=
  match op with
  | CallUpdateJawMovement now nowSmooth nowClose =>
      updateJawMovement now nowSmooth nowClose s
  | CallUpdateHeadMovement now rawR rawX rawY =>
      Some (updateHeadMovement now rawR rawX rawY s)
  | CallRandomMovementsBetweenSentences now rawR rawX rawY =>
      randomMovementsBetweenSentences now rawR rawX rawY s
  | CallUpdateBreathing currentTime =>
      Some (updateBreathing currentTime s)
  | CallGraduallyMoveServos now =>
      Some (graduallyMoveServos now s)
  | CallGenerateNewPhrase now raw =>
      generateNewPhrase now raw s
  end.

Inductive reachable : State -> Prop :=
| reachable_initial : reachable initial
| reachable_step (s s' : State) (op : Op) :
    reachable s -> exec op s = Some s' -> reachable s'.

End Platform.

(** The step [graduallyMoveServos] computes at the reading [now]. *)
Definition maxMove (now : Z) (s : State) : Q :=
  Binary32.mul HEAD_MOVE_SPEED
    (Binary32.div
       (Binary32.of_long (ulong_sub (ulong now) (lastGradualMoveTime (timers s))))
       1000).

(** One block of [graduallyMoveServos]: the axis [a] moved by at most [m]. *)
Definition interpolate_axis (a : Axis) (m : Q) (s : State) : State :=
  let new := moveTowards (current_of a s) (target_of a s) m in
  if Qneqb new (current_of a s) then
    let s := set_current a new s in
    servo_write (servo_of a) (round (current_of a s)) s
  else s.

(** Where [moveTowards] puts an axis at the reading [now], and the servo
    command that goes with it. *)
Definition interpolated (now : Z) (s : State) (a : Axis) : Q :=
  moveTowards (current_of a s) (target_of a s) (maxMove now s).

Definition axis_write (now : Z) (s : State) (a : Axis) : list Event :=
  if Qneqb (interpolated now s a) (current_of a s)
  then [ServoWrite (servo_of a) (round (interpolated now s a))]
  else [].

(** Successive calls of [graduallyMoveServos] at the readings [nows]. *)
Fixpoint gradual_calls (nows : list Z) (s : State) : State :=
  match nows with
  | [] => s
  | now :: rest => gradual_calls rest (graduallyMoveServos now s)
  end.

(** The offset a firing call of [updateBreathing] adds to the vertical
    target. *)
Definition breath_offset (sin : Q -> Q) (PI : Q) (currentTime : Z) : Q :=
  Binary32.mul
    (sin (Binary32.mul
            (Binary32.mul
               (Binary32.div
                  (Binary32.of_long (ulong currentTime mod BREATH_INTERVAL))
                  (Binary32.of_long BREATH_INTERVAL))
               2)
            PI))
    BREATH_AMPLITUDE.

End Rounded.

(** The head variables hold values of the format. *)
Definition head_is_float (s : State) : Prop :=
  forall a : Axis,
    Binary32.is_float (target_of a s) /\ Binary32.is_float (current_of a s).

(** States on the board for closed examples: a head move just planned, one
    interpolation period before the next update; the rotation target
    jittered from 61 by 0.3 and then by 3.5 degrees. *)
Definition move_planned_on_board : State :=
  updateHeadMovement 5000 40 25 25 (Rounded.graduallyMoveServos 5000 initial).

Definition jittered_once : State :=
  or_initial
    (Rounded.randomMovementsBetweenSentences 6000 38 35 35
       (updateHeadMovement 5000 1 25 25 initial)).

Definition jittered_twice : State :=
  or_initial (Rounded.randomMovementsBetweenSentences 7000 70 35 35 jittered_once).

(** ** Arithmetic facts shared by the proofs *)

Arguments random2 : simpl never.
Arguments constrain : simpl never.
Arguments moveTowards : simpl never.
Arguments round : simpl never.
Arguments ulong : simpl never.
Arguments ulong_sub : simpl never.

Lemma Qltb_lt (x y : Q) : Qltb x y = true <-> (x < y)%Q.
Proof.
  unfold Qltb. rewrite negb_true_iff.
  destruct (Qle_bool y x) eqn:E.
  - apply Qle_bool_iff in E. split; [discriminate | intro; lra].
  - split; [intros _ | reflexivity].
    destruct (Qlt_le_dec x y) as [L | L]; [exact L |].
    apply Qle_bool_iff in L. congruence.
Qed.

Lemma Qltb_ge (x y : Q) : Qltb x y = false <-> (y <= x)%Q.
Proof.
  unfold Qltb. rewrite negb_false_iff. apply Qle_bool_iff.
Qed.

Lemma fabs_Qabs (x : Q) : (fabs x == Qabs x)%Q.
Proof.
  unfold fabs. destruct (Qltb 0 x) eqn:E.
  - apply Qltb_lt in E. symmetry. apply Qabs_pos. lra.
  - apply Qltb_ge in E. symmetry. apply Qabs_neg. exact E.
Qed.

Lemma Qneqb_false (x y : Q) : Qneqb x y = false -> (x == y)%Q.
Proof.
  unfold Qneqb. rewrite negb_false_iff. apply Qeq_bool_iff.
Qed.


Lemma ulong_sub_range (a b : Z) : 0 <= ulong_sub a b < ULONG_MOD.
Proof.
  unfold ulong_sub. apply Z.mod_pos_bound. reflexivity.
Qed.

Lemma elapsed_seconds_nonneg (now : Z) (s : State) :
  (0 <= HEAD_MOVE_SPEED * elapsed_seconds now s)%Q.
Proof.
  unfold elapsed_seconds, HEAD_MOVE_SPEED.
  pose proof (ulong_sub_range (ulong now) (lastGradualMoveTime (timers s))) as [H _].
  assert (0 <= inject_Z (ulong_sub (ulong now) (lastGradualMoveTime (timers s))))%Q
    by (change 0%Q with (inject_Z 0); rewrite <- Zle_Qle; exact H).
  apply Qmult_le_0_compat; [discriminate |].
  apply Qle_shift_div_l; [reflexivity | lra].
Qed.

(** ** The axis interpolator *)

Lemma emitted_app (s s' : State) (es : list Event) :
  trace s' = trace s ++ es -> emitted s s' = es.
Proof.
  intro E. unfold emitted. rewrite E.
  rewrite skipn_app, skipn_all, Nat.sub_diag. reflexivity.
Qed.

(** [graduallyMoveServos] is its three blocks in sequence. *)
Lemma graduallyMoveServos_blocks (now : Z) (s : State) :
  graduallyMoveServos now s =
  if gradual_due now s then
    let maxMove := (HEAD_MOVE_SPEED * elapsed_seconds now s)%Q in
    set_lastGradualMoveTime (ulong now)
      (interpolate_axis AxisY maxMove
         (interpolate_axis AxisX maxMove
            (interpolate_axis Rotation maxMove s)))
  else s.
Proof.
  unfold graduallyMoveServos, gradual_due, interpolate_axis, elapsed_seconds.
  cbv beta zeta iota delta [current_of target_of set_current servo_of].
  reflexivity.
Qed.

Lemma interpolate_axis_target (a b : Axis) (m : Q) (s : State) :
  target_of b (interpolate_axis a m s) = target_of b s.
Proof.
  unfold interpolate_axis. cbv zeta.
  destruct (Qneqb _ _); [| reflexivity]. destruct a, b; reflexivity.
Qed.

Lemma interpolate_axis_current (a : Axis) (m : Q) (s : State) :
  current_of a (interpolate_axis a m s) =
  if Qneqb (moveTowards (current_of a s) (target_of a s) m) (current_of a s)
  then moveTowards (current_of a s) (target_of a s) m
  else current_of a s.
Proof.
  unfold interpolate_axis. cbv zeta.
  destruct (Qneqb _ _); [| reflexivity]. destruct a; reflexivity.
Qed.

Lemma interpolate_axis_other (a b : Axis) (m : Q) (s : State) :
  a <> b -> current_of b (interpolate_axis a m s) = current_of b s.
Proof.
  intro Hab. unfold interpolate_axis. cbv zeta.
  destruct (Qneqb _ _); [| reflexivity].
  destruct a, b; try reflexivity; contradiction.
Qed.

Lemma interpolate_axis_trace (a : Axis) (m : Q) (s : State) :
  trace (interpolate_axis a m s) =
  trace s ++
  if Qneqb (moveTowards (current_of a s) (target_of a s) m) (current_of a s)
  then [ServoWrite (servo_of a)
          (round (moveTowards (current_of a s) (target_of a s) m))]
  else [].
Proof.
  unfold interpolate_axis. cbv zeta.
  destruct (Qneqb _ _); [| symmetry; apply app_nil_r].
  destruct a; reflexivity.
Qed.

Lemma set_lastGradualMoveTime_trace (v : Z) (s : State) :
  trace (set_lastGradualMoveTime v s) = trace s.
Proof. reflexivity. Qed.

Lemma set_lastGradualMoveTime_current (v : Z) (s : State) (a : Axis) :
  current_of a (set_lastGradualMoveTime v s) = current_of a s.
Proof. destruct a; reflexivity. Qed.

Lemma set_lastGradualMoveTime_target (v : Z) (s : State) (a : Axis) :
  target_of a (set_lastGradualMoveTime v s) = target_of a s.
Proof. destruct a; reflexivity. Qed.

(** The commands of one call, axis by axis, and the positions it leaves. *)
Lemma graduallyMoveServos_effect (now : Z) (s : State) :
  gradual_due now s = true ->
  trace (graduallyMoveServos now s) =
    trace s ++ axis_write now s Rotation ++ axis_write now s AxisX
            ++ axis_write now s AxisY
  /\ forall a : Axis,
       current_of a (graduallyMoveServos now s) =
       if Qneqb (interpolated now s a) (current_of a s)
       then interpolated now s a else current_of a s.
Proof.
  intro Hdue. rewrite graduallyMoveServos_blocks, Hdue. cbv zeta.
  unfold axis_write, interpolated.
  set (m := (HEAD_MOVE_SPEED * elapsed_seconds now s)%Q).
  split.
  - rewrite set_lastGradualMoveTime_trace.
    rewrite !interpolate_axis_trace.
    rewrite !interpolate_axis_target.
    rewrite (interpolate_axis_other AxisX AxisY), !(interpolate_axis_other Rotation)
      by discriminate.
    rewrite <- !app_assoc. reflexivity.
  - intro a.
    rewrite set_lastGradualMoveTime_current.
    destruct a.
    + rewrite !(interpolate_axis_other _ Rotation) by discriminate.
      apply interpolate_axis_current.
    + rewrite (interpolate_axis_other AxisY AxisX) by discriminate.
      rewrite interpolate_axis_current, interpolate_axis_target.
      rewrite (interpolate_axis_other Rotation AxisX) by discriminate.
      reflexivity.
    + rewrite interpolate_axis_current, !interpolate_axis_target.
      rewrite (interpolate_axis_other AxisX AxisY),
        (interpolate_axis_other Rotation AxisY) by discriminate.
      reflexivity.
Qed.

Lemma graduallyMoveServos_not_due (now : Z) (s : State) :
  gradual_due now s = false -> graduallyMoveServos now s = s.
Proof.
  unfold gradual_due, graduallyMoveServos. intros ->. reflexivity.
Qed.

(** What one call does to an axis: the target is left alone, and the
    current position becomes the result of [moveTowards] when the call is
    due. *)
Lemma graduallyMoveServos_axis (now : Z) (s : State) (a : Axis) :
  target_of a (graduallyMoveServos now s) = target_of a s
  /\ (current_of a (graduallyMoveServos now s) ==
      if gradual_due now s
      then moveTowards (current_of a s) (target_of a s)
             (HEAD_MOVE_SPEED * elapsed_seconds now s)
      else current_of a s)%Q.
Proof.
  destruct (gradual_due now s) eqn:Hdue.
  - split.
    + rewrite graduallyMoveServos_blocks, Hdue. cbv zeta.
      rewrite set_lastGradualMoveTime_target, !interpolate_axis_target.
      reflexivity.
    + destruct (graduallyMoveServos_effect now s Hdue) as [_ Hcur].
      rewrite Hcur. fold (interpolated now s a).
      destruct (Qneqb (interpolated now s a) (current_of a s)) eqn:E;
        [reflexivity | symmetry; apply Qneqb_false; exact E].
  - rewrite (graduallyMoveServos_not_due now s Hdue). split; reflexivity.
Qed.

(** ** Facts of binary32 arithmetic *)

Section Binary32Facts.
Import Binary32.
Local Open Scope Q_scope.

Lemma two_nonzero : ~ 2 == 0.
Proof. discriminate. Qed.

Lemma pow2_pos (k : Z) : 0 < pow2 k.
Proof. apply Qpower_0_lt. reflexivity. Qed.

Lemma pow2_add (a b : Z) : pow2 (a + b) == pow2 a * pow2 b.
Proof. apply Qpower_plus, two_nonzero. Qed.

Lemma pow2_le (a b : Z) : (a <= b)%Z -> pow2 a <= pow2 b.
Proof. intro H. apply Qpower_le_compat_l; [exact H | discriminate]. Qed.

Lemma pow2_Z (k : Z) : (0 <= k)%Z -> pow2 k == inject_Z (2 ^ k).
Proof. intro H. symmetry. apply (Zpower_Qpower 2 k H). Qed.

Lemma pow2_succ (k : Z) : pow2 (k + 1) == 2 * pow2 k.
Proof. rewrite pow2_add. change (pow2 1) with 2. ring. Qed.

Lemma pow2_pred (k : Z) : pow2 (k - 1) == (1 # 2) * pow2 k.
Proof.
  setoid_replace (pow2 k) with (pow2 ((k - 1) + 1))
    by (apply Qpower_comp; [reflexivity | lia]).
  rewrite pow2_succ. field.
Qed.

Lemma inject_Z_sub (x y : Z) : (inject_Z (x - y) == inject_Z x - inject_Z y)%Q.
Proof.
  unfold Z.sub. rewrite inject_Z_plus, inject_Z_opp. reflexivity.
Qed.

Lemma Qfloor_unique (x : Q) (z : Z) :
  inject_Z z <= x -> x < inject_Z (z + 1) -> Qfloor x = z.
Proof.
  intros Hl Hu.
  pose proof (Qfloor_le x) as Fl. pose proof (Qlt_floor x) as Fu.
  assert (inject_Z z < inject_Z (Qfloor x + 1)) as A by lra.
  assert (inject_Z (Qfloor x) < inject_Z (z + 1)) as B by lra.
  rewrite <- Zlt_Qlt in A, B. lia.
Qed.

Lemma nearest_even_cases (x : Q) :
  let f := Qfloor x in
  (x - inject_Z f < 1 # 2 /\ nearest_even x = f)
  \/ (1 # 2 < x - inject_Z f /\ nearest_even x = (f + 1)%Z)
  \/ (x - inject_Z f == 1 # 2
      /\ nearest_even x = if Z.even f then f else (f + 1)%Z).
Proof.
  cbv zeta. unfold nearest_even.
  destruct (x - inject_Z (Qfloor x) ?= 1 # 2) eqn:E.
  - right. right. split; [apply Qeq_alt; exact E | reflexivity].
  - left. split; [apply Qlt_alt; exact E | reflexivity].
  - right. left. split; [apply Qgt_alt; exact E | reflexivity].
Qed.

Lemma nearest_even_Z (z : Z) : nearest_even (inject_Z z) = z.
Proof.
  destruct (nearest_even_cases (inject_Z z)) as [[H E] | [[H E] | [H E]]];
    rewrite Qfloor_Z in *.
  - exact E.
  - exfalso. lra.
  - exfalso. lra.
Qed.

Lemma nearest_even_error (x : Q) :
  Qabs (inject_Z (nearest_even x) - x) <= 1 # 2.
Proof.
  pose proof (Qfloor_le x) as Fl. pose proof (Qlt_floor x) as Fu.
  rewrite inject_Z_plus in Fu. change (inject_Z 1) with 1 in Fu.
  apply Qabs_Qle_condition.
  destruct (nearest_even_cases x) as [[H E] | [[H E] | [H E]]]; rewrite E.
  - split; lra.
  - rewrite inject_Z_plus. change (inject_Z 1) with 1. split; lra.
  - destruct (Z.even (Qfloor x));
      [| rewrite inject_Z_plus; change (inject_Z 1) with 1]; split; lra.
Qed.

Lemma nearest_even_comp (x y : Q) : x == y -> nearest_even x = nearest_even y.
Proof.
  intro E. unfold nearest_even. rewrite (Qfloor_comp x y E).
  assert ((x - inject_Z (Qfloor y) ?= 1 # 2) = (y - inject_Z (Qfloor y) ?= 1 # 2)) as ->.
  { apply Qcompare_comp; [rewrite E |]; reflexivity. }
  reflexivity.
Qed.

Lemma nearest_even_mono (x y : Q) :
  x <= y -> (nearest_even x <= nearest_even y)%Z.
Proof.
  intro H.
  pose proof (Qfloor_resp_le x y H) as F.
  pose proof (Qfloor_le x) as Flx. pose proof (Qlt_floor x) as Fux.
  pose proof (Qfloor_le y) as Fly. pose proof (Qlt_floor y) as Fuy.
  rewrite inject_Z_plus in Fux, Fuy. change (inject_Z 1) with 1 in Fux, Fuy.
  destruct (nearest_even_cases x) as [[Hx Ex] | [[Hx Ex] | [Hx Ex]]];
  destruct (nearest_even_cases y) as [[Hy Ey] | [[Hy Ey] | [Hy Ey]]];
  rewrite Ex, Ey; try lia;
  (destruct (Z.eq_dec (Qfloor x) (Qfloor y)) as [e | n];
   [ rewrite e in *; destruct (Z.even (Qfloor y)); try lia; exfalso; lra
   | destruct (Z.even (Qfloor x)), (Z.even (Qfloor y)); lia ]).
Qed.

Lemma nearest_even_opp (x : Q) : nearest_even (- x) = (- nearest_even x)%Z.
Proof.
  pose proof (Qfloor_le x) as Fl. pose proof (Qlt_floor x) as Fu.
  rewrite inject_Z_plus in Fu. change (inject_Z 1) with 1 in Fu.
  destruct (Qeq_dec x (inject_Z (Qfloor x))) as [I | N].
  - rewrite (nearest_even_comp x _ I).
    rewrite (nearest_even_comp (- x) (inject_Z (- Qfloor x)))
      by (rewrite inject_Z_opp, <- I; reflexivity).
    rewrite !nearest_even_Z. reflexivity.
  - assert (Qfloor (- x) = (- Qfloor x - 1)%Z) as F'.
    { apply Qfloor_unique.
      - rewrite inject_Z_sub, inject_Z_opp. change (inject_Z 1) with 1. lra.
      - replace (- Qfloor x - 1 + 1)%Z with (- Qfloor x)%Z by lia.
        rewrite inject_Z_opp.
        assert (inject_Z (Qfloor x) < x) by (apply Qle_lteq in Fl; destruct Fl as [L | L]; [exact L | exfalso; apply N; symmetry; exact L]).
        lra. }
    destruct (nearest_even_cases x) as [[Hx Ex] | [[Hx Ex] | [Hx Ex]]];
    destruct (nearest_even_cases (- x)) as [[Hy Ey] | [[Hy Ey] | [Hy Ey]]];
    rewrite Ex, Ey; rewrite F' in *;
    rewrite inject_Z_sub, inject_Z_opp in Hy;
    change (inject_Z 1) with 1 in Hy; try (exfalso; lra); try lia.
    replace (- Qfloor x - 1)%Z with (- (Qfloor x + 1))%Z by lia.
    rewrite Z.even_opp, Z.even_add. change (Z.even 1) with false.
    destruct (Z.even (Qfloor x)); simpl; lia.
Qed.

Lemma pow2_lt_inv (a b : Z) : pow2 a < pow2 b -> (a < b)%Z.
Proof. intro H. apply (Qpower_lt_compat_l_inv 2); [exact H | reflexivity]. Qed.

Lemma pow2_shift (a b : Z) : pow2 a == pow2 (a - b) * pow2 b.
Proof. rewrite <- pow2_add. replace (a - b + b)%Z with a by lia. reflexivity. Qed.

(** The binade of a positive rational. *)
Lemma ilog2_spec (x : Q) :
  0 < x -> pow2 (ilog2 x) <= x /\ x < pow2 (ilog2 x + 1).
Proof.
  intro Hx. destruct x as [n d].
  assert (0 < n)%Z as Hn.
  { unfold Qlt in Hx. simpl in Hx. lia. }
  unfold ilog2. cbn [Qnum Qden].
  set (la := Z.log2 n). set (ld := Z.log2 (Z.pos d)).
  pose proof (Z.log2_spec n Hn) as [Nl Nu]. fold la in Nl, Nu.
  pose proof (Z.log2_spec (Z.pos d) eq_refl) as [Dl Du]. fold ld in Dl, Du.
  pose proof (Z.log2_nonneg n) as La. fold la in La.
  pose proof (Z.log2_nonneg (Z.pos d)) as Ld. fold ld in Ld.
  set (X := n # d) in *.
  set (N := inject_Z n). set (D := inject_Z (Z.pos d)).
  assert (X * D == N) as XD.
  { unfold X, N, D, Qeq, Qmult, inject_Z. simpl. lia. }
  assert (0 < D) as Dpos by reflexivity.
  assert (pow2 la <= N) as QNl.
  { rewrite pow2_Z by exact La. unfold N. rewrite <- Zle_Qle. exact Nl. }
  assert (N < pow2 (la + 1)) as QNu.
  { rewrite pow2_Z by lia. unfold N. rewrite <- Zlt_Qlt.
    replace (la + 1)%Z with (Z.succ la) by lia. exact Nu. }
  assert (pow2 ld <= D) as QDl.
  { rewrite pow2_Z by exact Ld. unfold D. rewrite <- Zle_Qle. exact Dl. }
  assert (D < pow2 (ld + 1)) as QDu.
  { rewrite pow2_Z by lia. unfold D. rewrite <- Zlt_Qlt.
    replace (ld + 1)%Z with (Z.succ ld) by lia. exact Du. }
  assert (X < pow2 (la - ld + 1)) as Up.
  { pose proof (pow2_shift (la + 1) ld) as S.
    replace (la + 1 - ld)%Z with (la - ld + 1)%Z in S by lia.
    pose proof (pow2_pos (la - ld + 1)) as Pp.
    apply Qnot_le_lt. intro C.
    assert (pow2 (la - ld + 1) * pow2 ld <= X * D) as K.
    { apply Qle_trans with (pow2 (la - ld + 1) * D).
      - apply Qmult_le_l; [exact Pp | exact QDl].
      - apply Qmult_le_r; [exact Dpos | exact C]. }
    lra. }
  assert (pow2 (la - ld - 1) < X) as Lo.
  { pose proof (pow2_shift la (ld + 1)) as S.
    replace (la - (ld + 1))%Z with (la - ld - 1)%Z in S by lia.
    pose proof (pow2_pos (la - ld - 1)) as Pp.
    apply Qnot_le_lt. intro C.
    assert (X * D < pow2 (la - ld - 1) * pow2 (ld + 1)) as K.
    { apply Qle_lt_trans with (pow2 (la - ld - 1) * D).
      - apply Qmult_le_r; [exact Dpos | exact C].
      - apply Qmult_lt_l; [exact Pp | exact QDu]. }
    lra. }
  destruct (Qle_bool (pow2 (la - ld)) X) eqn:B.
  - apply Qle_bool_iff in B. split; [exact B | exact Up].
  - assert (X < pow2 (la - ld)) as B'.
    { apply Qnot_le_lt. intro C. apply Qle_bool_iff in C. congruence. }
    replace (la - ld - 1 + 1)%Z with (la - ld)%Z by lia.
    split; [apply Qlt_le_weak; exact Lo | exact B'].
Qed.

Lemma ilog2_below (x : Q) (k : Z) : 0 < x -> x < pow2 k -> (ilog2 x < k)%Z.
Proof.
  intros Hx Hk. destruct (ilog2_spec x Hx) as [L _].
  apply pow2_lt_inv. lra.
Qed.

Lemma ilog2_above (x : Q) (k : Z) : 0 < x -> pow2 k <= x -> (k <= ilog2 x)%Z.
Proof.
  intros Hx Hk. destruct (ilog2_spec x Hx) as [_ U].
  assert (k < ilog2 x + 1)%Z by (apply pow2_lt_inv; lra). lia.
Qed.

Lemma ulp_of_comp (x y : Q) : x == y -> ulp_of x = ulp_of y.
Proof. intro E. unfold ulp_of. rewrite (Qred_complete x y E). reflexivity. Qed.

Lemma Qabs_Qred_pos (x : Q) : ~ x == 0 -> 0 < Qabs (Qred x).
Proof.
  intro N. rewrite (Qred_correct x).
  apply Qnot_le_lt. intro C.
  apply N. apply Qabs_Qle_condition in C. lra.
Qed.

Lemma ulp_of_min (x : Q) : (emin - 23 <= ulp_of x)%Z.
Proof. unfold ulp_of, prec. lia. Qed.

Lemma ulp_of_spec (x : Q) :
  ~ x == 0 ->
  Qabs x < pow2 (ulp_of x + 24)
  /\ ((emin - 23 < ulp_of x)%Z -> pow2 (ulp_of x + 23) <= Qabs x).
Proof.
  intro N. pose proof (Qabs_Qred_pos x N) as P.
  destruct (ilog2_spec _ P) as [L U].
  unfold ulp_of, prec.
  set (e := ilog2 (Qabs (Qred x))) in *.
  rewrite (Qred_correct x) in L, U. split.
  - apply Qlt_le_trans with (1 := U). apply pow2_le. lia.
  - intro G.
    replace (Z.max e emin - (24 - 1) + 23)%Z with e by lia.
    exact L.
Qed.

Lemma ulp_of_below (x : Q) (k : Z) :
  ~ x == 0 -> Qabs x < pow2 k -> (emin + 1 <= k)%Z -> (ulp_of x <= k - 24)%Z.
Proof.
  intros N H K. pose proof (Qabs_Qred_pos x N) as P.
  assert (Qabs (Qred x) < pow2 k) as H' by (rewrite (Qred_correct x); exact H).
  pose proof (ilog2_below _ k P H').
  unfold ulp_of, prec. lia.
Qed.

Lemma ulp_of_above (x : Q) (k : Z) :
  ~ x == 0 -> pow2 k <= Qabs x -> (k - 23 <= ulp_of x)%Z.
Proof.
  intros N H. pose proof (Qabs_Qred_pos x N) as P.
  assert (pow2 k <= Qabs (Qred x)) as H' by (rewrite (Qred_correct x); exact H).
  pose proof (ilog2_above _ k P H').
  unfold ulp_of, prec. lia.
Qed.

Lemma ulp_of_mono (x y : Q) :
  ~ x == 0 -> Qabs x <= Qabs y -> (ulp_of x <= ulp_of y)%Z.
Proof.
  intros N H.
  assert (~ y == 0) as Ny.
  { intro E. rewrite E in H. change (Qabs 0) with 0 in H.
    apply N. apply Qabs_Qle_condition in H. lra. }
  destruct (ulp_of_spec x N) as [Ux Lx].
  destruct (ulp_of_spec y Ny) as [Uy Ly].
  pose proof (ulp_of_min y) as My.
  destruct (Z_le_gt_dec (ulp_of x) (ulp_of y)) as [ok | G]; [exact ok | exfalso].
  assert (emin - 23 < ulp_of x)%Z as Gx by lia.
  specialize (Lx Gx).
  assert (pow2 (ulp_of y + 24) <= pow2 (ulp_of x + 23)) by (apply pow2_le; lia).
  lra.
Qed.

Lemma ulp_of_opp (x : Q) : ulp_of (- x) = ulp_of x.
Proof.
  apply Z.le_antisymm.
  - destruct (Qeq_dec x 0) as [Z0 | N].
    + assert (- x == x) as E by (rewrite Z0; reflexivity).
      rewrite (ulp_of_comp _ _ E). lia.
    + apply ulp_of_mono; [lra | rewrite Qabs_opp; apply Qle_refl].
  - destruct (Qeq_dec x 0) as [Z0 | N].
    + assert (- x == x) as E by (rewrite Z0; reflexivity).
      rewrite (ulp_of_comp _ _ E). lia.
    + apply ulp_of_mono; [exact N | rewrite Qabs_opp; apply Qle_refl].
Qed.

(** [rounded] is the nearest multiple of the unit in the last place. *)
Lemma rounded_eq (x : Q) :
  rounded x == inject_Z (nearest_even (x / pow2 (ulp_of x))) * pow2 (ulp_of x).
Proof. reflexivity. Qed.

#[global] Instance rounded_comp : Proper (Qeq ==> Qeq) rounded.
Proof.
  intros x y E. unfold rounded. cbv zeta. rewrite (ulp_of_comp x y E).
  rewrite (nearest_even_comp (x / pow2 (ulp_of y)) (y / pow2 (ulp_of y)))
    by (rewrite E; reflexivity).
  reflexivity.
Qed.

Lemma rounded_zero : rounded 0 == 0.
Proof. reflexivity. Qed.

Lemma rounded_opp (x : Q) : rounded (- x) == - rounded x.
Proof.
  rewrite !rounded_eq, ulp_of_opp.
  rewrite (nearest_even_comp (- x / pow2 (ulp_of x)) (- (x / pow2 (ulp_of x))))
    by (field; apply Qnot_eq_sym, Qlt_not_eq, pow2_pos).
  rewrite nearest_even_opp, inject_Z_opp. ring.
Qed.

(** Half a unit in the last place bounds the rounding error. *)
Lemma rounded_error (x : Q) :
  Qabs (rounded x - x) <= pow2 (ulp_of x - 1).
Proof.
  rewrite rounded_eq. set (q := ulp_of x).
  pose proof (pow2_pos q) as Pq.
  pose proof (nearest_even_error (x / pow2 q)) as E.
  set (n := inject_Z (nearest_even (x / pow2 q))) in *.
  setoid_replace (n * pow2 q - x) with ((n - x / pow2 q) * pow2 q)
    by (field; lra).
  rewrite Qabs_Qmult, (Qabs_pos (pow2 q)) by lra.
  rewrite pow2_pred.
  apply Qmult_le_r; [exact Pq | exact E].
Qed.

Lemma rounded_error_below (x : Q) (k : Z) :
  Qabs x < pow2 k -> (emin + 1 <= k)%Z ->
  Qabs (rounded x - x) <= pow2 (k - 25).
Proof.
  intros H K. destruct (Qeq_dec x 0) as [Z0 | N].
  - rewrite Z0, rounded_zero. change (Qabs (0 - 0)) with 0.
    apply Qlt_le_weak, pow2_pos.
  - apply Qle_trans with (1 := rounded_error x).
    apply pow2_le. pose proof (ulp_of_below x k N H K). lia.
Qed.

Lemma rounded_error_relative (x : Q) :
  pow2 emin <= Qabs x -> Qabs (rounded x - x) <= pow2 (- 24) * Qabs x.
Proof.
  intro H.
  assert (~ x == 0) as N.
  { intro E. rewrite E in H. change (Qabs 0) with 0 in H.
    pose proof (pow2_pos emin). lra. }
  apply Qle_trans with (1 := rounded_error x).
  destruct (ulp_of_spec x N) as [_ L].
  pose proof (ulp_of_above x emin N H) as A.
  pose proof (pow2_pos (- 24)) as P24.
  destruct (Z.eq_dec (ulp_of x) (emin - 23)) as [e | ne].
  - rewrite e.
    setoid_replace (pow2 (emin - 23 - 1)) with (pow2 (- 24) * pow2 emin)
      by (rewrite <- pow2_add; reflexivity).
    apply Qmult_le_l; [exact P24 | exact H].
  - assert (emin - 23 < ulp_of x)%Z as G by lia. specialize (L G).
    setoid_replace (pow2 (ulp_of x - 1)) with (pow2 (- 24) * pow2 (ulp_of x + 23))
      by (rewrite <- pow2_add; apply Qpower_comp; [reflexivity | lia]).
    apply Qmult_le_l; [exact P24 | exact L].
Qed.

(** Rounding at one exponent. *)
Lemma nearest_scaled_mono (x y : Q) (q : Z) :
  x <= y ->
  inject_Z (nearest_even (x / pow2 q)) * pow2 q
  <= inject_Z (nearest_even (y / pow2 q)) * pow2 q.
Proof.
  intro H. pose proof (pow2_pos q) as Pq.
  apply Qmult_le_r; [exact Pq |].
  rewrite <- Zle_Qle. apply nearest_even_mono.
  apply Qmult_le_r; [apply Qinv_lt_0_compat; exact Pq | exact H].
Qed.

Lemma nearest_scaled_fix (n : Z) (j q : Z) :
  (q <= j)%Z ->
  inject_Z (nearest_even (inject_Z n * pow2 j / pow2 q)) * pow2 q
  == inject_Z n * pow2 j.
Proof.
  intro H. pose proof (pow2_pos q) as Pq.
  assert (inject_Z n * pow2 j / pow2 q == inject_Z (n * 2 ^ (j - q))) as E.
  { rewrite inject_Z_mult, <- pow2_Z by lia.
    rewrite (pow2_shift j q). field. lra. }
  rewrite (nearest_even_comp _ _ E), nearest_even_Z.
  rewrite inject_Z_mult, <- pow2_Z by lia.
  rewrite (pow2_shift j q). ring.
Qed.

(** Values of the format: a significand below 2^24 at an exponent of the
    format. *)
Lemma is_float_scaled (x : Q) (n j : Z) :
  x == inject_Z n * pow2 j -> (Z.abs n < 2 ^ 24)%Z -> (emin - 23 <= j)%Z ->
  is_float x.
Proof.
  intros E Hn Hj. unfold is_float.
  destruct (Qeq_dec x 0) as [Z0 | N].
  - rewrite Z0. apply rounded_zero.
  - rewrite rounded_eq.
    assert (ulp_of x <= j)%Z as Q.
    { assert (Qabs x < pow2 (j + 24)) as B.
      { rewrite E, Qabs_Qmult, (Qabs_pos (pow2 j))
          by (apply Qlt_le_weak, pow2_pos).
        rewrite Z.add_comm, pow2_add.
        apply Qmult_lt_r; [apply pow2_pos |].
        rewrite pow2_Z by lia.
        assert (Qabs (inject_Z n) == inject_Z (Z.abs n)) as ->
          by (unfold Qabs, inject_Z; reflexivity).
        rewrite <- Zlt_Qlt. exact Hn. }
      pose proof (ulp_of_below x (j + 24) N B). unfold emin in *. lia. }
    rewrite (nearest_even_comp (x / pow2 (ulp_of x))
               (inject_Z n * pow2 j / pow2 (ulp_of x)))
      by (unfold Qdiv; apply Qmult_comp; [exact E | reflexivity]).
    rewrite (nearest_scaled_fix n j _ Q). symmetry. exact E.
Qed.

Lemma is_float_Z (k : Z) : (Z.abs k < 2 ^ 24)%Z -> is_float (inject_Z k).
Proof.
  intro H. apply (is_float_scaled _ k 0); [| exact H | discriminate].
  change (pow2 0) with 1. ring.
Qed.

Lemma rounded_significand (x : Q) :
  (Z.abs (nearest_even (x / pow2 (ulp_of x))) <= 2 ^ 24)%Z.
Proof.
  pose proof (pow2_pos (ulp_of x)) as Pq.
  destruct (Qeq_dec x 0) as [Z0 | N].
  - revert Pq. generalize (ulp_of x). intros q Pq.
    rewrite (nearest_even_comp _ 0) by (rewrite Z0; field; lra).
    change 0 with (inject_Z 0). rewrite nearest_even_Z. discriminate.
  - destruct (ulp_of_spec x N) as [U _].
    rewrite Z.add_comm, pow2_add in U.
    apply Qabs_Qlt_condition in U. destruct U as [Ul Uu].
    assert (pow2 24 == inject_Z (2 ^ 24)) as P24 by (apply pow2_Z; discriminate).
    assert (x / pow2 (ulp_of x) <= inject_Z (2 ^ 24)) as A.
    { rewrite <- P24. apply Qle_shift_div_r; [exact Pq | lra]. }
    assert (inject_Z (- 2 ^ 24) <= x / pow2 (ulp_of x)) as B.
    { rewrite inject_Z_opp, <- P24. apply Qle_shift_div_l; [exact Pq | lra]. }
    apply nearest_even_mono in A, B. rewrite nearest_even_Z in A, B. lia.
Qed.

(** The result of a rounding is a value of the format. *)
Lemma rounded_is_float (x : Q) : is_float (rounded x).
Proof.
  pose proof (rounded_significand x) as S.
  pose proof (ulp_of_min x) as M.
  set (n := nearest_even (x / pow2 (ulp_of x))) in *.
  change (2 ^ 24)%Z with 16777216%Z in *.
  destruct (Z.eq_dec (Z.abs n) 16777216) as [e | ne].
  - apply (is_float_scaled _ (n / 2) (ulp_of x + 1)).
    + rewrite rounded_eq. fold n. rewrite pow2_succ. clearbody n.
      assert (n = 2 * (n / 2))%Z as D2.
      { clear - e. assert (n = 16777216 \/ n = - 16777216)%Z as [-> | ->] by lia;
          reflexivity. }
      rewrite D2 at 1. rewrite inject_Z_mult. change (inject_Z 2) with 2. ring.
    + clear - e. assert (n = 16777216 \/ n = - 16777216)%Z as [-> | ->] by lia;
        reflexivity.
    + lia.
  - apply (is_float_scaled _ n (ulp_of x)).
    + rewrite rounded_eq. reflexivity.
    + lia.
    + exact M.
Qed.

Lemma rounded_nonneg (x : Q) : 0 <= x -> 0 <= rounded x.
Proof.
  intro H. rewrite rounded_eq.
  pose proof (pow2_pos (ulp_of x)) as Pq.
  apply Qmult_le_0_compat; [| lra].
  change 0 with (inject_Z 0). rewrite <- Zle_Qle.
  rewrite <- (nearest_even_Z 0). apply nearest_even_mono.
  change (inject_Z 0) with 0.
  apply Qle_shift_div_l; [exact Pq | lra].
Qed.

Lemma rounded_mono_pos (x y : Q) : 0 < x -> x <= y -> rounded x <= rounded y.
Proof.
  intros Hx H.
  assert (~ x == 0) as Nx by lra. assert (~ y == 0) as Ny by lra.
  assert (Qabs x == x) as Ax by (apply Qabs_pos; lra).
  assert (Qabs y == y) as Ay by (apply Qabs_pos; lra).
  assert (ulp_of x <= ulp_of y)%Z as Q by (apply ulp_of_mono; [exact Nx | lra]).
  rewrite (rounded_eq x), (rounded_eq y).
  destruct (Z.eq_dec (ulp_of x) (ulp_of y)) as [e | ne].
  - rewrite e. apply nearest_scaled_mono. exact H.
  - destruct (ulp_of_spec x Nx) as [Ux _].
    destruct (ulp_of_spec y Ny) as [_ Ly].
    pose proof (ulp_of_min x) as Mx.
    assert (emin - 23 < ulp_of y)%Z as G by lia. specialize (Ly G).
    rewrite Ax in Ux. rewrite Ay in Ly.
    apply Qle_trans with (pow2 (ulp_of x + 24)).
    + assert (pow2 (ulp_of x + 24) == inject_Z (2 ^ 24) * pow2 (ulp_of x)) as T.
      { rewrite Z.add_comm, pow2_add, pow2_Z by discriminate. reflexivity. }
      rewrite T. rewrite <- (nearest_scaled_fix (2 ^ 24) (ulp_of x) (ulp_of x))
        by lia.
      apply nearest_scaled_mono. rewrite <- T. lra.
    + apply Qle_trans with (pow2 (ulp_of y + 23)); [apply pow2_le; lia |].
      assert (pow2 (ulp_of y + 23) == inject_Z (2 ^ 23) * pow2 (ulp_of y)) as T.
      { rewrite Z.add_comm, pow2_add, pow2_Z by discriminate. reflexivity. }
      rewrite T. rewrite <- (nearest_scaled_fix (2 ^ 23) (ulp_of y) (ulp_of y))
        by lia.
      apply nearest_scaled_mono. rewrite <- T. exact Ly.
Qed.

(** Rounding is monotone. *)
Lemma rounded_mono (x y : Q) : x <= y -> rounded x <= rounded y.
Proof.
  intro H.
  destruct (Qlt_le_dec 0 x) as [Px | Nx].
  - apply rounded_mono_pos; assumption.
  - destruct (Qlt_le_dec y 0) as [Ny | Py].
    + assert (rounded (- y) <= rounded (- x)) as K
        by (apply rounded_mono_pos; lra).
      rewrite !rounded_opp in K. lra.
    + apply Qle_trans with 0.
      * assert (0 <= rounded (- x)) as K by (apply rounded_nonneg; lra).
        rewrite rounded_opp in K. lra.
      * apply rounded_nonneg. exact Py.
Qed.

(** A value of the format that bounds [x] bounds its rounding. *)
Lemma rounded_le (x b : Q) : is_float b -> x <= b -> rounded x <= b.
Proof.
  intros F H. unfold is_float in F.
  apply Qle_trans with (rounded b); [apply rounded_mono; exact H |].
  rewrite F. apply Qle_refl.
Qed.

Lemma rounded_ge (x b : Q) : is_float b -> b <= x -> b <= rounded x.
Proof.
  intros F H. unfold is_float in F.
  apply Qle_trans with (rounded b); [| apply rounded_mono; exact H].
  rewrite F. apply Qle_refl.
Qed.

Lemma rounded_lt_inv (x b : Q) : is_float b -> b < rounded x -> b < x.
Proof.
  intros F H. apply Qnot_le_lt. intro C.
  pose proof (rounded_le x b F C). lra.
Qed.

Lemma rounded_gt_inv (x b : Q) : is_float b -> rounded x < b -> x < b.
Proof.
  intros F H. apply Qnot_le_lt. intro C.
  pose proof (rounded_ge x b F C). lra.
Qed.

End Binary32Facts.

(** ** The interpolator in binary32 *)

Lemma within_bound_wide (a : Axis) (v : Q) :
  within_bound a v -> (60 <= v <= 120)%Q.
Proof.
  unfold within_bound. destruct a; cbn; intros [L U];
    repeat match goal with
           | H : context [inject_Z ?z] |- _ =>
               let q := eval cbv in (inject_Z z) in
               change (inject_Z z) with q in H
           end; split; lra.
Qed.

Lemma half_ulp_value : (Binary32.half_ulp == 1 # 262144)%Q.
Proof. reflexivity. Qed.

(** The rounding error of a value below 128, and of one below 64. *)
Lemma rounded_error_128 (x : Q) :
  (Qabs x < 128)%Q -> (Qabs (Binary32.rounded x - x) <= Binary32.half_ulp)%Q.
Proof.
  intro H. apply (rounded_error_below x 7); [exact H | discriminate].
Qed.

Lemma rounded_error_64 (x : Q) :
  (Qabs x < 64)%Q -> (Qabs (Binary32.rounded x - x) <= Binary32.half_ulp)%Q.
Proof.
  intro H. apply rounded_error_128. lra.
Qed.

(** The macro [abs] on a rounded difference. *)
Lemma fabs_sub_le (current target : Q) :
  (current <= target)%Q ->
  (fabs (Binary32.sub current target) == Binary32.rounded (target - current))%Q.
Proof.
  intro H. rewrite fabs_Qabs. unfold Binary32.sub.
  setoid_replace (target - current)%Q with (- (current - target))%Q by ring.
  rewrite rounded_opp. apply Qabs_neg.
  apply rounded_le; [apply rounded_zero | lra].
Qed.

Lemma fabs_sub_ge (current target : Q) :
  (target <= current)%Q ->
  (fabs (Binary32.sub current target) == Binary32.rounded (current - target))%Q.
Proof.
  intro H. rewrite fabs_Qabs. unfold Binary32.sub. apply Qabs_pos.
  apply rounded_ge; [apply rounded_zero | lra].
Qed.

(** The three cases of [moveTowards]: the target when the rounded distance
    is within the step, else the rounded sum or difference, which lies
    between the start and the target. *)
Lemma Rounded_moveTowards_cases (current target maxMove : Q) :
  Binary32.is_float current -> Binary32.is_float target ->
  Binary32.is_float maxMove -> (0 <= maxMove)%Q ->
  ((fabs (Binary32.sub current target) <= maxMove)%Q
   /\ Rounded.moveTowards current target maxMove = target)
  \/ ((current + maxMove < target)%Q
      /\ Rounded.moveTowards current target maxMove
         = Binary32.rounded (current + maxMove)
      /\ (current <= Binary32.rounded (current + maxMove) <= target)%Q)
  \/ ((target < current - maxMove)%Q
      /\ Rounded.moveTowards current target maxMove
         = Binary32.rounded (current - maxMove)
      /\ (target <= Binary32.rounded (current - maxMove) <= current)%Q).
Proof.
  intros Fc Ft Fm Hm. unfold Rounded.moveTowards.
  destruct (Qle_bool (fabs (Binary32.sub current target)) maxMove) eqn:Enear.
  - left. apply Qle_bool_iff in Enear. split; [exact Enear | reflexivity].
  - right.
    assert (Hfar : (maxMove < fabs (Binary32.sub current target))%Q).
    { apply Qnot_le_lt. intro C. apply Qle_bool_iff in C. congruence. }
    destruct (Qltb current target) eqn:Edir.
    + left. apply Qltb_lt in Edir.
      rewrite fabs_sub_le in Hfar by lra.
      apply (rounded_lt_inv _ _ Fm) in Hfar.
      split; [lra |]. split; [reflexivity |].
      split; [apply rounded_ge | apply rounded_le]; try assumption; lra.
    + right. apply Qltb_ge in Edir.
      rewrite fabs_sub_ge in Hfar by lra.
      apply (rounded_lt_inv _ _ Fm) in Hfar.
      split; [lra |]. split; [reflexivity |].
      split; [apply rounded_ge | apply rounded_le]; try assumption; lra.
Qed.

Lemma Rounded_moveTowards_is_float (current target maxMove : Q) :
  Binary32.is_float target ->
  Binary32.is_float (Rounded.moveTowards current target maxMove).
Proof.
  intro Ft. unfold Rounded.moveTowards.
  destruct (Qle_bool _ _); [exact Ft |].
  destruct (Qltb _ _); apply rounded_is_float.
Qed.

(** One step ends between the start and the target. *)
Lemma Rounded_moveTowards_between (current target maxMove : Q) :
  Binary32.is_float current -> Binary32.is_float target ->
  Binary32.is_float maxMove -> (0 <= maxMove)%Q ->
  ((current <= target)%Q ->
   (current <= Rounded.moveTowards current target maxMove <= target)%Q)
  /\ ((target <= current)%Q ->
      (target <= Rounded.moveTowards current target maxMove <= current)%Q).
Proof.
  intros Fc Ft Fm Hm.
  destruct (Rounded_moveTowards_cases current target maxMove Fc Ft Fm Hm)
    as [[_ ->] | [[F [-> B]] | [F [-> B]]]]; split; intro D; split; lra.
Qed.

(** One step covers at most the step length and half a unit in the last
    place. *)
Lemma Rounded_moveTowards_moved (current target maxMove : Q) :
  Binary32.is_float current -> Binary32.is_float target ->
  Binary32.is_float maxMove -> (0 <= maxMove)%Q ->
  (60 <= current <= 120)%Q -> (60 <= target <= 120)%Q ->
  (Qabs (Rounded.moveTowards current target maxMove - current)
   <= maxMove + Binary32.half_ulp)%Q.
Proof.
  intros Fc Ft Fm Hm Bc Bt.
  pose proof half_ulp_value as Hu.
  destruct (Rounded_moveTowards_cases current target maxMove Fc Ft Fm Hm)
    as [[Hnear ->] | [[Hfar [-> B]] | [Hfar [-> B]]]].
  - rewrite fabs_Qabs in Hnear. unfold Binary32.sub in Hnear.
    assert (E : (Qabs (Binary32.rounded (current - target) - (current - target))
                 <= Binary32.half_ulp)%Q).
    { apply rounded_error_64. apply Qabs_Qlt_condition. split; lra. }
    apply Qabs_Qle_condition in E. apply Qabs_Qle_condition in Hnear.
    apply Qabs_Qle_condition. split; lra.
  - assert (E : (Qabs (Binary32.rounded (current + maxMove) - (current + maxMove))
                 <= Binary32.half_ulp)%Q).
    { apply rounded_error_128. apply Qabs_Qlt_condition. split; lra. }
    apply Qabs_Qle_condition in E. apply Qabs_Qle_condition. split; lra.
  - assert (E : (Qabs (Binary32.rounded (current - maxMove) - (current - maxMove))
                 <= Binary32.half_ulp)%Q).
    { apply rounded_error_128. apply Qabs_Qlt_condition. split; lra. }
    apply Qabs_Qle_condition in E. apply Qabs_Qle_condition. split; lra.
Qed.

(** The step length: a value of the format, not negative, at least the
    binary32 value of 0.16 when the call is due, and above the exact
    product of speed and time by a factor of at most [1 + 2^-22]. *)
Lemma Rounded_maxMove_is_float (now : Z) (s : State) :
  Binary32.is_float (Rounded.maxMove now s).
Proof. apply rounded_is_float. Qed.

Lemma inject_Z_nonneg (z : Z) : 0 <= z -> (0 <= inject_Z z)%Q.
Proof. intro H. change 0%Q with (inject_Z 0). rewrite <- Zle_Qle. exact H. Qed.

Lemma Rounded_maxMove_nonneg (now : Z) (s : State) :
  (0 <= Rounded.maxMove now s)%Q.
Proof.
  unfold Rounded.maxMove, Binary32.mul, Binary32.div, Binary32.of_long,
    HEAD_MOVE_SPEED.
  pose proof (ulong_sub_range (ulong now) (lastGradualMoveTime (timers s)))
    as [H _].
  set (dt := ulong_sub (ulong now) (lastGradualMoveTime (timers s))) in *.
  pose proof (rounded_nonneg _ (inject_Z_nonneg dt H)) as H1.
  assert (H2 : (0 <= Binary32.rounded (Binary32.rounded (inject_Z dt) / 1000))%Q).
  { apply rounded_nonneg. apply Qle_shift_div_l; [reflexivity | lra]. }
  apply rounded_nonneg. lra.
Qed.

Lemma Rounded_maxMove_due (now : Z) (s : State) :
  gradual_due now s = true -> (10737418 # 67108864 <= Rounded.maxMove now s)%Q.
Proof.
  unfold gradual_due, GRADUAL_MOVE_INTERVAL. intro H. apply Z.leb_le in H.
  unfold Rounded.maxMove, Binary32.mul, Binary32.div, Binary32.of_long,
    HEAD_MOVE_SPEED.
  set (dt := ulong_sub (ulong now) (lastGradualMoveTime (timers s))) in *.
  assert (H1 : (Binary32.rounded 20 <= Binary32.rounded (inject_Z dt))%Q).
  { apply rounded_mono. change 20%Q with (inject_Z 20).
    rewrite <- Zle_Qle. exact H. }
  assert (H2 : (Binary32.rounded (Binary32.rounded 20 / 1000)
                <= Binary32.rounded (Binary32.rounded (inject_Z dt) / 1000))%Q).
  { apply rounded_mono. apply Qmult_le_r; [reflexivity | exact H1]. }
  assert (H3 : (Binary32.rounded (8 * Binary32.rounded (Binary32.rounded 20 / 1000))
                <= Binary32.rounded
                     (8 * Binary32.rounded (Binary32.rounded (inject_Z dt) / 1000)))%Q).
  { apply rounded_mono. lra. }
  apply Qle_trans with (2 := H3). vm_compute. discriminate.
Qed.

(** Rounding a value of the normal range raises it by at most one part in
    [2^24]. *)
Lemma rounded_relative_above (x b : Q) :
  Binary32.is_float b -> (Binary32.pow2 Binary32.emin <= b)%Q -> (b <= x)%Q ->
  (b <= Binary32.rounded x <= x * (1 + (1 # 16777216)))%Q
  /\ (x * (1 - (1 # 16777216)) <= Binary32.rounded x)%Q.
Proof.
  intros Fb Hb Hx.
  pose proof (pow2_pos Binary32.emin) as Pe.
  pose proof (rounded_ge x b Fb Hx) as G.
  assert (A : (Qabs x == x)%Q) by (apply Qabs_pos; lra).
  pose proof (rounded_error_relative x) as E.
  rewrite A in E. specialize (E ltac:(lra)).
  change (Binary32.pow2 (-24)) with (1 # 16777216)%Q in E.
  apply Qabs_Qle_condition in E.
  repeat split; lra.
Qed.

Lemma Rounded_maxMove_upper (now : Z) (s : State) :
  (Rounded.maxMove now s
   <= HEAD_MOVE_SPEED * elapsed_seconds now s * (1 + (1 # 4194304)))%Q
  /\ (HEAD_MOVE_SPEED * elapsed_seconds now s * (1 - (1 # 4194304))
      <= Rounded.maxMove now s)%Q.
Proof.
  unfold Rounded.maxMove, elapsed_seconds, Binary32.mul, Binary32.div,
    Binary32.of_long, HEAD_MOVE_SPEED.
  pose proof (ulong_sub_range (ulong now) (lastGradualMoveTime (timers s)))
    as [H _].
  set (dt := ulong_sub (ulong now) (lastGradualMoveTime (timers s))) in *.
  destruct (Z.eq_dec dt 0) as [Z0 | N0].
  - rewrite Z0. vm_compute. split; discriminate.
  - assert (D1 : (1 <= inject_Z dt)%Q).
    { change 1%Q with (inject_Z 1). rewrite <- Zle_Qle. lia. }
    assert (Pe : (Binary32.pow2 Binary32.emin <= 1 # 1024)%Q).
    { change (1 # 1024)%Q with (Binary32.pow2 (- 10)). apply pow2_le.
      discriminate. }
    assert (F1 : Binary32.is_float 1) by (apply (is_float_Z 1); reflexivity).
    assert (Fk : Binary32.is_float (1 # 1024)).
    { apply (is_float_scaled _ 1 (- 10)); [reflexivity | reflexivity |
        discriminate]. }
    assert (F8 : Binary32.is_float (8 # 1024)).
    { apply (is_float_scaled _ 1 (- 7)); [reflexivity | reflexivity |
        discriminate]. }
    destruct (rounded_relative_above (inject_Z dt) 1 F1 ltac:(lra) D1)
      as [[L1 U1] V1].
    set (y1 := Binary32.rounded (inject_Z dt)) in *.
    assert (D2 : (1 # 1024 <= y1 / 1000)%Q).
    { unfold Qdiv. change (/ 1000)%Q with (1 # 1000)%Q. lra. }
    destruct (rounded_relative_above (y1 / 1000) (1 # 1024) Fk Pe D2)
      as [[L2 U2] V2].
    set (y2 := Binary32.rounded (y1 / 1000)) in *.
    destruct (rounded_relative_above (8 * y2) (8 # 1024) F8 ltac:(lra) ltac:(lra))
      as [[L3 U3] V3].
    unfold Qdiv in *. change (/ 1000)%Q with (1 # 1000)%Q in *.
    set (d := inject_Z dt) in *.
    assert (U : (8 * y2 * (1 + (1 # 16777216))
                 <= 8 * (d * (1 # 1000)) * (1 + (1 # 4194304)))%Q).
    { apply Qle_trans with
        (8 * (d * (1 # 1000)) * ((1 + (1 # 16777216)) * (1 + (1 # 16777216))
                                 * (1 + (1 # 16777216))))%Q; [| lra].
      lra. }
    assert (V : (8 * (d * (1 # 1000)) * (1 - (1 # 4194304))
                 <= 8 * y2 * (1 - (1 # 16777216)))%Q).
    { apply Qle_trans with
        (8 * (d * (1 # 1000)) * ((1 - (1 # 16777216)) * (1 - (1 # 16777216))
                                 * (1 - (1 # 16777216))))%Q; [lra |].
      lra. }
    split; lra.
Qed.

(** [Rounded.graduallyMoveServos] is its three blocks in sequence. *)
Lemma Rounded_graduallyMoveServos_blocks (now : Z) (s : State) :
  Rounded.graduallyMoveServos now s =
  if gradual_due now s then
    let m := Rounded.maxMove now s in
    set_lastGradualMoveTime (ulong now)
      (Rounded.interpolate_axis AxisY m
         (Rounded.interpolate_axis AxisX m
            (Rounded.interpolate_axis Rotation m s)))
  else s.
Proof.
  unfold Rounded.graduallyMoveServos, gradual_due, Rounded.interpolate_axis,
    Rounded.maxMove.
  cbv beta zeta iota delta [current_of target_of set_current servo_of].
  reflexivity.
Qed.

Lemma Rounded_interpolate_axis_target (a b : Axis) (m : Q) (s : State) :
  target_of b (Rounded.interpolate_axis a m s) = target_of b s.
Proof.
  unfold Rounded.interpolate_axis. cbv zeta.
  destruct (Qneqb _ _); [| reflexivity]. destruct a, b; reflexivity.
Qed.

Lemma Rounded_interpolate_axis_current (a : Axis) (m : Q) (s : State) :
  current_of a (Rounded.interpolate_axis a m s) =
  if Qneqb (Rounded.moveTowards (current_of a s) (target_of a s) m)
       (current_of a s)
  then Rounded.moveTowards (current_of a s) (target_of a s) m
  else current_of a s.
Proof.
  unfold Rounded.interpolate_axis. cbv zeta.
  destruct (Qneqb _ _); [| reflexivity]. destruct a; reflexivity.
Qed.

Lemma Rounded_interpolate_axis_other (a b : Axis) (m : Q) (s : State) :
  a <> b -> current_of b (Rounded.interpolate_axis a m s) = current_of b s.
Proof.
  intro Hab. unfold Rounded.interpolate_axis. cbv zeta.
  destruct (Qneqb _ _); [| reflexivity].
  destruct a, b; try reflexivity; contradiction.
Qed.

Lemma Rounded_interpolate_axis_trace (a : Axis) (m : Q) (s : State) :
  trace (Rounded.interpolate_axis a m s) =
  trace s ++
  if Qneqb (Rounded.moveTowards (current_of a s) (target_of a s) m)
       (current_of a s)
  then [ServoWrite (servo_of a)
          (Rounded.round (Rounded.moveTowards (current_of a s) (target_of a s) m))]
  else [].
Proof.
  unfold Rounded.interpolate_axis. cbv zeta.
  destruct (Qneqb _ _); [| symmetry; apply app_nil_r].
  destruct a; reflexivity.
Qed.

Lemma Rounded_graduallyMoveServos_not_due (now : Z) (s : State) :
  gradual_due now s = false -> Rounded.graduallyMoveServos now s = s.
Proof.
  unfold gradual_due, Rounded.graduallyMoveServos. intros ->. reflexivity.
Qed.

(** What one call does to an axis: the target is left alone, and the
    current position becomes the result of [Rounded.moveTowards] when the
    call is due. *)
Lemma Rounded_graduallyMoveServos_axis (now : Z) (s : State) (a : Axis) :
  target_of a (Rounded.graduallyMoveServos now s) = target_of a s
  /\ (current_of a (Rounded.graduallyMoveServos now s) ==
      if gradual_due now s
      then Rounded.moveTowards (current_of a s) (target_of a s)
             (Rounded.maxMove now s)
      else current_of a s)%Q.
Proof.
  destruct (gradual_due now s) eqn:Hdue.
  - rewrite Rounded_graduallyMoveServos_blocks, Hdue. cbv zeta.
    rewrite set_lastGradualMoveTime_target, set_lastGradualMoveTime_current,
      !Rounded_interpolate_axis_target.
    split; [reflexivity |].
    set (m := Rounded.maxMove now s).
    assert (K : current_of a
                  (Rounded.interpolate_axis AxisY m
                     (Rounded.interpolate_axis AxisX m
                        (Rounded.interpolate_axis Rotation m s)))
                = current_of a (Rounded.interpolate_axis a m s)).
    { destruct a.
      - rewrite !(Rounded_interpolate_axis_other _ Rotation) by discriminate.
        reflexivity.
      - rewrite (Rounded_interpolate_axis_other AxisY AxisX) by discriminate.
        rewrite !Rounded_interpolate_axis_current,
          !Rounded_interpolate_axis_target.
        rewrite (Rounded_interpolate_axis_other Rotation AxisX) by discriminate.
        reflexivity.
      - rewrite !Rounded_interpolate_axis_current,
          !Rounded_interpolate_axis_target.
        rewrite (Rounded_interpolate_axis_other AxisX AxisY),
          (Rounded_interpolate_axis_other Rotation AxisY) by discriminate.
        reflexivity. }
    rewrite K, Rounded_interpolate_axis_current.
    destruct (Qneqb _ _) eqn:E; [reflexivity |].
    symmetry. apply Qneqb_false. exact E.
  - rewrite (Rounded_graduallyMoveServos_not_due now s Hdue).
    split; reflexivity.
Qed.

(** C1, as the code has it.  The float variables hold values of binary32
    and every float operation rounds.  In every call of
    [graduallyMoveServos], on each head axis, the new current position lies
    between the old one and the target, so it is no farther from the target
    than the old one was; the same holds of [moveTowards] itself at the
    step the call passes to it.  That step is at most [HEAD_MOVE_SPEED]
    times the seconds elapsed since the previous update, times
    [1 + 2^-22]; and on an axis inside its bound the distance covered is at
    most the step plus half a unit in the last place of the position,
    [2^-18] degree. *)
Theorem C1_interpolation_approaches_target (now : Z) (s : State) (a : Axis) :
  Binary32.is_float (current_of a s) -> Binary32.is_float (target_of a s) ->
  let s' := Rounded.graduallyMoveServos now s in
  ((Qabs (current_of a s' - target_of a s')
    <= Qabs (current_of a s - target_of a s))%Q
   /\ ((current_of a s <= target_of a s)%Q ->
       (current_of a s <= current_of a s' <= target_of a s)%Q)
   /\ ((target_of a s <= current_of a s)%Q ->
       (target_of a s <= current_of a s' <= current_of a s)%Q))
  /\ (Rounded.maxMove now s
      <= HEAD_MOVE_SPEED * elapsed_seconds now s * (1 + (1 # 4194304)))%Q
  /\ (within_bound a (current_of a s) -> within_bound a (target_of a s) ->
      (Qabs (current_of a s' - current_of a s)
       <= Rounded.maxMove now s + Binary32.half_ulp)%Q)
  /\ forall current target : Q,
       Binary32.is_float current -> Binary32.is_float target ->
       (Qabs (Rounded.moveTowards current target (Rounded.maxMove now s) - target)
        <= Qabs (current - target))%Q.
Proof.
  intros Fc Ft. cbv zeta.
  assert (Hmt : forall current target : Q,
             Binary32.is_float current -> Binary32.is_float target ->
             (Qabs (Rounded.moveTowards current target (Rounded.maxMove now s)
                    - target)
              <= Qabs (current - target))%Q).
  { intros c t Gc Gt.
    destruct (Rounded_moveTowards_between c t (Rounded.maxMove now s) Gc Gt
                (Rounded_maxMove_is_float now s) (Rounded_maxMove_nonneg now s))
      as [Up Down].
    destruct (Qlt_le_dec c t) as [L | L].
    - specialize (Up ltac:(lra)). rewrite !Qabs_neg by lra. lra.
    - specialize (Down L). rewrite !Qabs_pos by lra. lra. }
  refine ((fun K => conj (proj1 K) (conj (proj1 (proj2 K))
                      (conj (proj2 (proj2 K)) Hmt))) _).
  pose proof (Rounded_maxMove_is_float now s) as Fm.
  pose proof (Rounded_maxMove_nonneg now s) as Hm.
  destruct (Rounded_graduallyMoveServos_axis now s a) as [Et Ec].
  rewrite Et, Ec. clear Et Ec.
  split; [| split; [apply Rounded_maxMove_upper |]].
  - destruct (gradual_due now s).
    + destruct (Rounded_moveTowards_between _ _ _ Fc Ft Fm Hm) as [Up Down].
      split; [| split; [exact Up | exact Down]].
      destruct (Qlt_le_dec (current_of a s) (target_of a s)) as [L | L].
      * specialize (Up ltac:(lra)).
        rewrite !Qabs_neg by lra. lra.
      * specialize (Down L).
        rewrite !Qabs_pos by lra. lra.
    + split; [apply Qle_refl |]. split; intro; split; lra.
  - intros Bc Bt. apply within_bound_wide in Bc, Bt.
    destruct (gradual_due now s).
    + apply Rounded_moveTowards_moved; assumption.
    + setoid_replace (current_of a s - current_of a s)%Q with 0%Q by ring.
      pose proof half_ulp_value. change (Qabs 0) with 0%Q. lra.
Qed.

(** C1, as stated, fails on the board: with the X axis at 90 and its
    target at 100, an update 20 ms after the previous one moves the axis
    to 90.16000366..., farther than the 0.16 degree that [HEAD_MOVE_SPEED]
    allows in 20 ms. *)
Lemma C1_speed_bound_exceeded :
  let s := move_planned_on_board in
  let s' := Rounded.graduallyMoveServos 5020 s in
  Rounded.reachable SamplePlatform.sin SamplePlatform.PI s
  /\ (current_of AxisX s == 90)%Q /\ (target_of AxisX s == 100)%Q
  /\ (HEAD_MOVE_SPEED * elapsed_seconds 5020 s == 4 # 25)%Q
  /\ (current_of AxisX s' == 2954363 # 32768)%Q
  /\ ~ (Qabs (current_of AxisX s' - current_of AxisX s)
        <= HEAD_MOVE_SPEED * elapsed_seconds 5020 s)%Q.
Proof.
  cbv zeta. split.
  { apply (Rounded.reachable_step _ _ (Rounded.graduallyMoveServos 5000 initial) _
             (CallUpdateHeadMovement 5000 40 25 25)); [| reflexivity].
    apply (Rounded.reachable_step _ _ initial _ (CallGraduallyMoveServos 5000));
      [apply Rounded.reachable_initial | reflexivity]. }
  split; [vm_compute; reflexivity |].
  split; [vm_compute; reflexivity |].
  split; [vm_compute; reflexivity |].
  split; [vm_compute; reflexivity |].
  vm_compute. intro H. apply H. reflexivity.
Qed.

(** The scenario of one second at [HEAD_MOVE_SPEED], from 90 toward 115:
    the step is 8 and the axis stops at 98. *)
Example moveTowards_scenario_on_board :
  (Rounded.moveTowards 90 115
     (Binary32.mul HEAD_MOVE_SPEED (Binary32.div (Binary32.of_long 1000) 1000))
   == 98)%Q.
Proof. vm_compute. reflexivity. Qed.

(** The values of the two examples above are those of the Standard
    Library's specification of IEEE 754 arithmetic: the step after 20 ms
    and the position it leads to from 90, and the two jitters of 0.3 and
    3.5 degrees from 61. *)
Example rounded_agrees_with_SpecFloat :
  let spec := Binary32.spec_of_long in
  let step :=
    SFmul Binary32.prec Binary32.emax (spec 8)
      (SFdiv Binary32.prec Binary32.emax (spec 20) (spec 1000)) in
  let jitter (k : Z) :=
    SFdiv Binary32.prec Binary32.emax (spec k) (spec 10) in
  (Binary32.spec_value step
   == Binary32.mul 8 (Binary32.div (Binary32.of_long 20) 1000))%Q
  /\ (Binary32.spec_value (SFadd Binary32.prec Binary32.emax (spec 90%Z) step)
      == Binary32.add 90
           (Binary32.mul 8 (Binary32.div (Binary32.of_long 20) 1000)))%Q
  /\ (Binary32.spec_value
        (SFadd Binary32.prec Binary32.emax
           (SFadd Binary32.prec Binary32.emax (spec 61%Z) (jitter 3%Z))
           (jitter 35%Z))
      == Binary32.add
           (Binary32.add 61 (Binary32.div (Binary32.of_long 3) 10))
           (Binary32.div (Binary32.of_long 35) 10))%Q.
Proof. vm_compute. repeat split. Qed.

Example moveTowards_scenario :
  (moveTowards 90 115 (HEAD_MOVE_SPEED * (inject_Z 1000 / 1000)) == 98)%Q.
Proof. vm_compute. reflexivity. Qed.

(** ** Axis bounds *)

Lemma constrain_within (amt low high : Q) :
  (low <= high)%Q -> (low <= constrain amt low high <= high)%Q.
Proof.
  intro H. unfold constrain.
  destruct (Qltb amt low) eqn:E1; [lra |].
  destruct (Qltb high amt) eqn:E2; [lra |].
  apply Qltb_ge in E1, E2. lra.
Qed.

Lemma random2_range (raw howsmall howbig : Z) :
  howsmall < howbig -> howsmall <= random2 raw howsmall howbig < howbig.
Proof.
  intro H. unfold random2, random1.
  destruct (howbig <=? howsmall) eqn:E1; [lia |].
  destruct (howbig - howsmall =? 0) eqn:E2; [lia |].
  pose proof (Z.mod_pos_bound raw (howbig - howsmall)). lia.
Qed.

Lemma random2_within (raw low high : Z) :
  low <= high ->
  (inject_Z low <= inject_Z (random2 raw low (high + 1)) <= inject_Z high)%Q.
Proof.
  intro H. pose proof (random2_range raw low (high + 1)).
  rewrite <- !Zle_Qle. lia.
Qed.

(** The interpolated position stays in any interval that holds both the
    old position and the target. *)
Lemma moveTowards_within (current target maxMove low high : Q) :
  (0 <= maxMove)%Q ->
  (low <= current <= high)%Q -> (low <= target <= high)%Q ->
  (low <= moveTowards current target maxMove <= high)%Q.
Proof.
  intros Hm Hc Ht. unfold moveTowards.
  destruct (Qle_bool (fabs (current - target)) maxMove) eqn:Enear; [exact Ht |].
  assert (Hfar : (maxMove < Qabs (current - target))%Q).
  { destruct (Qlt_le_dec maxMove (Qabs (current - target))) as [L | L];
      [exact L |].
    rewrite <- fabs_Qabs in L. apply Qle_bool_iff in L. congruence. }
  destruct (Qltb current target) eqn:Edir.
  - apply Qltb_lt in Edir. rewrite Qabs_neg in Hfar by lra. lra.
  - apply Qltb_ge in Edir. rewrite Qabs_pos in Hfar by lra. lra.
Qed.

Lemma initial_in_bounds : head_in_bounds initial.
Proof.
  intro a. destruct a; cbn; unfold within_bound; cbn; repeat split; discriminate.
Qed.

Lemma updateHeadMovement_in_bounds (now rawR rawX rawY : Z) (s : State) :
  head_in_bounds s -> head_in_bounds (updateHeadMovement now rawR rawX rawY s).
Proof.
  intros H. unfold updateHeadMovement.
  destruct (HEAD_MOVE_DURATION <=? _); [| exact H].
  intro a. specialize (H a). destruct H as [_ Hc].
  destruct a; (split; [| exact Hc]); cbn.
  - apply (random2_within _ HEAD_ROTATION_MIN HEAD_ROTATION_MAX). discriminate.
  - apply (random2_within _ HEAD_X_MIN HEAD_X_MAX). discriminate.
  - apply (random2_within _ HEAD_Y_MIN HEAD_Y_MAX). discriminate.
Qed.

Lemma updateBreathing_in_bounds (sin : Q -> Q) (PI : Q) (currentTime : Z)
      (s : State) :
  head_in_bounds s -> head_in_bounds (updateBreathing sin PI currentTime s).
Proof.
  intros H. unfold updateBreathing.
  destruct (20 <=? _); [| exact H].
  intro a. pose proof (H a) as [Ht Hc].
  destruct a; (split; [| exact Hc]); try exact Ht.
  cbn. apply constrain_within. discriminate.
Qed.

Lemma graduallyMoveServos_in_bounds (now : Z) (s : State) :
  head_in_bounds s -> head_in_bounds (graduallyMoveServos now s).
Proof.
  intros H a. destruct (H a) as [Ht Hc].
  destruct (graduallyMoveServos_axis now s a) as [Et Ec].
  unfold within_bound in *. rewrite Et, Ec. split; [exact Ht |].
  destruct (gradual_due now s); [| exact Hc].
  apply moveTowards_within; auto using elapsed_seconds_nonneg.
Qed.

Lemma randomMovementsBetweenSentences_in_bounds
      (now rawR rawX rawY : Z) (s s' : State) :
  randomMovementsBetweenSentences now rawR rawX rawY s = Some s' ->
  head_in_bounds s -> head_in_bounds s'.
Proof.
  unfold randomMovementsBetweenSentences. intros E H.
  destruct (CString.get _ 0) as [first |]; [| discriminate].
  destruct (_ && _); injection E as <-; [| exact H].
  intro a. destruct (H a) as [_ Hc].
  destruct a; (split; [| exact Hc]); cbn;
    apply constrain_within; discriminate.
Qed.

(** The jaw operations leave the head variables and the phrase timer
    alone. *)
Lemma smoothJawMovement_beside_jaw (now targetPosition : Z) (s : State) :
  beside_jaw (smoothJawMovement now targetPosition s) = beside_jaw s.
Proof.
  unfold smoothJawMovement.
  destruct (_ <? _); [reflexivity |]. destruct (_ <=? _); reflexivity.
Qed.

Lemma letterTarget_beside_jaw (currentLetter : ascii) (s : State) :
  beside_jaw (snd (letterTarget currentLetter s)) = beside_jaw s.
Proof.
  unfold letterTarget. destruct (isSilentCharacter currentLetter); reflexivity.
Qed.

Lemma finishLetter_beside_jaw (currentTime nowClose : Z) (s s' : State) :
  finishLetter currentTime nowClose s = Some s' -> beside_jaw s' = beside_jaw s.
Proof.
  unfold finishLetter. intro E.
  destruct (CString.strlen _) as [len |]; [| discriminate].
  destruct (Z.of_nat len <=? _).
  - destruct (CString.set _ 0 CString.NUL) as [cleared |]; [| discriminate].
    injection E as <-.
    change (beside_jaw (set_lastLetterTime currentTime ?x)) with (beside_jaw x).
    rewrite smoothJawMovement_beside_jaw. reflexivity.
  - injection E as <-. reflexivity.
Qed.

Lemma updateJawMovement_beside_jaw (now nowSmooth nowClose : Z) (s s' : State) :
  updateJawMovement now nowSmooth nowClose s = Some s' ->
  beside_jaw s' = beside_jaw s.
Proof.
  unfold updateJawMovement. intro E.
  destruct (CString.get _ 0) as [first |]; [| discriminate].
  destruct (negb (CString.is_nul first)).
  - destruct (LETTER_DURATION <=? _); [| injection E as <-; reflexivity].
    destruct (CString.get _ _) as [currentLetter |]; [| discriminate].
    pose proof (letterTarget_beside_jaw currentLetter s) as Ht.
    destruct (letterTarget currentLetter s) as [target s1]. cbn [snd] in Ht.
    apply finishLetter_beside_jaw in E.
    rewrite E, smoothJawMovement_beside_jaw. exact Ht.
  - injection E as <-. apply smoothJawMovement_beside_jaw.
Qed.

Lemma updateJawMovement_head (now nowSmooth nowClose : Z) (s s' : State) :
  updateJawMovement now nowSmooth nowClose s = Some s' -> head s' = head s.
Proof.
  intro E. apply updateJawMovement_beside_jaw in E.
  exact (f_equal fst E).
Qed.

Lemma generateNewPhrase_head (now raw : Z) (s s' : State) :
  generateNewPhrase now raw s = Some s' -> head s' = head s.
Proof.
  unfold generateNewPhrase. intro E.
  repeat match type of E with
         | context [match ?e with _ => _ end] =>
             destruct e eqn:?; try discriminate
         end;
    injection E as <-; reflexivity.
Qed.

Lemma head_in_bounds_ext (s s' : State) :
  head s' = head s -> head_in_bounds s -> head_in_bounds s'.
Proof.
  intros E H a. specialize (H a).
  destruct a; unfold target_of, current_of in *; rewrite E; exact H.
Qed.

Lemma exec_in_bounds (sin : Q -> Q) (PI : Q) (op : Op) (s s' : State) :
  exec sin PI op s = Some s' -> head_in_bounds s -> head_in_bounds s'.
Proof.
  destruct op; cbn; intros E H.
  - eapply head_in_bounds_ext; [eapply updateJawMovement_head; exact E | exact H].
  - injection E as <-. apply updateHeadMovement_in_bounds, H.
  - eapply randomMovementsBetweenSentences_in_bounds; eassumption.
  - injection E as <-. apply updateBreathing_in_bounds, H.
  - injection E as <-. apply graduallyMoveServos_in_bounds, H.
  - eapply head_in_bounds_ext; [eapply generateNewPhrase_head; exact E | exact H].
Qed.

Lemma reachable_in_bounds (sin : Q -> Q) (PI : Q) (s : State) :
  reachable sin PI s -> head_in_bounds s.
Proof.
  induction 1 as [| s s' op _ IH E].
  - exact initial_in_bounds.
  - eapply exec_in_bounds; eassumption.
Qed.


(** C2.  From the neutral initial state on, after every operation of the
    scheduler each axis's target lies within the axis's [min, max] bound,
    and so does its current position; this holds in particular after
    [updateHeadMovement], [randomMovementsBetweenSentences],
    [updateBreathing] and [graduallyMoveServos]. *)
Theorem C2_axes_stay_in_bounds (sin : Q -> Q) (PI : Q) (s s' : State) (op : Op) :
  reachable sin PI s ->
  exec sin PI op s = Some s' ->
  forall a : Axis,
    within_bound a (target_of a s') /\ within_bound a (current_of a s').
Proof.
  intros Hs E.
  apply (reachable_in_bounds sin PI). eapply reachable_step; eassumption.
Qed.

(** ** Servo traffic of the interpolator *)

Lemma in_axis_write (now : Z) (s : State) (a : Axis) (sv : Servo) (v : Z) :
  In (ServoWrite sv v) (axis_write now s a) <->
  sv = servo_of a /\ Qneqb (interpolated now s a) (current_of a s) = true
  /\ v = round (interpolated now s a).
Proof.
  unfold axis_write.
  destruct (Qneqb (interpolated now s a) (current_of a s)); cbn.
  - split.
    + intros [E | []]. injection E as <- <-. auto.
    + intros (-> & _ & ->). left. reflexivity.
  - split; [intros [] | intros (_ & E & _); discriminate].
Qed.



(** ** Phrase selection *)

Lemma get_first (buffer : list ascii) :
  CString.get buffer 0 =
  match buffer with
  | [] => None
  | first :: _ => Some first
  end.
Proof. destruct buffer; reflexivity. Qed.

Lemma get_first_idle (s : State) (first : ascii) :
  CString.get (currentPhrase (speech s)) 0 = Some first ->
  idle s = CString.is_nul first.
Proof.
  rewrite get_first. unfold idle.
  destruct (currentPhrase (speech s)); [discriminate |].
  intro E. injection E as ->. reflexivity.
Qed.

(** The state changes only through the gate, and the change restarts the
    phrase timer. *)
Lemma generateNewPhrase_gate (now raw : Z) (s s' : State) :
  generateNewPhrase now raw s = Some s' ->
  s' = s
  \/ (idle s = true /\ phrase_due now s = true
      /\ lastPhraseTime (timers s') = ulong now
      /\ currentLetterIndex (speech s') = 0).
Proof.
  unfold generateNewPhrase, phrase_due. intro E.
  destruct (CString.get _ 0) as [first |] eqn:Efirst; [| discriminate].
  rewrite (get_first_idle s first Efirst).
  destruct (CString.is_nul first); cbn [andb] in *;
    [| injection E as <-; left; reflexivity].
  destruct (PHRASE_DURATION <=? _); [| injection E as <-; left; reflexivity].
  destruct (if _ <? 0 then None else _) as [source |]; [| discriminate].
  destruct (copyPhrase _ source) as [installed |]; [| discriminate].
  injection E as <-. right. repeat split.
Qed.

(** Only [generateNewPhrase] touches the phrase timer. *)
Lemma lastPhraseTime_frame (sin : Q -> Q) (PI : Q) (op : Op) (s s' : State) :
  exec sin PI op s = Some s' ->
  (forall now raw, op <> CallGenerateNewPhrase now raw) ->
  lastPhraseTime (timers s') = lastPhraseTime (timers s).
Proof.
  destruct op; cbn; intros E Hop.
  - apply updateJawMovement_beside_jaw in E. exact (f_equal snd E).
  - injection E as <-. unfold updateHeadMovement.
    destruct (_ <=? _); reflexivity.
  - unfold randomMovementsBetweenSentences in E.
    destruct (CString.get _ 0) as [first |]; [| discriminate].
    destruct (_ && _); injection E as <-; reflexivity.
  - injection E as <-. unfold updateBreathing.
    destruct (_ <=? _); reflexivity.
  - injection E as <-. rewrite graduallyMoveServos_blocks.
    destruct (gradual_due now s); [| reflexivity]. cbv zeta.
    unfold interpolate_axis. cbv zeta.
    repeat (destruct (Qneqb _ _); cbn); reflexivity.
  - exfalso. apply (Hop now raw). reflexivity.
Qed.

(** C4, as the code has it.  [generateNewPhrase] changes the state (selects
    and installs a phrase) only when no phrase is being spoken and
    [PHRASE_DURATION] milliseconds have elapsed, on the 32-bit clock, since
    [lastPhraseTime]; the selection stores its own reading of the clock in
    [lastPhraseTime], so the gap is counted from the moment the previous
    phrase was selected.  While a phrase is being spoken the call leaves
    the state as it is. *)
Theorem C4_phrase_selection_gate (now raw : Z) (s s' : State) :
  generateNewPhrase now raw s = Some s' ->
  (idle s = false -> s' = s)
  /\ (s' <> s ->
      idle s = true
      /\ PHRASE_DURATION <= ulong_sub (ulong now) (lastPhraseTime (timers s))
      /\ lastPhraseTime (timers s') = ulong now).
Proof.
  intro E. destruct (generateNewPhrase_gate now raw s s' E)
    as [-> | (Hidle & Hdue & Htime & _)].
  - split; [reflexivity | intro H; contradiction].
  - split; [intro H; congruence |].
    intros _. unfold phrase_due in Hdue. apply Z.leb_le in Hdue. auto.
Qed.

(** C4, as stated, fails: "HELLO THERE" is selected at 10000 ms and its
    last letter is consumed at 11100 ms; the next phrase is selected at
    20000 ms, 8900 ms after the previous one ended. *)
Lemma C4_selected_sooner_after_phrase_end :
  run SamplePlatform.sin SamplePlatform.PI
      (hello_there_selected ++ hello_there_letters) initial
    = Some hello_last_letter_due
  /\ idle hello_last_letter_due = false
  /\ exec SamplePlatform.sin SamplePlatform.PI hello_there_last_letter
       hello_last_letter_due
     = Some hello_ended
  /\ idle hello_ended = true
  /\ generateNewPhrase 20000 3 hello_ended = Some second_phrase_selected
  /\ idle second_phrase_selected = false
  /\ second_phrase_selected <> hello_ended
  /\ ulong_sub (ulong 20000) (ulong 11100) < PHRASE_DURATION.
Proof.
  split; [vm_compute; reflexivity |].
  split; [vm_compute; reflexivity |].
  split; [vm_compute; reflexivity |].
  split; [vm_compute; reflexivity |].
  split; [vm_compute; reflexivity |].
  split; [vm_compute; reflexivity |].
  split; [| vm_compute; reflexivity].
  intro E. apply (f_equal idle) in E. vm_compute in E. discriminate E.
Qed.

(** ** The jaw smoother *)

(** Boolean comparisons on [Z] in the hypotheses, as propositions. *)
Ltac reflect_Z :=
  repeat match goal with
         | H : (_ <? _) = true |- _ => apply Z.ltb_lt in H
         | H : (_ <? _) = false |- _ => apply Z.ltb_ge in H
         | H : (_ <=? _) = true |- _ => apply Z.leb_le in H
         | H : (_ <=? _) = false |- _ => apply Z.leb_gt in H
         end.

Lemma abs_Zabs (x : Z) : abs x = Z.abs x.
Proof. unfold abs. destruct (0 <? x) eqn:E; reflect_Z; lia. Qed.

(** Where one call leaves the jaw. *)
Lemma smoothJawMovement_jaw (now target : Z) (s : State) :
  jaw (smoothJawMovement now target s) =
  if JAW_SMOOTHING_STEP * 2 <? Z.abs (jaw s - target) then target
  else if jaw_smooth_due now s then
    if jaw s <? target then Z.min (jaw s + JAW_SMOOTHING_STEP) target
    else if target <? jaw s then Z.max (jaw s - JAW_SMOOTHING_STEP) target
    else jaw s
  else jaw s.
Proof.
  unfold smoothJawMovement, jaw_smooth_due, jaw, servo_read.
  rewrite abs_Zabs.
  destruct (JAW_SMOOTHING_STEP * 2 <? _); [reflexivity |].
  destruct (JAW_SMOOTH_INTERVAL <=? _); [| reflexivity].
  cbn [servos set_lastJawSmoothTime with_timers servo_write Servo_eqb].
  destruct (servos s skull_jaw_servo <? target) eqn:E1.
  - destruct (target <? servos s skull_jaw_servo + JAW_SMOOTHING_STEP) eqn:E2;
      reflect_Z; lia.
  - destruct (target <? servos s skull_jaw_servo) eqn:E2; [| reflexivity].
    destruct (servos s skull_jaw_servo - JAW_SMOOTHING_STEP <? target) eqn:E3;
      reflect_Z; lia.
Qed.

Lemma smoothJawMovement_on_the_way (now target : Z) (s : State) :
  on_the_way (jaw s) target (jaw (smoothJawMovement now target s)).
Proof.
  rewrite smoothJawMovement_jaw. unfold on_the_way, JAW_SMOOTHING_STEP.
  destruct (5 * 2 <? _) eqn:E0; [lia |].
  destruct (jaw_smooth_due now s); [| lia].
  destruct (jaw s <? target) eqn:E1; [reflect_Z; lia |].
  destruct (target <? jaw s) eqn:E2; reflect_Z; lia.
Qed.

Lemma on_the_way_trans (start target x y : Z) :
  on_the_way start target x -> on_the_way x target y ->
  on_the_way start target y.
Proof. unfold on_the_way. lia. Qed.

(** The distance left after a call: none after a snap, one step less
    after a step. *)
Lemma smoothJawMovement_distance (now target : Z) (s : State) :
  let d := Z.abs (jaw s - target) in
  let d' := Z.abs (jaw (smoothJawMovement now target s) - target) in
  d' <= d
  /\ (jaw_smooth_due now s = true ->
      d' <= Z.max 0 (d - JAW_SMOOTHING_STEP)
      /\ d' <= JAW_SMOOTHING_STEP).
Proof.
  cbv zeta. rewrite smoothJawMovement_jaw. unfold JAW_SMOOTHING_STEP.
  destruct (5 * 2 <? _) eqn:E0.
  - split; [lia | intros _; lia].
  - destruct (jaw_smooth_due now s).
    + destruct (jaw s <? target) eqn:E1;
        [reflect_Z; split; [lia | intros _; lia] |].
      destruct (target <? jaw s) eqn:E2; reflect_Z;
        (split; [lia | intros _; lia]).
    + split; [lia | discriminate].
Qed.

Lemma smooth_calls_on_the_way (nows : list Z) (target : Z) (s : State) :
  on_the_way (jaw s) target (jaw (smooth_calls nows target s)).
Proof.
  revert s. induction nows as [| now rest IH]; intro s; cbn.
  - unfold on_the_way. lia.
  - eapply on_the_way_trans; [apply smoothJawMovement_on_the_way | apply IH].
Qed.

Lemma smooth_calls_stays (nows : list Z) (target : Z) (s : State) :
  jaw s = target -> jaw (smooth_calls nows target s) = target.
Proof.
  intro H. pose proof (smooth_calls_on_the_way nows target s) as W.
  unfold on_the_way in W. lia.
Qed.

(** C5.  With the cadence elapsed at each call, two calls of
    [smoothJawMovement] with one target bring the jaw exactly onto it,
    whatever the jaw's position and the target, and it stays there through
    any further calls; after any number of calls the jaw lies on the way
    from its first position to the target, so it has never passed the
    target, let alone by more than a step. *)
Theorem C5_jaw_smoothing_converges (target : Z) (nows : list Z) (s : State) :
  (all_due nows target s = true -> (2 <= List.length nows)%nat ->
   jaw (smooth_calls nows target s) = target)
  /\ (forall k : nat,
        on_the_way (jaw s) target (jaw (smooth_calls (firstn k nows) target s))).
Proof.
  split; [| intro k; apply smooth_calls_on_the_way].
  destruct nows as [| now1 [| now2 rest]]; cbn [List.length]; try lia.
  cbn [all_due smooth_calls]. intros Hdue _.
  apply andb_prop in Hdue. destruct Hdue as [H1 Hdue].
  apply andb_prop in Hdue. destruct Hdue as [H2 _].
  apply smooth_calls_stays.
  pose proof (smoothJawMovement_distance now1 target s) as [_ D1].
  pose proof (smoothJawMovement_distance now2 target
                (smoothJawMovement now1 target s)) as [_ D2].
  cbv zeta in *. specialize (D1 H1). specialize (D2 H2).
  unfold JAW_SMOOTHING_STEP in *. lia.
Qed.

(** C6.  One call of [smoothJawMovement]: when the jaw is more than twice
    [JAW_SMOOTHING_STEP] away from the target it is set onto the target in
    that call; otherwise, when the cadence has elapsed, it moves toward the
    target by one [JAW_SMOOTHING_STEP], stopping at the target if the step
    would pass it; otherwise it stays. *)
Theorem C6_jaw_snap_or_step (now target : Z) (s : State) :
  let s' := smoothJawMovement now target s in
  (2 * JAW_SMOOTHING_STEP < Z.abs (jaw s - target) -> jaw s' = target)
  /\ (Z.abs (jaw s - target) <= 2 * JAW_SMOOTHING_STEP ->
      jaw_smooth_due now s = true ->
      (jaw s < target -> jaw s' = Z.min (jaw s + JAW_SMOOTHING_STEP) target)
      /\ (target < jaw s -> jaw s' = Z.max (jaw s - JAW_SMOOTHING_STEP) target)
      /\ (jaw s = target -> jaw s' = target))
  /\ (Z.abs (jaw s - target) <= 2 * JAW_SMOOTHING_STEP ->
      jaw_smooth_due now s = false -> s' = s).
Proof.
  cbv zeta. rewrite smoothJawMovement_jaw.
  split; [| split].
  - intro H. apply Z.ltb_lt in H. rewrite Z.mul_comm in H. rewrite H.
    reflexivity.
  - intros H ->. apply Z.ltb_ge in H. rewrite Z.mul_comm in H. rewrite H.
    repeat split.
    + intro L. apply Z.ltb_lt in L. rewrite L. reflexivity.
    + intro L. assert (N : (jaw s <? target) = false) by (apply Z.ltb_ge; lia).
      apply Z.ltb_lt in L. rewrite N, L. reflexivity.
    + intros ->. rewrite Z.ltb_irrefl. reflexivity.
  - intros H Hdue. unfold smoothJawMovement. rewrite abs_Zabs.
    apply Z.ltb_ge in H. rewrite Z.mul_comm in H.
    fold (jaw s). rewrite H.
    unfold jaw_smooth_due in Hdue. rewrite Hdue. reflexivity.
Qed.

(** ** Letters and jaw targets *)

(** C7.  [getJawPositionForLetter] is a function on all characters: every
    character has an aperture in [0, 50], and a character that is not a
    letter gets 0, the value that [map] sends to the closed jaw. *)
Theorem C7_letter_aperture_total (letter : ascii) :
  0 <= getJawPositionForLetter letter <= 50
  /\ (is_alphabetic letter = false ->
      getJawPositionForLetter letter = 0
      /\ map (getJawPositionForLetter letter) 0 50 JAW_CLOSED JAW_OPEN_MAX
         = JAW_CLOSED).
Proof.
  destruct letter as [[] [] [] [] [] [] [] []];
    (split;
     [ vm_compute; split; discriminate
     | vm_compute; intro H; try discriminate H; split; reflexivity ]).
Qed.

Lemma letter_due_first (now : Z) (s : State) (letter : ascii) :
  letter_due now s = true ->
  CString.get (currentPhrase (speech s)) (currentLetterIndex (speech s))
    = Some letter ->
  exists first : ascii,
    CString.get (currentPhrase (speech s)) 0 = Some first
    /\ CString.is_nul first = false
    /\ (LETTER_DURATION <=? ulong_sub (ulong now) (lastLetterTime (timers s)))
       = true.
Proof.
  unfold letter_due, idle, CString.get. intros Hdue Hget.
  apply andb_prop in Hdue. destruct Hdue as [Hidle Hdur].
  destruct (currentPhrase (speech s)) as [| first rest].
  - destruct (_ <? 0); [discriminate |].
    destruct (Z.to_nat _); discriminate.
  - exists first. apply negb_true_iff in Hidle. auto.
Qed.

(** C8.  When [updateJawMovement] consumes a silent character (space,
    period, comma, exclamation mark), it pauses and then calls
    [smoothJawMovement] with the target [JAW_CLOSED].  In "HELLO THERE" the
    character at index 5 is the space: its target is the closed value,
    unlike the targets of its neighbours 'O' and 'T'. *)
Theorem C8_silent_letter_closes_jaw
        (now nowSmooth nowClose : Z) (s : State) (letter : ascii) :
  letter_due now s = true ->
  CString.get (currentPhrase (speech s)) (currentLetterIndex (speech s))
    = Some letter ->
  isSilentCharacter letter = true ->
  (fst (letterTarget letter s) = JAW_CLOSED
   /\ updateJawMovement now nowSmooth nowClose s =
      finishLetter (ulong now) nowClose
        (smoothJawMovement nowSmooth JAW_CLOSED (delay JAW_CLOSE_DURATION s)))
  /\ (nth_error (list_ascii_of_string "HELLO THERE") 4 = Some "O"%char
      /\ nth_error (list_ascii_of_string "HELLO THERE") 5 = Some " "%char
      /\ nth_error (list_ascii_of_string "HELLO THERE") 6 = Some "T"%char
      /\ fst (letterTarget "O" s) = 70
      /\ fst (letterTarget " " s) = JAW_CLOSED
      /\ fst (letterTarget "T" s) = 93
      /\ JAW_CLOSED <> 70 /\ JAW_CLOSED <> 93).
Proof.
  intros Hdue Hget Hsilent.
  destruct (letter_due_first now s letter Hdue Hget) as (first & Hfirst & Hnul & Hdur).
  split; [split |].
  - unfold letterTarget. rewrite Hsilent. reflexivity.
  - unfold updateJawMovement.
    rewrite Hfirst, Hnul. cbn [negb]. rewrite Hdur, Hget.
    unfold letterTarget. rewrite Hsilent. reflexivity.
  - repeat split; discriminate.
Qed.

(** The same scenario on the running sketch: the commands of the calls
    that consume 'O', the space and 'T'. *)
Example hello_there_jaw_commands :
  option_map (emitted initial)
    (run SamplePlatform.sin SamplePlatform.PI
       (hello_there_selected ++ hello_there_letters) initial)
  = Some
      [ SerialPrint (list_ascii_of_string "New phrase: ");
        SerialPrintln (list_ascii_of_string "HELLO THERE");
        ServoWrite skull_jaw_servo 93;
        ServoWrite skull_jaw_servo 70;
        ServoWrite skull_jaw_servo 93;
        ServoWrite skull_jaw_servo 93;
        ServoWrite skull_jaw_servo 70;
        Delay JAW_CLOSE_DURATION;
        ServoWrite skull_jaw_servo JAW_CLOSED;
        ServoWrite skull_jaw_servo 93;
        ServoWrite skull_jaw_servo 93;
        ServoWrite skull_jaw_servo 70;
        ServoWrite skull_jaw_servo 81 ].
Proof. vm_compute. reflexivity. Qed.

(** ** The phrase buffer *)

Lemma set_some (buffer : list ascii) (i : nat) (c : ascii) :
  (i < List.length buffer)%nat ->
  exists out : list ascii,
    CString.set buffer i c = Some out
    /\ List.length out = List.length buffer
    /\ nth_error out i = Some c
    /\ forall j : nat, j <> i -> nth_error out j = nth_error buffer j.
Proof.
  revert i. induction buffer as [| b rest IH]; intros i Hi; cbn in Hi; [lia |].
  destruct i as [| i'].
  - exists (c :: rest). cbn. repeat split.
    intros [| j] Hj; [congruence | reflexivity].
  - destruct (IH i') as (out & E & Hlen & Hi' & Hother); [lia |].
    exists (b :: out). cbn. rewrite E. cbn. repeat split; auto.
    intros [| j] Hj; [reflexivity |]. cbn. apply Hother. congruence.
Qed.

Lemma strncpy_some (n : nat) (dest src : list ascii) :
  (n <= List.length dest)%nat ->
  exists out : list ascii,
    CString.strncpy dest src n = Some out
    /\ List.length out = List.length dest.
Proof.
  revert dest src. induction n as [| n IH]; intros dest src Hn.
  - exists dest. split; reflexivity.
  - destruct dest as [| d dest']; cbn in Hn; [lia |].
    assert (Hn' : (n <= List.length dest')%nat) by lia.
    cbn. destruct src as [| c src'].
    + destruct (IH dest' [] Hn') as (out & E & Hlen). rewrite E.
      exists (CString.NUL :: out). cbn. auto.
    + destruct (CString.is_nul c).
      * destruct (IH dest' [] Hn') as (out & E & Hlen). rewrite E.
        exists (CString.NUL :: out). cbn. auto.
      * destruct (IH dest' src' Hn') as (out & E & Hlen). rewrite E.
        exists (c :: out). cbn. auto.
Qed.

(** The text left by [strncpy] and the terminator written at index [n]:
    the first [n] characters of the source text. *)
Lemma copy_text (n : nat) (dest src out out' : list ascii) :
  CString.strncpy dest src n = Some out ->
  CString.set out n CString.NUL = Some out' ->
  CString.text out' = firstn n (CString.text src).
Proof.
  revert dest src out out'.
  induction n as [| n IH]; intros dest src out out' Hcopy Hset.
  - cbn in Hcopy. injection Hcopy as <-.
    destruct dest; cbn in Hset; [discriminate |].
    injection Hset as <-. reflexivity.
  - destruct dest as [| d dest']; cbn in Hcopy; [discriminate |].
    assert (Hpad : forall o o',
               CString.set (CString.NUL :: o) (S n) CString.NUL = Some o' ->
               CString.text o' = []).
    { intros o o' E. cbn in E.
      destruct (CString.set o n CString.NUL); [| discriminate].
      injection E as <-. reflexivity. }
    destruct src as [| c src'].
    + destruct (CString.strncpy dest' [] n) as [o |]; [| discriminate].
      injection Hcopy as <-. rewrite (Hpad _ _ Hset). reflexivity.
    + cbn [CString.text]. destruct (CString.is_nul c) eqn:Ec.
      * destruct (CString.strncpy dest' [] n) as [o |]; [| discriminate].
        injection Hcopy as <-. rewrite (Hpad _ _ Hset). reflexivity.
      * destruct (CString.strncpy dest' src' n) as [o |] eqn:Eo;
          [| discriminate].
        injection Hcopy as <-. cbn in Hset.
        destruct (CString.set o n CString.NUL) as [o' |] eqn:Eo';
          [| discriminate].
        injection Hset as <-. cbn. rewrite Ec.
        rewrite (IH _ _ _ _ Eo Eo'). reflexivity.
Qed.

(** A NUL at index [k] bounds the length of the string. *)
Lemma strlen_terminated (buffer : list ascii) (k : nat) :
  nth_error buffer k = Some CString.NUL ->
  exists n : nat, CString.strlen buffer = Some n /\ (n <= k)%nat.
Proof.
  revert k. induction buffer as [| c rest IH]; intros k Hk.
  - destruct k; discriminate.
  - cbn. destruct (CString.is_nul c) eqn:Ec.
    + exists 0%nat. split; [reflexivity | lia].
    + destruct k as [| k'].
      * cbn in Hk. injection Hk as ->. discriminate.
      * destruct (IH k' Hk) as (n & E & Hn). rewrite E.
        exists (S n). split; [reflexivity | lia].
Qed.

(** Inside the string every character is there and is not NUL. *)
Lemma strlen_inside (buffer : list ascii) (n i : nat) :
  CString.strlen buffer = Some n -> (i < n)%nat ->
  exists c : ascii, nth_error buffer i = Some c /\ CString.is_nul c = false.
Proof.
  revert n i. induction buffer as [| b rest IH]; intros n i Hn Hi;
    cbn in Hn; [discriminate |].
  destruct (CString.is_nul b) eqn:Eb.
  - injection Hn as <-. lia.
  - destruct (CString.strlen rest) as [m |] eqn:Em; [| discriminate].
    injection Hn as <-. destruct i as [| i'].
    + exists b. auto.
    + apply (IH m i' eq_refl). lia.
Qed.

Lemma copyPhrase_some (buffer : list ascii) (source : string) :
  List.length buffer = sizeof_currentPhrase ->
  exists installed : list ascii,
    copyPhrase buffer source = Some installed
    /\ List.length installed = sizeof_currentPhrase
    /\ nth_error installed (sizeof_currentPhrase - 1) = Some CString.NUL
    /\ CString.text installed =
       firstn (sizeof_currentPhrase - 1)
         (CString.text (list_ascii_of_string source)).
Proof.
  intro Hlen. unfold copyPhrase.
  destruct (strncpy_some (sizeof_currentPhrase - 1) buffer
              (list_ascii_of_string source)) as (copied & Ecopy & Hcopied).
  { rewrite Hlen. unfold sizeof_currentPhrase. lia. }
  rewrite Ecopy.
  destruct (set_some copied (sizeof_currentPhrase - 1) CString.NUL)
    as (installed & Eset & Hinstalled & Hnul & _).
  { rewrite Hcopied, Hlen. unfold sizeof_currentPhrase. lia. }
  exists installed. split; [exact Eset |].
  split; [congruence |]. split; [exact Hnul |].
  eapply copy_text; eassumption.
Qed.

Lemma terminated_at_end (buffer : list ascii) :
  List.length buffer = sizeof_currentPhrase ->
  nth_error buffer (sizeof_currentPhrase - 1) = Some CString.NUL ->
  well_terminated buffer.
Proof.
  intros Hlen Hnul. split; [exact Hlen |].
  apply strlen_terminated. exact Hnul.
Qed.

Lemma random1_numPhrases (raw : Z) :
  exists chosen : string,
    (if random1 raw numPhrases <? 0 then None
     else nth_error phrases (Z.to_nat (random1 raw numPhrases))) = Some chosen
    /\ In chosen phrases.
Proof.
  assert (H : 0 <= random1 raw numPhrases < numPhrases).
  { unfold random1. change numPhrases with 10. cbn.
    apply Z.mod_pos_bound. reflexivity. }
  destruct (random1 raw numPhrases <? 0) eqn:E; reflect_Z; [lia |].
  destruct (nth_error phrases (Z.to_nat (random1 raw numPhrases)))
    as [chosen |] eqn:En.
  - exists chosen. split; [reflexivity |]. eapply nth_error_In. exact En.
  - apply nth_error_None in En. unfold numPhrases in *. lia.
Qed.

(** C9.  The copy made by [generateNewPhrase] stays inside the buffer and
    leaves it holding a NUL-terminated string of at most
    [sizeof(currentPhrase) - 1] characters, the source text cut to that
    length, whatever the length of the source; and whenever
    [generateNewPhrase] selects, the buffer afterwards is that copy of a
    phrase of the catalog. *)
Theorem C9_phrase_copy_terminated
        (source : string) (now raw : Z) (s : State) :
  List.length (currentPhrase (speech s)) = sizeof_currentPhrase ->
  (exists installed : list ascii,
     copyPhrase (currentPhrase (speech s)) source = Some installed
     /\ well_terminated installed
     /\ CString.text installed =
        firstn (sizeof_currentPhrase - 1)
          (CString.text (list_ascii_of_string source)))
  /\ (idle s = true -> phrase_due now s = true ->
      exists (s' : State) (chosen : string),
        generateNewPhrase now raw s = Some s'
        /\ In chosen phrases
        /\ copyPhrase (currentPhrase (speech s)) chosen
           = Some (currentPhrase (speech s'))
        /\ well_terminated (currentPhrase (speech s'))).
Proof.
  intro Hlen. split.
  - destruct (copyPhrase_some _ source Hlen) as (installed & E & Hl & Hn & Ht).
    exists installed. auto using terminated_at_end.
  - intros Hidle Hdue. unfold generateNewPhrase.
    unfold idle in Hidle. rewrite get_first.
    destruct (currentPhrase (speech s)) as [| first rest] eqn:Ebuf;
      [discriminate |].
    rewrite Hidle. unfold phrase_due in Hdue. rewrite Hdue. cbn [andb].
    destruct (random1_numPhrases raw) as (chosen & Echosen & Hin).
    rewrite Echosen.
    destruct (copyPhrase_some (first :: rest) chosen Hlen)
      as (installed & E & Hl & Hn & _).
    rewrite E. eexists. exists chosen.
    split; [reflexivity |]. split; [exact Hin |].
    split; [exact E |]. apply terminated_at_end; assumption.
Qed.

(** ** The letter index *)

Ltac simpl_speech :=
  cbn [speech currentPhrase currentLetterIndex set_currentLetterIndex
       set_currentPhrase with_speech set_lastLetterTime set_lastPhraseTime
       with_timers Serial_print Serial_println emit].

Lemma speech_well_formed_ext (s s' : State) :
  speech s' = speech s -> speech_well_formed s -> speech_well_formed s'.
Proof.
  unfold speech_well_formed, phrase_invariant, index_in_phrase, idle.
  intros ->. auto.
Qed.

Lemma smoothJawMovement_speech (now targetPosition : Z) (s : State) :
  speech (smoothJawMovement now targetPosition s) = speech s.
Proof.
  unfold smoothJawMovement.
  destruct (_ <? _); [reflexivity |]. destruct (_ <=? _); reflexivity.
Qed.

Lemma letterTarget_speech (currentLetter : ascii) (s : State) :
  speech (snd (letterTarget currentLetter s)) = speech s.
Proof.
  unfold letterTarget. destruct (isSilentCharacter currentLetter); reflexivity.
Qed.

Lemma initial_well_formed : speech_well_formed initial.
Proof.
  repeat split. left. reflexivity.
Qed.

(** Inside a well-formed phrase the letter under the index is there and is
    not NUL. *)
Lemma letter_under_index (s : State) :
  speech_well_formed s -> idle s = false ->
  exists (letter : ascii) (n : nat),
    CString.get (currentPhrase (speech s)) (currentLetterIndex (speech s))
      = Some letter
    /\ CString.is_nul letter = false
    /\ CString.strlen (currentPhrase (speech s)) = Some n
    /\ 0 <= currentLetterIndex (speech s) < Z.of_nat n
    /\ (n <= sizeof_currentPhrase - 1)%nat.
Proof.
  intros (Hlen & Hnul & [Hidle | (n & Hn & Hi)]) Hspeaking; [congruence |].
  destruct (strlen_inside _ n (Z.to_nat (currentLetterIndex (speech s))) Hn)
    as (letter & Hget & Hletter); [lia |].
  destruct (strlen_terminated _ _ Hnul) as (m & Hm & Hbound).
  exists letter, n. unfold CString.get.
  destruct (currentLetterIndex (speech s) <? 0) eqn:E; reflect_Z; [lia |].
  repeat split; auto; try lia. congruence.
Qed.

Lemma first_of_well_formed (s : State) :
  speech_well_formed s ->
  exists first : ascii,
    CString.get (currentPhrase (speech s)) 0 = Some first
    /\ idle s = CString.is_nul first.
Proof.
  intros (Hlen & _). rewrite get_first. unfold idle.
  destruct (currentPhrase (speech s)) as [| first rest]; [discriminate |].
  exists first. auto.
Qed.

(** The end of [updateJawMovement]: the index advances inside the phrase,
    or the phrase is cleared. *)
Lemma finishLetter_well_formed (currentTime nowClose : Z) (s : State) (n : nat) :
  List.length (currentPhrase (speech s)) = sizeof_currentPhrase ->
  nth_error (currentPhrase (speech s)) (sizeof_currentPhrase - 1)
    = Some CString.NUL ->
  CString.strlen (currentPhrase (speech s)) = Some n ->
  0 <= currentLetterIndex (speech s) < Z.of_nat n ->
  exists s' : State,
    finishLetter currentTime nowClose s = Some s' /\ speech_well_formed s'.
Proof.
  intros Hlen Hnul Hn Hi. unfold finishLetter.
  cbn [speech set_currentLetterIndex with_speech currentPhrase
       currentLetterIndex].
  rewrite Hn.
  destruct (Z.of_nat n <=? currentLetterIndex (speech s) + 1) eqn:Eend;
    reflect_Z.
  - destruct (set_some (currentPhrase (speech s)) 0 CString.NUL)
      as (cleared & Eset & Hcleared & Hzero & Hother).
    { rewrite Hlen. unfold sizeof_currentPhrase. lia. }
    rewrite Eset. eexists. split; [reflexivity |].
    eapply speech_well_formed_ext.
    { cbn [speech set_lastLetterTime with_timers].
      apply smoothJawMovement_speech. }
    unfold speech_well_formed, phrase_invariant, idle. simpl_speech.
    split; [congruence |]. split.
    + rewrite Hother; [exact Hnul | discriminate].
    + left. destruct cleared; [discriminate |].
      cbn in Hzero. injection Hzero as ->. reflexivity.
  - eexists. split; [reflexivity |].
    unfold speech_well_formed, phrase_invariant, index_in_phrase.
    simpl_speech.
    split; [exact Hlen |]. split; [exact Hnul |].
    right. exists n. split; [exact Hn | lia].
Qed.

Lemma updateJawMovement_well_formed (now nowSmooth nowClose : Z) (s : State) :
  speech_well_formed s ->
  exists s' : State,
    updateJawMovement now nowSmooth nowClose s = Some s'
    /\ speech_well_formed s'.
Proof.
  intro Hs. unfold updateJawMovement.
  destruct (first_of_well_formed s Hs) as (first & Hfirst & Hidle).
  rewrite Hfirst. destruct (CString.is_nul first) eqn:Efirst; cbn [negb].
  - eexists. split; [reflexivity |].
    eapply speech_well_formed_ext; [apply smoothJawMovement_speech | exact Hs].
  - destruct (LETTER_DURATION <=? _); [| exists s; auto].
    destruct (letter_under_index s Hs Hidle)
      as (letter & n & Hget & _ & Hn & Hi & _).
    rewrite Hget.
    pose proof (letterTarget_speech letter s) as Ht.
    destruct (letterTarget letter s) as [target s1]. cbn [snd] in Ht.
    destruct Hs as (Hlen & Hnul & _).
    apply (finishLetter_well_formed _ _ _ n);
      rewrite smoothJawMovement_speech, Ht; assumption.
Qed.

Lemma generateNewPhrase_well_formed (now raw : Z) (s : State) :
  speech_well_formed s ->
  exists s' : State,
    generateNewPhrase now raw s = Some s' /\ speech_well_formed s'.
Proof.
  intro Hs. unfold generateNewPhrase.
  destruct (first_of_well_formed s Hs) as (first & Hfirst & _).
  rewrite Hfirst.
  destruct (CString.is_nul first && _); [| exists s; auto].
  destruct (random1_numPhrases raw) as (chosen & Echosen & _).
  rewrite Echosen.
  destruct Hs as (Hlen & _).
  destruct (copyPhrase_some _ chosen Hlen) as (installed & E & Hl & Hn & _).
  rewrite E. eexists. split; [reflexivity |].
  unfold speech_well_formed, phrase_invariant, index_in_phrase, idle.
  simpl_speech.
  split; [exact Hl |]. split; [exact Hn |].
  destruct (strlen_terminated _ _ Hn) as (n & En & _).
  destruct installed as [| c rest]; [discriminate |].
  cbn [CString.strlen] in En.
  destruct (CString.is_nul c) eqn:Ec; [left; reflexivity |].
  right. destruct (CString.strlen rest) as [m |] eqn:Em; [| discriminate].
  exists (S m). cbn [CString.strlen]. rewrite Ec, Em.
  split; [reflexivity | lia].
Qed.

Lemma exec_well_formed (sin : Q -> Q) (PI : Q) (op : Op) (s : State) :
  speech_well_formed s ->
  exists s' : State, exec sin PI op s = Some s' /\ speech_well_formed s'.
Proof.
  intro Hs. destruct op; cbn.
  - apply updateJawMovement_well_formed, Hs.
  - eexists. split; [reflexivity |].
    eapply speech_well_formed_ext; [| exact Hs].
    unfold updateHeadMovement. destruct (_ <=? _); reflexivity.
  - unfold randomMovementsBetweenSentences.
    destruct (first_of_well_formed s Hs) as (first & Hfirst & _).
    rewrite Hfirst. destruct (_ && _); eexists; (split; [reflexivity |]);
      [eapply speech_well_formed_ext; [reflexivity | exact Hs] | exact Hs].
  - eexists. split; [reflexivity |].
    eapply speech_well_formed_ext; [| exact Hs].
    unfold updateBreathing. destruct (_ <=? _); reflexivity.
  - eexists. split; [reflexivity |].
    eapply speech_well_formed_ext; [| exact Hs].
    rewrite graduallyMoveServos_blocks.
    destruct (gradual_due now s); [| reflexivity]. cbv zeta.
    unfold interpolate_axis. cbv zeta.
    repeat (destruct (Qneqb _ _); cbn); reflexivity.
  - apply generateNewPhrase_well_formed, Hs.
Qed.

Lemma reachable_well_formed (sin : Q -> Q) (PI : Q) (s : State) :
  reachable sin PI s -> speech_well_formed s.
Proof.
  induction 1 as [| s s' op _ IH E].
  - exact initial_well_formed.
  - destruct (exec_well_formed sin PI op s IH) as (s'' & E' & Hs'').
    congruence.
Qed.

(** C10.  In every state the sketch can reach, the phrase is empty or the
    letter index lies in [0, strlen(currentPhrase)); every operation of the
    scheduler runs to completion from such a state and re-establishes the
    property; and whenever a phrase is being spoken, the read
    [currentPhrase[currentLetterIndex]] of [updateJawMovement] is inside
    the array and yields a character that is not NUL. *)
Theorem C10_letter_index_in_bounds (sin : Q -> Q) (PI : Q) (s : State) :
  reachable sin PI s ->
  phrase_invariant s
  /\ (forall op : Op,
        exists s' : State, exec sin PI op s = Some s' /\ phrase_invariant s')
  /\ (idle s = false ->
      exists letter : ascii,
        CString.get (currentPhrase (speech s)) (currentLetterIndex (speech s))
          = Some letter
        /\ CString.is_nul letter = false
        /\ 0 <= currentLetterIndex (speech s)
             < Z.of_nat (List.length (currentPhrase (speech s)))).
Proof.
  intro Hreach. pose proof (reachable_well_formed sin PI s Hreach) as Hs.
  split; [apply Hs |]. split.
  - intro op. destruct (exec_well_formed sin PI op s Hs) as (s' & E & Hs').
    exists s'. split; [exact E | apply Hs'].
  - intro Hspeaking.
    destruct (letter_under_index s Hs Hspeaking)
      as (letter & n & Hget & Hletter & _ & Hi & Hn).
    exists letter. destruct Hs as (Hlen & _). rewrite Hlen.
    repeat split; auto; lia.
Qed.

(** ** The theorems at concrete inputs *)

Lemma C1_interpolation_approaches_target_witness :
  Binary32.is_float (current_of AxisX move_planned_on_board)
  /\ Binary32.is_float (target_of AxisX move_planned_on_board)
  /\ within_bound AxisX (current_of AxisX move_planned_on_board)
  /\ within_bound AxisX (target_of AxisX move_planned_on_board)
  /\ (Qabs (current_of AxisX (Rounded.graduallyMoveServos 5020 move_planned_on_board)
            - current_of AxisX move_planned_on_board)
      <= Rounded.maxMove 5020 move_planned_on_board + Binary32.half_ulp)%Q.
Proof.
  assert (Fc : Binary32.is_float (current_of AxisX move_planned_on_board))
    by (vm_compute; reflexivity).
  assert (Ft : Binary32.is_float (target_of AxisX move_planned_on_board))
    by (vm_compute; reflexivity).
  assert (Bc : within_bound AxisX (current_of AxisX move_planned_on_board))
    by (vm_compute; split; discriminate).
  assert (Bt : within_bound AxisX (target_of AxisX move_planned_on_board))
    by (vm_compute; split; discriminate).
  split; [exact Fc |]. split; [exact Ft |]. split; [exact Bc |].
  split; [exact Bt |].
  exact (proj1 (proj2 (proj2 (C1_interpolation_approaches_target 5020
                                move_planned_on_board AxisX Fc Ft))) Bc Bt).
Defined.

Lemma C2_axes_stay_in_bounds_witness :
  reachable SamplePlatform.sin SamplePlatform.PI initial
  /\ exec SamplePlatform.sin SamplePlatform.PI
       (CallUpdateHeadMovement 5000 40 25 25) initial
     = Some (updateHeadMovement 5000 40 25 25 initial)
  /\ within_bound Rotation
       (target_of Rotation (updateHeadMovement 5000 40 25 25 initial))
  /\ within_bound Rotation
       (current_of Rotation (updateHeadMovement 5000 40 25 25 initial)).
Proof.
  split; [apply reachable_initial |].
  split; [reflexivity |].
  apply (C2_axes_stay_in_bounds SamplePlatform.sin SamplePlatform.PI
           initial (updateHeadMovement 5000 40 25 25 initial)
           (CallUpdateHeadMovement 5000 40 25 25)).
  - apply reachable_initial.
  - reflexivity.
Defined.

Lemma C4_phrase_selection_gate_witness :
  generateNewPhrase 10000 0 initial = Some first_phrase_selected
  /\ (idle initial = false -> first_phrase_selected = initial)
  /\ (first_phrase_selected <> initial ->
      idle initial = true
      /\ PHRASE_DURATION
         <= ulong_sub (ulong 10000) (lastPhraseTime (timers initial))
      /\ lastPhraseTime (timers first_phrase_selected) = ulong 10000).
Proof.
  split; [vm_compute; reflexivity |].
  apply (C4_phrase_selection_gate 10000 0 initial first_phrase_selected).
  vm_compute. reflexivity.
Defined.

Lemma C5_jaw_smoothing_converges_witness :
  all_due [10; 20] 107 initial = true
  /\ (2 <= List.length [10; 20])%nat
  /\ jaw (smooth_calls [10; 20] 107 initial) = 107.
Proof.
  split; [reflexivity |]. split; [apply le_n |].
  apply (proj1 (C5_jaw_smoothing_converges 107 [10; 20] initial)).
  - reflexivity.
  - apply le_n.
Defined.

Lemma C6_jaw_snap_or_step_witness :
  (2 * JAW_SMOOTHING_STEP < Z.abs (jaw initial - 70)
   /\ jaw (smoothJawMovement 10 70 initial) = 70)
  /\ (Z.abs (jaw initial - 107) <= 2 * JAW_SMOOTHING_STEP
      /\ jaw_smooth_due 10 initial = true
      /\ 107 < jaw initial
      /\ jaw (smoothJawMovement 10 107 initial)
         = Z.max (jaw initial - JAW_SMOOTHING_STEP) 107)
  /\ (jaw_smooth_due 5 initial = false
      /\ smoothJawMovement 5 107 initial = initial).
Proof.
  split; [| split].
  - split; [reflexivity |].
    apply (proj1 (C6_jaw_snap_or_step 10 70 initial)). reflexivity.
  - split; [discriminate |]. split; [reflexivity |]. split; [reflexivity |].
    apply (proj1 (proj2 (C6_jaw_snap_or_step 10 107 initial)));
      [discriminate | reflexivity | reflexivity].
  - split; [reflexivity |].
    apply (proj2 (proj2 (C6_jaw_snap_or_step 5 107 initial)));
      [discriminate | reflexivity].
Defined.

Lemma C7_letter_aperture_total_witness :
  is_alphabetic "!" = false
  /\ getJawPositionForLetter "!" = 0
  /\ map (getJawPositionForLetter "!") 0 50 JAW_CLOSED JAW_OPEN_MAX = JAW_CLOSED.
Proof.
  split; [reflexivity |].
  apply (proj2 (C7_letter_aperture_total "!")). reflexivity.
Defined.

Lemma C8_silent_letter_closes_jaw_witness :
  letter_due 10500 hello_spoken = true
  /\ CString.get (currentPhrase (speech hello_spoken))
       (currentLetterIndex (speech hello_spoken)) = Some " "%char
  /\ isSilentCharacter " " = true
  /\ fst (letterTarget " " hello_spoken) = JAW_CLOSED
  /\ updateJawMovement 10500 10700 10700 hello_spoken =
     finishLetter (ulong 10500) 10700
       (smoothJawMovement 10700 JAW_CLOSED
          (delay JAW_CLOSE_DURATION hello_spoken)).
Proof.
  split; [vm_compute; reflexivity |].
  split; [vm_compute; reflexivity |].
  split; [reflexivity |].
  refine (proj1 (C8_silent_letter_closes_jaw 10500 10700 10700
                   hello_spoken " " _ _ _)).
  - vm_compute. reflexivity.
  - vm_compute. reflexivity.
  - reflexivity.
Defined.

Lemma C9_phrase_copy_terminated_witness :
  List.length (currentPhrase (speech initial)) = sizeof_currentPhrase
  /\ exists installed : list ascii,
       copyPhrase (currentPhrase (speech initial))
         "THIS PHRASE IS FAR LONGER THAN THE BUFFER" = Some installed
       /\ well_terminated installed
       /\ CString.text installed =
          firstn (sizeof_currentPhrase - 1)
            (CString.text
               (list_ascii_of_string
                  "THIS PHRASE IS FAR LONGER THAN THE BUFFER")).
Proof.
  split; [reflexivity |].
  apply (proj1 (C9_phrase_copy_terminated
                  "THIS PHRASE IS FAR LONGER THAN THE BUFFER"
                  10000 0 initial eq_refl)).
Defined.

Lemma C10_letter_index_in_bounds_witness :
  reachable SamplePlatform.sin SamplePlatform.PI first_phrase_selected
  /\ phrase_invariant first_phrase_selected.
Proof.
  assert (H : reachable SamplePlatform.sin SamplePlatform.PI
                first_phrase_selected).
  { apply (reachable_step SamplePlatform.sin SamplePlatform.PI initial
             first_phrase_selected (CallGenerateNewPhrase 10000 0)).
    - apply reachable_initial.
    - vm_compute. reflexivity. }
  split; [exact H |].
  apply (proj1 (C10_letter_index_in_bounds SamplePlatform.sin
                  SamplePlatform.PI first_phrase_selected H)).
Defined.

(** ** Rounding to a servo angle *)





(** ** What each operation adds to the trace *)

Lemma extends_trace_refl (P : Event -> Prop) (s : State) : extends_trace P s s.
Proof. exists []. split; [symmetry; apply app_nil_r | constructor]. Qed.

Lemma extends_trace_same (P : Event -> Prop) (s s' : State) :
  trace s' = trace s -> extends_trace P s s'.
Proof. intro E. exists []. rewrite E, app_nil_r. split; [reflexivity | constructor]. Qed.

Lemma extends_trace_trans (P : Event -> Prop) (s1 s2 s3 : State) :
  extends_trace P s1 s2 -> extends_trace P s2 s3 -> extends_trace P s1 s3.
Proof.
  intros (es1 & E1 & F1) (es2 & E2 & F2). exists (es1 ++ es2).
  rewrite E2, E1, app_assoc. split; [reflexivity |].
  apply Forall_app. split; assumption.
Qed.

Lemma extends_trace_weaken (P Q : Event -> Prop) (s s' : State) :
  (forall e, P e -> Q e) -> extends_trace P s s' -> extends_trace Q s s'.
Proof.
  intros H (es & E & F). exists es. split; [exact E |].
  eapply Forall_impl; eassumption.
Qed.

Lemma extends_trace_emitted (P : Event -> Prop) (s s' : State) :
  extends_trace P s s' -> Forall P (emitted s s').
Proof.
  intros (es & E & F). rewrite (emitted_app s s' es E). exact F.
Qed.

(** [smoothJawMovement] commands the jaw servo at most once, with the
    position it leaves the jaw in, and no other servo. *)
Lemma smoothJawMovement_writes (now target : Z) (s : State) :
  let s' := smoothJawMovement now target s in
  (trace s' = trace s /\ jaw s' = jaw s
   \/ trace s' = trace s ++ [ServoWrite skull_jaw_servo (jaw s')])
  /\ forall sv : Servo,
       sv <> skull_jaw_servo -> servo_read sv s' = servo_read sv s.
Proof.
  cbv zeta. unfold smoothJawMovement, jaw, servo_read.
  destruct (JAW_SMOOTHING_STEP * 2 <? _).
  - split; [right; reflexivity |].
    intros sv Hsv. cbn. destruct sv; try reflexivity. contradiction.
  - destruct (JAW_SMOOTH_INTERVAL <=? _).
    + split; [right; reflexivity |].
      intros sv Hsv. cbn. destruct sv; try reflexivity. contradiction.
    + split; [left; split; reflexivity | reflexivity].
Qed.

Lemma smoothJawMovement_extends (now target : Z) (s : State) :
  extends_trace is_jaw_write s (smoothJawMovement now target s).
Proof.
  destruct (smoothJawMovement_writes now target s) as [[[E _] | E] _].
  - apply extends_trace_same. exact E.
  - eexists. split; [exact E |]. constructor; [exact I | constructor].
Qed.

Lemma letterTarget_effect (letter : ascii) (s : State) :
  let s' := snd (letterTarget letter s) in
  servos s' = servos s
  /\ (isSilentCharacter letter = true ->
      trace s' = trace s ++ [Delay JAW_CLOSE_DURATION])
  /\ (isSilentCharacter letter = false -> s' = s).
Proof.
  cbv zeta. unfold letterTarget.
  destruct (isSilentCharacter letter); cbn;
    repeat split; try reflexivity; discriminate.
Qed.

Lemma finishLetter_effect (currentTime nowClose : Z) (s s' : State) :
  finishLetter currentTime nowClose s = Some s' ->
  (forall sv : Servo,
     sv <> skull_jaw_servo -> servo_read sv s' = servo_read sv s)
  /\ extends_trace is_jaw_write s s'.
Proof.
  unfold finishLetter. intro E.
  destruct (CString.strlen _) as [len |]; [| discriminate].
  destruct (Z.of_nat len <=? _).
  - destruct (CString.set _ 0 CString.NUL) as [cleared |]; [| discriminate].
    injection E as <-.
    match goal with
    | |- context [smoothJawMovement ?n ?t ?x] =>
        pose proof (smoothJawMovement_writes n t x) as [_ Hsv];
        pose proof (smoothJawMovement_extends n t x) as Hext;
        cbv zeta in Hsv; set (closed := smoothJawMovement n t x) in *
    end.
    split.
    + intros sv Hne. exact (Hsv sv Hne).
    + destruct Hext as (es & Ees & Fes). exists es. split; [exact Ees | exact Fes].
  - injection E as <-.
    split; [reflexivity | apply extends_trace_same; reflexivity].
Qed.

Lemma letter_due_iff (now : Z) (s : State) (first : ascii) :
  CString.get (currentPhrase (speech s)) 0 = Some first ->
  letter_due now s =
  negb (CString.is_nul first)
  && (LETTER_DURATION <=? ulong_sub (ulong now) (lastLetterTime (timers s))).
Proof.
  intro E. unfold letter_due. rewrite (get_first_idle s first E). reflexivity.
Qed.

(** [updateJawMovement] commands only the jaw servo, and pauses only when
    it consumes a silent letter. *)
Lemma updateJawMovement_effect (now nowSmooth nowClose : Z) (s s' : State) :
  updateJawMovement now nowSmooth nowClose s = Some s' ->
  (forall sv : Servo,
     sv <> skull_jaw_servo -> servo_read sv s' = servo_read sv s)
  /\ extends_trace
       (fun e => is_jaw_write e
                 \/ (e = Delay JAW_CLOSE_DURATION /\ consumes_silent_letter now s))
       s s'.
Proof.
  unfold updateJawMovement. intro E.
  destruct (CString.get _ 0) as [first |] eqn:Efirst; [| discriminate].
  pose proof (letter_due_iff now s first Efirst) as Hdue.
  destruct (negb (CString.is_nul first)).
  - destruct (LETTER_DURATION <=? _).
    + destruct (CString.get _ (currentLetterIndex _)) as [letter |] eqn:Eletter;
        [| discriminate].
      pose proof (letterTarget_effect letter s) as (Hsv & Hsilent & Hloud).
      destruct (letterTarget letter s) as [target s1]. cbn [snd] in *.
      destruct (finishLetter_effect _ _ _ _ E) as (Hsv3 & Hext3).
      pose proof (smoothJawMovement_writes nowSmooth target s1) as [_ Hsv2].
      pose proof (smoothJawMovement_extends nowSmooth target s1) as Hext2.
      cbv zeta in Hsv2. split.
      * intros sv Hne. rewrite (Hsv3 sv Hne), (Hsv2 sv Hne).
        unfold servo_read. rewrite Hsv. reflexivity.
      * eapply extends_trace_trans; [| eapply extends_trace_trans].
        -- destruct (isSilentCharacter letter) eqn:Es.
           ++ exists [Delay JAW_CLOSE_DURATION].
              split; [apply Hsilent; reflexivity |].
              constructor; [| constructor]. right. split; [reflexivity |].
              split; [exact Hdue |]. exists letter. auto.
           ++ rewrite (Hloud eq_refl). apply extends_trace_refl.
        -- eapply extends_trace_weaken; [| exact Hext2]. intros e He. left. exact He.
        -- eapply extends_trace_weaken; [| exact Hext3]. intros e He. left. exact He.
    + injection E as <-. split; [reflexivity | apply extends_trace_refl].
  - injection E as <-.
    pose proof (smoothJawMovement_writes nowSmooth JAW_CLOSED s) as [_ Hsv].
    split; [exact Hsv |].
    eapply extends_trace_weaken; [| apply smoothJawMovement_extends].
    intros e He. left. exact He.
Qed.

Lemma generateNewPhrase_effect (now raw : Z) (s s' : State) :
  generateNewPhrase now raw s = Some s' ->
  servos s' = servos s /\ extends_trace is_serial s s'.
Proof.
  unfold generateNewPhrase. intro E.
  destruct (CString.get _ 0) as [first |]; [| discriminate].
  destruct (_ && _).
  - destruct (if _ <? 0 then None else _) as [source |]; [| discriminate].
    destruct (copyPhrase _ source) as [installed |]; [| discriminate].
    injection E as <-. split; [reflexivity |].
    eexists. split.
    + cbn. rewrite <- app_assoc. reflexivity.
    + repeat constructor.
  - injection E as <-. split; [reflexivity | apply extends_trace_refl].
Qed.

(** The head planner, the jitter and the breathing touch neither a servo
    nor the trace, nor a current position. *)
Lemma updateHeadMovement_quiet (now rawR rawX rawY : Z) (s : State) :
  let s' := updateHeadMovement now rawR rawX rawY s in
  servos s' = servos s /\ trace s' = trace s /\ speech s' = speech s
  /\ forall a : Axis, current_of a s' = current_of a s.
Proof.
  cbv zeta. unfold updateHeadMovement. destruct (_ <=? _);
    repeat split; try reflexivity; intros []; reflexivity.
Qed.

Lemma randomMovementsBetweenSentences_quiet (now rawR rawX rawY : Z) (s s' : State) :
  randomMovementsBetweenSentences now rawR rawX rawY s = Some s' ->
  servos s' = servos s /\ trace s' = trace s /\ speech s' = speech s
  /\ forall a : Axis, current_of a s' = current_of a s.
Proof.
  unfold randomMovementsBetweenSentences. intro E.
  destruct (CString.get _ 0) as [first |]; [| discriminate].
  destruct (_ && _); injection E as <-;
    repeat split; try reflexivity; intros []; reflexivity.
Qed.

Lemma updateBreathing_quiet (sin : Q -> Q) (PI : Q) (currentTime : Z) (s : State) :
  let s' := updateBreathing sin PI currentTime s in
  servos s' = servos s /\ trace s' = trace s /\ speech s' = speech s
  /\ forall a : Axis, current_of a s' = current_of a s.
Proof.
  cbv zeta. unfold updateBreathing. destruct (_ <=? _);
    repeat split; try reflexivity; intros []; reflexivity.
Qed.

(** ** Who moves the head *)

Lemma servo_of_inj (a b : Axis) : servo_of a = servo_of b -> a = b.
Proof. destruct a, b; intro E; try reflexivity; discriminate E. Qed.

Lemma servo_of_not_jaw (a : Axis) : servo_of a <> skull_jaw_servo.
Proof. destruct a; discriminate. Qed.

Lemma interpolate_axis_servo (a : Axis) (m : Q) (s : State) (sv : Servo) :
  servo_read sv (interpolate_axis a m s) =
  if Servo_eqb sv (servo_of a)
     && Qneqb (moveTowards (current_of a s) (target_of a s) m) (current_of a s)
  then round (moveTowards (current_of a s) (target_of a s) m)
  else servo_read sv s.
Proof.
  unfold interpolate_axis. cbv zeta.
  destruct (Qneqb _ _).
  - rewrite andb_true_r. destruct a, sv; reflexivity.
  - rewrite andb_false_r. reflexivity.
Qed.

(** The servo registers after one call. *)
Lemma graduallyMoveServos_servos (now : Z) (s : State) :
  gradual_due now s = true ->
  servo_read skull_jaw_servo (graduallyMoveServos now s)
    = servo_read skull_jaw_servo s
  /\ forall a : Axis,
       servo_read (servo_of a) (graduallyMoveServos now s) =
       if Qneqb (interpolated now s a) (current_of a s)
       then round (interpolated now s a)
       else servo_read (servo_of a) s.
Proof.
  intro Hdue. rewrite graduallyMoveServos_blocks, Hdue. cbv zeta.
  unfold interpolated.
  set (m := (HEAD_MOVE_SPEED * elapsed_seconds now s)%Q).
  assert (Hframe : forall v x sv,
             servo_read sv (set_lastGradualMoveTime v x) = servo_read sv x)
    by reflexivity.
  split.
  - rewrite Hframe, !interpolate_axis_servo. reflexivity.
  - intro a. rewrite Hframe, !interpolate_axis_servo.
    rewrite !interpolate_axis_target.
    rewrite (interpolate_axis_other AxisX AxisY),
      !(interpolate_axis_other Rotation) by discriminate.
    destruct a; cbn [servo_of Servo_eqb andb]; reflexivity.
Qed.

(** What the interpolator has no business with. *)
Lemma set_lastGradualMoveTime_rest (v : Z) (x : State) :
  beside_interpolator (set_lastGradualMoveTime v x) = beside_interpolator x.
Proof. reflexivity. Qed.

Lemma interpolate_axis_beside (a : Axis) (m : Q) (s : State) :
  beside_interpolator (interpolate_axis a m s) = beside_interpolator s.
Proof.
  unfold interpolate_axis. cbv zeta.
  destruct (Qneqb _ _); [destruct a |]; reflexivity.
Qed.

Lemma graduallyMoveServos_rest (now : Z) (s : State) :
  beside_interpolator (graduallyMoveServos now s) = beside_interpolator s.
Proof.
  rewrite graduallyMoveServos_blocks.
  destruct (gradual_due now s); [| reflexivity]. cbv zeta.
  rewrite set_lastGradualMoveTime_rest, !interpolate_axis_beside.
  reflexivity.
Qed.

Lemma axis_write_head (now : Z) (s : State) (a : Axis) :
  Forall is_head_write (axis_write now s a).
Proof.
  unfold axis_write. destruct (Qneqb _ _); [| constructor].
  constructor; [destruct a; exact I | constructor].
Qed.

Lemma axis_write_length (now : Z) (s : State) (a : Axis) :
  (List.length (axis_write now s a) <= 1)%nat.
Proof.
  unfold axis_write. destruct (Qneqb _ _); cbn; lia.
Qed.

(** X1.  [graduallyMoveServos] changes nothing but the three current
    positions, the three head servos and its own timer: the targets, the
    breathing offset, the phrase, the jaw servo and the other six timers
    are as before, and what it adds to the trace is at most three
    commands, all on head servos. *)
Theorem interpolator_touches_head_only (now : Z) (s : State) :
  let s' := graduallyMoveServos now s in
  (forall a : Axis, target_of a s' = target_of a s)
  /\ speech s' = speech s
  /\ breathOffset (head s') = breathOffset (head s)
  /\ jaw s' = jaw s
  /\ (lastLetterTime (timers s') = lastLetterTime (timers s)
      /\ lastHeadMoveTime (timers s') = lastHeadMoveTime (timers s)
      /\ lastJawSmoothTime (timers s') = lastJawSmoothTime (timers s)
      /\ lastRandomMoveTime (timers s') = lastRandomMoveTime (timers s)
      /\ lastPhraseTime (timers s') = lastPhraseTime (timers s)
      /\ lastBreathTime (timers s') = lastBreathTime (timers s))
  /\ Forall is_head_write (emitted s s')
  /\ (List.length (emitted s s') <= 3)%nat.
Proof.
  cbv zeta.
  pose proof (graduallyMoveServos_rest now s) as Hrest.
  unfold beside_interpolator in Hrest.
  injection Hrest as Hs Hb T1 T2 T3 T4 T5 T6.
  split; [intro a; apply graduallyMoveServos_axis |].
  split; [exact Hs |]. split; [exact Hb |].
  destruct (gradual_due now s) eqn:Hdue.
  - destruct (graduallyMoveServos_servos now s Hdue) as [Hjaw _].
    destruct (graduallyMoveServos_effect now s Hdue) as [Htrace _].
    rewrite (emitted_app _ _ _ Htrace).
    split; [exact Hjaw |]. split; [auto 10 |]. split.
    + rewrite !Forall_app. auto using axis_write_head.
    + rewrite !length_app.
      pose proof (axis_write_length now s Rotation).
      pose proof (axis_write_length now s AxisX).
      pose proof (axis_write_length now s AxisY). lia.
  - rewrite (graduallyMoveServos_not_due now s Hdue).
    unfold emitted. rewrite skipn_all.
    split; [reflexivity |]. split; [repeat split |].
    split; [constructor | cbn; lia].
Qed.

(** Outside the interpolator the current positions and the head servos
    stay as they are. *)
Lemma exec_leaves_head_positions
      (sin : Q -> Q) (PI : Q) (op : Op) (s s' : State) :
  exec sin PI op s = Some s' ->
  (forall now : Z, op <> CallGraduallyMoveServos now) ->
  forall a : Axis,
    current_of a s' = current_of a s
    /\ servo_read (servo_of a) s' = servo_read (servo_of a) s.
Proof.
  intros E Hop.
  assert (Hquiet : forall x x' : State,
             servos x' = servos x ->
             (forall a, current_of a x' = current_of a x) ->
             forall a : Axis,
               current_of a x' = current_of a x
               /\ servo_read (servo_of a) x' = servo_read (servo_of a) x).
  { intros x x' Hsv Hcur a.
    split; [apply Hcur | unfold servo_read; rewrite Hsv; reflexivity]. }
  assert (Hhead : forall x x' : State,
             head x' = head x -> forall a, current_of a x' = current_of a x).
  { intros x x' Hh a. destruct a; unfold current_of; rewrite Hh; reflexivity. }
  destruct op; cbn in E.
  - destruct (updateJawMovement_effect _ _ _ _ _ E) as (Hsv & _).
    pose proof (updateJawMovement_head _ _ _ _ _ E) as Hh.
    intro a. split; [apply Hhead, Hh | apply Hsv, servo_of_not_jaw].
  - injection E as <-.
    destruct (updateHeadMovement_quiet now rawR rawX rawY s) as (A & _ & _ & C).
    auto.
  - destruct (randomMovementsBetweenSentences_quiet _ _ _ _ _ _ E)
      as (A & _ & _ & C). auto.
  - injection E as <-.
    destruct (updateBreathing_quiet sin PI currentTime s) as (A & _ & _ & C).
    auto.
  - exfalso. apply (Hop now). reflexivity.
  - destruct (generateNewPhrase_effect _ _ _ _ E) as (Hsv & _).
    apply Hquiet; [exact Hsv |]. apply Hhead.
    eapply generateNewPhrase_head. exact E.
Qed.

(** X2.  No operation other than [graduallyMoveServos] changes a current
    position or a head servo, or adds a head-servo command to the trace. *)
Theorem only_the_interpolator_moves_the_head
        (sin : Q -> Q) (PI : Q) (op : Op) (s s' : State) :
  exec sin PI op s = Some s' ->
  (forall now : Z, op <> CallGraduallyMoveServos now) ->
  (forall a : Axis,
     current_of a s' = current_of a s
     /\ servo_read (servo_of a) s' = servo_read (servo_of a) s)
  /\ Forall (fun e => ~ is_head_write e) (emitted s s').
Proof.
  intros E Hop.
  split; [exact (exec_leaves_head_positions sin PI op s s' E Hop) |].
  assert (Hquiet : forall x x' : State,
             trace x' = trace x ->
             Forall (fun e => ~ is_head_write e) (emitted x x')).
  { intros x x' Htr. unfold emitted. rewrite Htr, skipn_all. constructor. }
  destruct op; cbn in E.
  - destruct (updateJawMovement_effect _ _ _ _ _ E) as (_ & Hext).
    apply extends_trace_emitted.
    eapply extends_trace_weaken; [| exact Hext].
    intros e [He | [-> _]]; [| intros []].
    destruct e as [[] v | | |]; cbn in *; auto.
  - injection E as <-. apply Hquiet.
    apply (updateHeadMovement_quiet now rawR rawX rawY s).
  - apply Hquiet.
    apply (randomMovementsBetweenSentences_quiet _ _ _ _ _ _ E).
  - injection E as <-. apply Hquiet.
    apply (updateBreathing_quiet sin PI currentTime s).
  - exfalso. apply (Hop now). reflexivity.
  - destruct (generateNewPhrase_effect _ _ _ _ E) as (_ & Hext).
    apply extends_trace_emitted.
    eapply extends_trace_weaken; [| exact Hext].
    intros e He. destruct e as [[] v | | |]; cbn in *; auto.
Qed.

(** ** The servos mirror the state and stay in range *)








(** Every letter's jaw target lies between fully open and closed. *)
Lemma letterTarget_in_range (letter : ascii) (s : State) :
  JAW_OPEN_MAX <= fst (letterTarget letter s) <= JAW_CLOSED.
Proof.
  unfold letterTarget. destruct (isSilentCharacter letter); cbn [fst].
  - split; discriminate.
  - destruct letter as [[] [] [] [] [] [] [] []]; vm_compute; split; discriminate.
Qed.








(** ** The interpolator at its target, and paced calls *)

Lemma Qeq_bool_refl_eq (x y : Q) : (x == y)%Q -> Qneqb x y = false.
Proof.
  intro E. unfold Qneqb. apply negb_false_iff. apply Qeq_bool_iff. exact E.
Qed.

Lemma moveTowards_near (current target maxMove : Q) :
  (Qabs (current - target) <= maxMove)%Q ->
  moveTowards current target maxMove = target.
Proof.
  intro H. unfold moveTowards. rewrite <- fabs_Qabs in H.
  apply Qle_bool_iff in H. rewrite H. reflexivity.
Qed.

Lemma distance_left_spec (d moved : Q) :
  (moved <= d /\ distance_left d moved == d - moved)%Q
  \/ (d < moved /\ distance_left d moved == 0)%Q.
Proof.
  unfold distance_left. destruct (Qle_bool moved d) eqn:E.
  - left. apply Qle_bool_iff in E. split; [exact E | reflexivity].
  - right. split; [| reflexivity].
    destruct (Qlt_le_dec d moved) as [L | L]; [exact L |].
    apply Qle_bool_iff in L. congruence.
Qed.

Lemma Qabs_self (x : Q) : (Qabs (x - x) == 0)%Q.
Proof.
  setoid_replace (x - x)%Q with 0%Q by ring. reflexivity.
Qed.

Lemma interpolated_at_target (now : Z) (s : State) (a : Axis) :
  (current_of a s == target_of a s)%Q ->
  Qneqb (interpolated now s a) (current_of a s) = false.
Proof.
  intro E. unfold interpolated. rewrite moveTowards_near.
  - apply Qeq_bool_refl_eq. symmetry. exact E.
  - rewrite E, Qabs_self. apply elapsed_seconds_nonneg.
Qed.

Lemma in_emitted_gradual (now : Z) (s : State) (a : Axis) (v : Z) :
  In (ServoWrite (servo_of a) v) (emitted s (graduallyMoveServos now s)) <->
  gradual_due now s = true
  /\ Qneqb (interpolated now s a) (current_of a s) = true
  /\ v = round (interpolated now s a).
Proof.
  destruct (gradual_due now s) eqn:Hdue.
  - destruct (graduallyMoveServos_effect now s Hdue) as [Htrace _].
    rewrite (emitted_app _ _ _ Htrace), !in_app_iff, !in_axis_write.
    split.
    + intros [H | [H | H]]; destruct H as (Hsv & E & ->);
        apply servo_of_inj in Hsv; subst a; auto.
    + intros (_ & E & ->). destruct a; auto.
  - rewrite (graduallyMoveServos_not_due now s Hdue).
    unfold emitted. rewrite skipn_all.
    split; [intros [] | intros (H & _); discriminate].
Qed.

(** X5.  An axis that is at its target stays put: a call of
    [graduallyMoveServos] leaves its current position and its servo as they
    are and commands nothing on that servo. *)
Theorem interpolation_idle_at_target (now : Z) (s : State) (a : Axis) :
  (current_of a s == target_of a s)%Q ->
  let s' := graduallyMoveServos now s in
  current_of a s' = current_of a s
  /\ servo_read (servo_of a) s' = servo_read (servo_of a) s
  /\ forall v : Z, ~ In (ServoWrite (servo_of a) v) (emitted s s').
Proof.
  intro Hat. cbv zeta.
  pose proof (interpolated_at_target now s a Hat) as Hsame.
  split; [| split].
  - destruct (gradual_due now s) eqn:Hdue.
    + destruct (graduallyMoveServos_effect now s Hdue) as [_ Hcur].
      rewrite Hcur, Hsame. reflexivity.
    + rewrite (graduallyMoveServos_not_due now s Hdue). reflexivity.
  - destruct (gradual_due now s) eqn:Hdue.
    + destruct (graduallyMoveServos_servos now s Hdue) as [_ Hsv].
      rewrite Hsv, Hsame. reflexivity.
    + rewrite (graduallyMoveServos_not_due now s Hdue). reflexivity.
  - intros v Hin. apply in_emitted_gradual in Hin.
    destruct Hin as (_ & E & _). congruence.
Qed.

Lemma ulong_small (z : Z) : 0 <= z < ULONG_MOD -> ulong z = z.
Proof. intro H. unfold ulong. apply Z.mod_small. exact H. Qed.

Lemma ulong_sub_small (a b : Z) : 0 <= a - b < ULONG_MOD -> ulong_sub a b = a - b.
Proof. intro H. unfold ulong_sub. apply Z.mod_small. exact H. Qed.

Lemma graduallyMoveServos_timer (now : Z) (s : State) :
  lastGradualMoveTime (timers (graduallyMoveServos now s)) =
  if gradual_due now s then ulong now else lastGradualMoveTime (timers s).
Proof.
  rewrite graduallyMoveServos_blocks.
  destruct (gradual_due now s); reflexivity.
Qed.

Lemma distance_left_twice (d0 d1 a b : Q) :
  (0 <= a)%Q -> (0 <= b)%Q ->
  (d1 == distance_left d0 a)%Q ->
  (distance_left d1 b == distance_left d0 (a + b))%Q.
Proof.
  intros Ha Hb E.
  destruct (distance_left_spec d1 b) as [[H1 ->] | [H1 ->]];
    destruct (distance_left_spec d0 a) as [[H2 E2] | [H2 E2]];
    destruct (distance_left_spec d0 (a + b)) as [[H3 ->] | [H3 ->]];
    rewrite E2 in E; lra.
Qed.

Lemma last_cons (l : list Z) (x d : Z) : last (x :: l) d = last l x.
Proof.
  revert x d. induction l as [| y l IH]; intros x d; [reflexivity |].
  change (last (x :: y :: l) d) with (last (y :: l) d).
  change (last (y :: l) x) with (last (y :: l) x).
  rewrite (IH y d), (IH y x). reflexivity.
Qed.

Lemma paced_last (nows : list Z) (t0 : Z) : paced t0 nows -> t0 <= last nows t0.
Proof.
  revert t0. induction nows as [| now rest IH]; intros t0 Hp; [cbn; lia |].
  destruct Hp as [Hnow Hrest]. unfold GRADUAL_MOVE_INTERVAL in Hnow.
  rewrite last_cons. specialize (IH now Hrest). lia.
Qed.

Lemma no_time_no_move :
  (HEAD_MOVE_SPEED * (inject_Z 0 / 1000) == 0)%Q.
Proof. reflexivity. Qed.

Lemma step_length_nonneg (x y : Z) :
  x <= y -> (0 <= HEAD_MOVE_SPEED * (inject_Z (y - x) / 1000))%Q.
Proof.
  intro Hxy.
  assert (0 <= inject_Z (y - x))%Q
    by (change 0%Q with (inject_Z 0); rewrite <- Zle_Qle; lia).
  unfold HEAD_MOVE_SPEED, Qdiv. change (/ 1000)%Q with (1 # 1000)%Q. lra.
Qed.

(** ** Speaking a phrase *)

Lemma idle_of_phrase (s s' : State) :
  currentPhrase (speech s') = currentPhrase (speech s) -> idle s' = idle s.
Proof. unfold idle. intros ->. reflexivity. Qed.

(** What [finishLetter] leaves in the phrase state. *)
Lemma finishLetter_speech (currentTime nowClose : Z) (s : State) (n : nat) :
  List.length (currentPhrase (speech s)) = sizeof_currentPhrase ->
  CString.strlen (currentPhrase (speech s)) = Some n ->
  exists s' : State,
    finishLetter currentTime nowClose s = Some s'
    /\ lastLetterTime (timers s') = currentTime
    /\ if currentLetterIndex (speech s) + 1 <? Z.of_nat n
       then speech s' =
            mkSpeech (currentPhrase (speech s)) (currentLetterIndex (speech s) + 1)
       else idle s' = true /\ currentLetterIndex (speech s') = 0.
Proof.
  intros Hlen Hn. unfold finishLetter.
  cbn [speech set_currentLetterIndex with_speech currentPhrase
       currentLetterIndex].
  rewrite Hn.
  destruct (Z.of_nat n <=? currentLetterIndex (speech s) + 1) eqn:Eend.
  - assert (Hlt : (currentLetterIndex (speech s) + 1 <? Z.of_nat n) = false)
      by (reflect_Z; apply Z.ltb_ge; lia).
    rewrite Hlt.
    destruct (set_some (currentPhrase (speech s)) 0 CString.NUL)
      as (cleared & Eset & _ & Hzero & _).
    { rewrite Hlen. unfold sizeof_currentPhrase. lia. }
    rewrite Eset. eexists. split; [reflexivity |].
    split; [reflexivity |].
    assert (Hsp : forall x,
               speech (set_lastLetterTime currentTime
                         (smoothJawMovement nowClose JAW_CLOSED x)) = speech x).
    { intro x.
      change (speech (set_lastLetterTime currentTime ?y)) with (speech y).
      apply smoothJawMovement_speech. }
    unfold idle. rewrite Hsp. simpl_speech.
    destruct cleared; [discriminate |].
    cbn in Hzero. injection Hzero as ->. split; reflexivity.
  - assert (Hlt : (currentLetterIndex (speech s) + 1 <? Z.of_nat n) = true)
      by (reflect_Z; apply Z.ltb_lt; lia).
    rewrite Hlt. eexists. split; [reflexivity |]. split; reflexivity.
Qed.

(** One due call of [updateJawMovement] in a well-formed state. *)
Lemma updateJawMovement_letter (now nowSmooth nowClose : Z) (s : State) :
  speech_well_formed s -> letter_due now s = true ->
  exists (s' : State) (n : nat),
    updateJawMovement now nowSmooth nowClose s = Some s'
    /\ CString.strlen (currentPhrase (speech s)) = Some n
    /\ 0 <= currentLetterIndex (speech s) < Z.of_nat n
    /\ lastLetterTime (timers s') = ulong now
    /\ if currentLetterIndex (speech s) + 1 <? Z.of_nat n
       then speech s' =
            mkSpeech (currentPhrase (speech s)) (currentLetterIndex (speech s) + 1)
       else idle s' = true /\ currentLetterIndex (speech s') = 0.
Proof.
  intros Hs Hdue.
  destruct (first_of_well_formed s Hs) as (first & Hfirst & Hidle).
  pose proof (letter_due_iff now s first Hfirst) as Hd. rewrite Hdue in Hd.
  symmetry in Hd. apply andb_prop in Hd. destruct Hd as [Hnn Hdur].
  assert (Hspeaking : idle s = false)
    by (rewrite Hidle; apply negb_true_iff; exact Hnn).
  destruct (letter_under_index s Hs Hspeaking)
    as (letter & n & Hget & _ & Hn & Hi & _).
  unfold updateJawMovement. rewrite Hfirst, Hnn, Hdur, Hget.
  pose proof (letterTarget_speech letter s) as Ht.
  destruct (letterTarget letter s) as [target s1]. cbn [snd] in Ht.
  destruct Hs as (Hlen & _).
  assert (Hsp : speech (smoothJawMovement nowSmooth target s1) = speech s)
    by (rewrite smoothJawMovement_speech; exact Ht).
  destruct (finishLetter_speech (ulong now) nowClose
              (smoothJawMovement nowSmooth target s1) n)
    as (s' & E & Htime & Hres); try (rewrite Hsp; assumption).
  rewrite Hsp in Hres.
  exists s', n. auto.
Qed.

(** X8.  [updateJawMovement] consumes one letter per due call.  In a state
    whose phrase buffer is well formed, a call that is not due (no phrase,
    or [LETTER_DURATION] not elapsed) leaves the phrase, the index and the
    letter timer alone; a due call restarts the letter timer and either
    advances the index by one inside the unchanged phrase or, on the last
    letter, clears the phrase and resets the index to zero. *)
Theorem one_letter_per_due_call (now nowSmooth nowClose : Z) (s : State) :
  speech_well_formed s ->
  exists s' : State,
    updateJawMovement now nowSmooth nowClose s = Some s'
    /\ (letter_due now s = false ->
        speech s' = speech s
        /\ lastLetterTime (timers s') = lastLetterTime (timers s))
    /\ (letter_due now s = true ->
        lastLetterTime (timers s') = ulong now
        /\ exists n : nat,
             CString.strlen (currentPhrase (speech s)) = Some n
             /\ if currentLetterIndex (speech s) + 1 <? Z.of_nat n
                then currentPhrase (speech s') = currentPhrase (speech s)
                     /\ currentLetterIndex (speech s')
                        = currentLetterIndex (speech s) + 1
                else idle s' = true /\ currentLetterIndex (speech s') = 0).
Proof.
  intro Hs. destruct (letter_due now s) eqn:Hdue.
  - destruct (updateJawMovement_letter now nowSmooth nowClose s Hs Hdue)
      as (s' & n & E & Hn & _ & Htime & Hres).
    exists s'. split; [exact E |]. split; [discriminate |].
    intros _. split; [exact Htime |]. exists n. split; [exact Hn |].
    destruct (_ <? _); [rewrite Hres; split; reflexivity | exact Hres].
  - destruct (first_of_well_formed s Hs) as (first & Hfirst & _).
    pose proof (letter_due_iff now s first Hfirst) as Hd. rewrite Hdue in Hd.
    unfold updateJawMovement. rewrite Hfirst.
    destruct (negb (CString.is_nul first)); cbn [andb] in Hd.
    + rewrite <- Hd. exists s. split; [reflexivity |].
      split; [auto | discriminate].
    + eexists. split; [reflexivity |]. split; [| discriminate].
      intros _. split; [apply smoothJawMovement_speech |].
      unfold smoothJawMovement.
      destruct (_ <? _); [reflexivity |]. destruct (_ <=? _); reflexivity.
Qed.

(** X9.  A phrase is spoken in as many due calls as it has letters left.
    From a well-formed state that is speaking, with the index on letter
    [i] of a phrase of [n] letters, any run of calls of [updateJawMovement]
    that are all due has at most [n - i] calls; after fewer than [n - i] of
    them the phrase is unchanged and the index has advanced by their
    number, and after exactly [n - i] the phrase is cleared. *)
Theorem phrase_spoken_in_its_length
        (calls : list (Z * Z * Z)) (s : State) (n : nat) :
  speech_well_formed s ->
  idle s = false ->
  CString.strlen (currentPhrase (speech s)) = Some n ->
  all_letters_due calls s ->
  let k := Z.of_nat (List.length calls) in
  let left := Z.of_nat n - currentLetterIndex (speech s) in
  k <= left
  /\ exists s' : State,
       jaw_calls calls s = Some s'
       /\ if k <? left
          then currentPhrase (speech s') = currentPhrase (speech s)
               /\ currentLetterIndex (speech s')
                  = currentLetterIndex (speech s) + k
          else idle s' = true /\ currentLetterIndex (speech s') = 0.
Proof.
  cbv zeta. revert s.
  induction calls as [| [[now nowSmooth] nowClose] rest IH];
    intros s Hs Hspeaking Hn Hdue.
  - destruct (letter_under_index s Hs Hspeaking)
      as (_ & m & _ & _ & Hm & Hi & _).
    assert (m = n) by congruence. subst m.
    cbn [List.length jaw_calls]. split; [lia |].
    exists s. split; [reflexivity |].
    destruct (_ <? _) eqn:E; reflect_Z; [| lia].
    split; [reflexivity | lia].
  - destruct Hdue as [Hnow Hrest].
    destruct (updateJawMovement_letter now nowSmooth nowClose s Hs Hnow)
      as (s1 & m & E1 & Hm & Hi & _ & Hres).
    assert (m = n) by congruence. subst m.
    destruct (updateJawMovement_well_formed now nowSmooth nowClose s Hs)
      as (s1' & E1' & Hs1).
    assert (s1' = s1) by congruence. subst s1'.
    specialize (Hrest s1 E1).
    cbn [jaw_calls List.length]. rewrite E1.
    destruct (currentLetterIndex (speech s) + 1 <? Z.of_nat n) eqn:Emore;
      reflect_Z.
    + assert (Hphrase : currentPhrase (speech s1) = currentPhrase (speech s))
        by (rewrite Hres; reflexivity).
      assert (Hindex : currentLetterIndex (speech s1)
                       = currentLetterIndex (speech s) + 1)
        by (rewrite Hres; reflexivity).
      assert (Hsp1 : idle s1 = false)
        by (rewrite (idle_of_phrase s s1 Hphrase); exact Hspeaking).
      assert (Hn1 : CString.strlen (currentPhrase (speech s1)) = Some n)
        by (rewrite Hphrase; exact Hn).
      destruct (IH s1 Hs1 Hsp1 Hn1 Hrest) as (Hk & s' & E' & Hend).
      rewrite Hindex, Hphrase in *.
      split; [lia |]. exists s'. split; [exact E' |].
      replace (Z.of_nat (S (List.length rest))
               <? Z.of_nat n - currentLetterIndex (speech s))
        with (Z.of_nat (List.length rest)
              <? Z.of_nat n - (currentLetterIndex (speech s) + 1)).
      * destruct (_ <? _); [| exact Hend].
        destruct Hend as [-> ->]. split; [reflexivity | lia].
      * destruct (Z.of_nat (List.length rest) <? _) eqn:A;
          symmetry; [apply Z.ltb_lt | apply Z.ltb_ge]; reflect_Z; lia.
    + destruct Hres as [Hidle1 Hzero].
      destruct rest as [| [[now2 ns2] nc2] rest'].
      * cbn [List.length jaw_calls]. split; [lia |].
        exists s1. split; [reflexivity |].
        destruct (_ <? _) eqn:A; reflect_Z; [lia | auto].
      * exfalso. destruct Hrest as [Hdue2 _].
        unfold letter_due in Hdue2. rewrite Hidle1 in Hdue2. discriminate.
Qed.

(** Every phrase of the catalog fits the buffer and has no NUL inside. *)
Lemma catalog_fits :
  Forall (fun phrase : string =>
            let chars := list_ascii_of_string phrase in
            firstn (sizeof_currentPhrase - 1) (CString.text chars) = chars
            /\ chars <> [])
         phrases.
Proof.
  unfold phrases. repeat constructor; discriminate.
Qed.

(** X10.  When [generateNewPhrase] fires (no phrase being spoken, gate
    elapsed), the buffer afterwards holds, in full, the catalog phrase at
    index [raw mod numPhrases]: no phrase of the catalog is cut by the
    copy.  The letter index is zero, the phrase timer is the reading of
    the clock, the sketch is speaking, and the serial output of the call
    is "New phrase: " followed by that phrase on a line. *)
Theorem new_phrase_is_catalog_phrase (now raw : Z) (s : State) :
  List.length (currentPhrase (speech s)) = sizeof_currentPhrase ->
  idle s = true -> phrase_due now s = true ->
  exists (s' : State) (chosen : string),
    generateNewPhrase now raw s = Some s'
    /\ nth_error phrases (Z.to_nat (raw mod numPhrases)) = Some chosen
    /\ CString.text (currentPhrase (speech s')) = list_ascii_of_string chosen
    /\ currentLetterIndex (speech s') = 0
    /\ lastPhraseTime (timers s') = ulong now
    /\ idle s' = false
    /\ emitted s s' =
       [ SerialPrint (list_ascii_of_string "New phrase: ");
         SerialPrintln (list_ascii_of_string chosen) ].
Proof.
  intros Hlen Hidle Hdue. unfold generateNewPhrase.
  unfold idle in Hidle. rewrite get_first.
  destruct (currentPhrase (speech s)) as [| first rest] eqn:Ebuf;
    [discriminate |].
  rewrite Hidle. unfold phrase_due in Hdue. rewrite Hdue. cbn [andb].
  destruct (random1_numPhrases raw) as (chosen & Echosen & Hin).
  rewrite Echosen.
  assert (Hidx : nth_error phrases (Z.to_nat (raw mod numPhrases)) = Some chosen).
  { unfold random1 in Echosen. change (numPhrases =? 0) with false in Echosen.
    cbv iota in Echosen.
    destruct (raw mod numPhrases <? 0); [discriminate | exact Echosen]. }
  destruct (copyPhrase_some (first :: rest) chosen Hlen)
    as (installed & E & _ & _ & Htext).
  rewrite E.
  pose proof catalog_fits as Hfits. rewrite Forall_forall in Hfits.
  destruct (Hfits chosen Hin) as [Hfull Hnonempty]. cbv zeta in Hfull.
  rewrite Hfull in Htext.
  eexists. exists chosen. split; [reflexivity |].
  split; [exact Hidx |].
  simpl_speech. split; [exact Htext |]. split; [reflexivity |].
  split; [reflexivity |]. split.
  - unfold idle. simpl_speech.
    destruct installed as [| c more].
    + cbn in Htext. congruence.
    + cbn [CString.text] in Htext. destruct (CString.is_nul c); [| reflexivity].
      congruence.
  - apply emitted_app.
    cbn [trace Serial_print Serial_println emit set_lastPhraseTime
         set_currentLetterIndex set_currentPhrase with_timers with_speech
         speech currentPhrase].
    rewrite Htext, <- app_assoc. reflexivity.
Qed.

(** X11.  The sketch blocks in [delay] only at a silent letter.  If an
    operation adds a [Delay] to the trace, the operation is
    [updateJawMovement], it is consuming a silent character of the phrase,
    and the pause is [JAW_CLOSE_DURATION]; and a call of
    [updateJawMovement] that consumes a silent letter does pause. *)
Theorem pause_only_at_silent_letters
        (sin : Q -> Q) (PI : Q) (op : Op) (s s' : State) :
  exec sin PI op s = Some s' ->
  (forall ms : Z,
     In (Delay ms) (emitted s s') ->
     ms = JAW_CLOSE_DURATION
     /\ exists now nowSmooth nowClose : Z,
          op = CallUpdateJawMovement now nowSmooth nowClose
          /\ consumes_silent_letter now s)
  /\ (forall now nowSmooth nowClose : Z,
        op = CallUpdateJawMovement now nowSmooth nowClose ->
        consumes_silent_letter now s ->
        In (Delay JAW_CLOSE_DURATION) (emitted s s')).
Proof.
  intro E. split.
  - intros ms Hin.
    assert (Hnone : forall P : Event -> Prop,
               (forall e, P e -> forall d, e <> Delay d) ->
               extends_trace P s s' -> False).
    { intros P HP Hext. apply extends_trace_emitted in Hext.
      rewrite Forall_forall in Hext. apply (HP _ (Hext _ Hin) ms). reflexivity. }
    assert (Hquiet : trace s' = trace s -> False).
    { intro Htr. unfold emitted in Hin. rewrite Htr, skipn_all in Hin.
      destruct Hin. }
    destruct op; cbn in E.
    + destruct (updateJawMovement_effect _ _ _ _ _ E) as (_ & Hext).
      apply extends_trace_emitted in Hext. rewrite Forall_forall in Hext.
      destruct (Hext _ Hin) as [Hjaw | [Hms Hsilent]]; [destruct Hjaw |].
      injection Hms as ->. split; [reflexivity |].
      exists now, nowSmooth, nowClose. auto.
    + injection E as <-. exfalso. apply Hquiet.
      apply (updateHeadMovement_quiet now rawR rawX rawY s).
    + exfalso. apply Hquiet.
      apply (randomMovementsBetweenSentences_quiet _ _ _ _ _ _ E).
    + injection E as <-. exfalso. apply Hquiet.
      apply (updateBreathing_quiet sin PI currentTime s).
    + injection E as <-. exfalso.
      apply (Hnone is_head_write).
      * intros [] He d; try destruct He; discriminate.
      * destruct (gradual_due now s) eqn:Hdue.
        -- destruct (graduallyMoveServos_effect now s Hdue) as [Htrace _].
           eexists. split; [exact Htrace |].
           rewrite !Forall_app. auto using axis_write_head.
        -- rewrite (graduallyMoveServos_not_due now s Hdue).
           apply extends_trace_refl.
    + exfalso. destruct (generateNewPhrase_effect _ _ _ _ E) as (_ & Hext).
      apply (Hnone is_serial); [| exact Hext].
      intros [] He d; try destruct He; discriminate.
  - intros now nowSmooth nowClose -> (Hdue & letter & Hget & Hsilent).
    cbn in E.
    destruct (letter_due_first now s letter Hdue Hget)
      as (first & Hfirst & Hnul & Hdur).
    unfold updateJawMovement in E.
    rewrite Hfirst, Hnul in E. cbn [negb] in E. rewrite Hdur, Hget in E.
    unfold letterTarget in E. rewrite Hsilent in E.
    destruct (finishLetter_effect _ _ _ _ E) as (_ & (es2 & E2 & _)).
    destruct (smoothJawMovement_extends nowSmooth JAW_CLOSED
                (delay JAW_CLOSE_DURATION s)) as (es1 & E1 & _).
    assert (Htrace : trace s' = trace s ++ (Delay JAW_CLOSE_DURATION :: es1 ++ es2)).
    { rewrite E2, E1. cbn [delay emit trace].
      rewrite <- !app_assoc. reflexivity. }
    rewrite (emitted_app _ _ _ Htrace). left. reflexivity.
Qed.

(** X12.  Which characters open the jaw.  The target computed for a
    character is always between [JAW_OPEN_MAX] and [JAW_CLOSED]; for an
    upper-case letter it is at most 93, that is at least 22 degrees open;
    for every other character, lower-case letters included, it is
    [JAW_CLOSED]. *)
Theorem only_upper_case_opens_the_jaw (letter : ascii) (s : State) :
  JAW_OPEN_MAX <= fst (letterTarget letter s) <= JAW_CLOSED
  /\ (is_upper letter = true -> fst (letterTarget letter s) <= JAW_CLOSED - 22)
  /\ (is_upper letter = false -> fst (letterTarget letter s) = JAW_CLOSED).
Proof.
  split; [apply letterTarget_in_range |].
  unfold letterTarget.
  destruct letter as [[] [] [] [] [] [] [] []];
    (split; vm_compute; intro H; try discriminate H; try reflexivity;
     discriminate).
Qed.

(** ** Planning, jitter and breathing *)

Lemma updateHeadMovement_due (now rawR rawX rawY : Z) (s : State) :
  head_due now s = true ->
  updateHeadMovement now rawR rawX rawY s =
  set_lastRandomMoveTime (ulong now)
    (set_lastHeadMoveTime (ulong now)
       (set_targetY (inject_Z (head_draw AxisY rawY))
          (set_targetX (inject_Z (head_draw AxisX rawX))
             (set_targetRotation (inject_Z (head_draw Rotation rawR)) s)))).
Proof.
  unfold head_due, updateHeadMovement. intros ->. reflexivity.
Qed.

(** X13.  When the head planner fires, each axis's new target is the
    integer drawn for it, an integer of the axis's bound with both ends
    included: every integer from the minimum to the maximum is the outcome
    of some non-negative draw.  The planner's timer and the jitter's timer
    are both set to the reading of the clock. *)
Theorem head_plan_covers_the_bound
        (now rawR rawX rawY : Z) (s : State) (a : Axis) :
  head_due now s = true ->
  let s' := updateHeadMovement now rawR rawX rawY s in
  let raw := match a with Rotation => rawR | AxisX => rawX | AxisY => rawY end in
  target_of a s' = inject_Z (head_draw a raw)
  /\ axis_min a <= head_draw a raw <= axis_max a
  /\ (forall v : Z,
        axis_min a <= v <= axis_max a ->
        exists draw : Z, 0 <= draw /\ head_draw a draw = v)
  /\ lastHeadMoveTime (timers s') = ulong now
  /\ lastRandomMoveTime (timers s') = ulong now.
Proof.
  intro Hdue. cbv zeta. rewrite (updateHeadMovement_due _ _ _ _ _ Hdue).
  assert (Hlt : axis_min a < axis_max a + 1) by (destruct a; reflexivity).
  split; [destruct a; reflexivity |]. split.
  - pose proof (random2_range
                  (match a with Rotation => rawR | AxisX => rawX | AxisY => rawY end)
                  (axis_min a) (axis_max a + 1) Hlt) as H.
    unfold head_draw. lia.
  - split; [| split; reflexivity].
    intros v Hv. exists (v - axis_min a). split; [lia |].
    unfold head_draw, random2, random1.
    destruct (axis_max a + 1 <=? axis_min a) eqn:E1; reflect_Z; [lia |].
    destruct (axis_max a + 1 - axis_min a =? 0) eqn:E2;
      [apply Z.eqb_eq in E2; lia |].
    rewrite Z.mod_small by lia. lia.
Qed.

(** X14.  A head move holds the jitter back: after the planner has fired
    at some reading, a call of [randomMovementsBetweenSentences] at a
    reading less than [RANDOM_MOVE_INTERVAL] later changes nothing. *)
Theorem head_move_holds_jitter_back
        (now rawR rawX rawY now' jitR jitX jitY : Z) (s s' : State) :
  head_due now s = true ->
  ulong_sub (ulong now') (ulong now) < RANDOM_MOVE_INTERVAL ->
  randomMovementsBetweenSentences now' jitR jitX jitY
    (updateHeadMovement now rawR rawX rawY s) = Some s' ->
  s' = updateHeadMovement now rawR rawX rawY s.
Proof.
  intros Hdue Hsoon E.
  rewrite (updateHeadMovement_due _ _ _ _ _ Hdue) in *.
  unfold randomMovementsBetweenSentences in E.
  destruct (CString.get _ 0) as [first |]; [| discriminate].
  cbn [timers set_lastRandomMoveTime with_timers lastRandomMoveTime] in E.
  assert (Hnot : (RANDOM_MOVE_INTERVAL <=? ulong_sub (ulong now') (ulong now))
                 = false) by (apply Z.leb_gt; exact Hsoon).
  rewrite Hnot, andb_false_r in E. injection E as <-. reflexivity.
Qed.



(** ** The clock *)

Lemma ulong_range (z : Z) : 0 <= ulong z < ULONG_MOD.
Proof. unfold ulong. apply Z.mod_pos_bound. reflexivity. Qed.

Lemma timers_in_range_iff (s : State) :
  timers_in_range s <->
  (0 <= lastLetterTime (timers s) < ULONG_MOD)
  /\ (0 <= lastHeadMoveTime (timers s) < ULONG_MOD)
  /\ (0 <= lastGradualMoveTime (timers s) < ULONG_MOD)
  /\ (0 <= lastJawSmoothTime (timers s) < ULONG_MOD)
  /\ (0 <= lastRandomMoveTime (timers s) < ULONG_MOD)
  /\ (0 <= lastPhraseTime (timers s) < ULONG_MOD)
  /\ (0 <= lastBreathTime (timers s) < ULONG_MOD).
Proof.
  unfold timers_in_range, timer_values. split.
  - intro H. repeat (inversion H as [| ? ? ? H']; subst; clear H; rename H' into H).
    tauto.
  - intros (H1 & H2 & H3 & H4 & H5 & H6 & H7). repeat constructor; tauto.
Qed.

Ltac timers_step now :=
  rewrite timers_in_range_iff in *;
  match goal with
  | H : _ /\ _ |- _ => destruct H as (? & ? & ? & ? & ? & ? & ?)
  end;
  pose proof (ulong_range now);
  cbn [timers with_timers with_head with_speech servo_write emit
       set_lastLetterTime set_lastHeadMoveTime set_lastGradualMoveTime
       set_lastJawSmoothTime set_lastRandomMoveTime set_lastPhraseTime
       set_lastBreathTime set_targetRotation set_targetX set_targetY
       set_breathOffset set_currentPhrase set_currentLetterIndex
       Serial_print Serial_println
       lastLetterTime lastHeadMoveTime lastGradualMoveTime lastJawSmoothTime
       lastRandomMoveTime lastPhraseTime lastBreathTime];
  repeat split; lia.

Lemma timers_in_range_ext (s s' : State) :
  timers s' = timers s -> timers_in_range s -> timers_in_range s'.
Proof.
  unfold timers_in_range, timer_values. intros ->. auto.
Qed.

Lemma smoothJawMovement_timers (now target : Z) (s : State) :
  timers_in_range s -> timers_in_range (smoothJawMovement now target s).
Proof.
  intro H. unfold smoothJawMovement.
  destruct (_ <? _); [eapply timers_in_range_ext; [reflexivity | exact H] |].
  destruct (_ <=? _); [| exact H].
  timers_step now.
Qed.

Lemma set_lastLetterTime_timers (v : Z) (s : State) :
  0 <= v < ULONG_MOD ->
  timers_in_range s -> timers_in_range (set_lastLetterTime v s).
Proof. intros Hv H. timers_step v. Qed.

Lemma updateJawMovement_timers (now nowSmooth nowClose : Z) (s s' : State) :
  updateJawMovement now nowSmooth nowClose s = Some s' ->
  timers_in_range s -> timers_in_range s'.
Proof.
  unfold updateJawMovement. intros E H.
  destruct (CString.get _ 0) as [first |]; [| discriminate].
  destruct (negb (CString.is_nul first)).
  - destruct (LETTER_DURATION <=? _); [| injection E as <-; exact H].
    destruct (CString.get _ (currentLetterIndex _)) as [letter |];
      [| discriminate].
    assert (H1 : timers_in_range (snd (letterTarget letter s))).
    { eapply timers_in_range_ext; [| exact H].
      unfold letterTarget. destruct (isSilentCharacter letter); reflexivity. }
    destruct (letterTarget letter s) as [target s1]. cbn [snd] in H1.
    pose proof (smoothJawMovement_timers nowSmooth target s1 H1) as H2.
    unfold finishLetter in E.
    destruct (CString.strlen _) as [len |]; [| discriminate].
    destruct (Z.of_nat len <=? _).
    + destruct (CString.set _ 0 CString.NUL) as [cleared |]; [| discriminate].
      injection E as <-.
      apply set_lastLetterTime_timers; [apply ulong_range |].
      apply smoothJawMovement_timers.
      eapply timers_in_range_ext; [reflexivity | exact H2].
    + injection E as <-.
      apply set_lastLetterTime_timers; [apply ulong_range |].
      eapply timers_in_range_ext; [reflexivity | exact H2].
  - injection E as <-. apply smoothJawMovement_timers, H.
Qed.

Lemma graduallyMoveServos_timers (now : Z) (s : State) :
  timers_in_range s -> timers_in_range (graduallyMoveServos now s).
Proof.
  intro H.
  pose proof (graduallyMoveServos_rest now s) as Hrest.
  unfold beside_interpolator in Hrest.
  injection Hrest as _ _ T1 T2 T3 T4 T5 T6.
  pose proof (graduallyMoveServos_timer now s) as Tg.
  rewrite timers_in_range_iff in *.
  destruct H as (? & ? & ? & ? & ? & ? & ?).
  rewrite T1, T2, T3, T4, T5, T6, Tg.
  repeat split; try lia;
    destruct (gradual_due now s); try lia; apply ulong_range.
Qed.

Lemma exec_timers (sin : Q -> Q) (PI : Q) (op : Op) (s s' : State) :
  exec sin PI op s = Some s' -> timers_in_range s -> timers_in_range s'.
Proof.
  intros E H. destruct op; cbn in E.
  - eapply updateJawMovement_timers; eassumption.
  - injection E as <-. unfold updateHeadMovement.
    destruct (_ <=? _); [| exact H]. timers_step now.
  - unfold randomMovementsBetweenSentences in E.
    destruct (CString.get _ 0) as [first |]; [| discriminate].
    destruct (_ && _); injection E as <-; [| exact H]. timers_step now.
  - injection E as <-. unfold updateBreathing.
    destruct (_ <=? _); [| exact H]. timers_step currentTime.
  - injection E as <-. apply graduallyMoveServos_timers, H.
  - unfold generateNewPhrase in E.
    destruct (CString.get _ 0) as [first |]; [| discriminate].
    destruct (_ && _); [| injection E as <-; exact H].
    destruct (if _ <? 0 then None else _) as [source |]; [| discriminate].
    destruct (copyPhrase _ source) as [installed |]; [| discriminate].
    injection E as <-. timers_step now.
Qed.

Lemma reachable_timers (sin : Q -> Q) (PI : Q) (s : State) :
  reachable sin PI s -> timers_in_range s.
Proof.
  induction 1 as [| s s' op _ IH E].
  - unfold timers_in_range. cbn. repeat constructor; discriminate.
  - eapply exec_timers; eassumption.
Qed.

(** X17.  The cadences survive the wrap of [millis()].  In every reachable
    state each of the seven timers is a 32-bit value, and the elapsed time
    an operation computes from a timer [t] at a clock that has advanced by
    [d] milliseconds since (less than 2^32 of them) is [d], also when the
    clock has wrapped around in between. *)
Theorem cadences_survive_clock_wrap
        (sin : Q -> Q) (PI : Q) (s : State) (t d : Z) :
  reachable sin PI s ->
  In t (timer_values s) ->
  0 <= d < ULONG_MOD ->
  0 <= t < ULONG_MOD
  /\ ulong_sub (ulong (t + d)) t = d.
Proof.
  intros Hs Hin Hd.
  pose proof (reachable_timers sin PI s Hs) as Hr.
  unfold timers_in_range in Hr. rewrite Forall_forall in Hr.
  split; [exact (Hr t Hin) |].
  unfold ulong_sub, ulong. rewrite Zminus_mod_idemp_l.
  replace (t + d - t) with d by lia. apply Z.mod_small. exact Hd.
Qed.

(** ** The loop and its cadences *)


Lemma updateHeadMovement_not_due (now rawR rawX rawY : Z) (s : State) :
  head_due now s = false -> updateHeadMovement now rawR rawX rawY s = s.
Proof. unfold head_due, updateHeadMovement. intros ->. reflexivity. Qed.

Lemma updateBreathing_not_due (sin : Q -> Q) (PI : Q) (currentTime : Z) (s : State) :
  breath_due currentTime s = false -> updateBreathing sin PI currentTime s = s.
Proof. unfold breath_due, updateBreathing. intros ->. reflexivity. Qed.

Lemma updateBreathing_timer (sin : Q -> Q) (PI : Q) (currentTime : Z) (s : State) :
  breath_due currentTime s = true ->
  lastBreathTime (timers (updateBreathing sin PI currentTime s))
  = ulong currentTime.
Proof. unfold breath_due, updateBreathing. intros ->. reflexivity. Qed.

(** X19.  An operation that has just fired does nothing until its interval
    has elapsed again: for the interpolator, the head planner and the
    breathing, a second call at a reading less than the operation's
    interval after the reading at which it fired returns the state
    unchanged. *)
Theorem fired_operation_rests
        (sin : Q -> Q) (PI : Q) (now now' : Z) (s : State) :
  (gradual_due now s = true ->
   ulong_sub (ulong now') (ulong now) < GRADUAL_MOVE_INTERVAL ->
   graduallyMoveServos now' (graduallyMoveServos now s)
   = graduallyMoveServos now s)
  /\ (forall rawR rawX rawY rawR' rawX' rawY' : Z,
        head_due now s = true ->
        ulong_sub (ulong now') (ulong now) < HEAD_MOVE_DURATION ->
        updateHeadMovement now' rawR' rawX' rawY'
          (updateHeadMovement now rawR rawX rawY s)
        = updateHeadMovement now rawR rawX rawY s)
  /\ (breath_due now s = true ->
      ulong_sub (ulong now') (ulong now) < 20 ->
      updateBreathing sin PI now' (updateBreathing sin PI now s)
      = updateBreathing sin PI now s).
Proof.
  split; [| split].
  - intros Hdue Hsoon. apply graduallyMoveServos_not_due.
    unfold gradual_due. rewrite graduallyMoveServos_timer, Hdue.
    apply Z.leb_gt. exact Hsoon.
  - intros rawR rawX rawY rawR' rawX' rawY' Hdue Hsoon.
    apply updateHeadMovement_not_due.
    rewrite (updateHeadMovement_due _ _ _ _ _ Hdue).
    unfold head_due.
    cbn [timers set_lastRandomMoveTime set_lastHeadMoveTime with_timers
         lastHeadMoveTime].
    apply Z.leb_gt. exact Hsoon.
  - intros Hdue Hsoon. apply updateBreathing_not_due.
    unfold breath_due. rewrite (updateBreathing_timer sin PI now s Hdue).
    apply Z.leb_gt. exact Hsoon.
Qed.

(** X20.  The remap of a table value to a jaw angle, [map(x, 0, 50,
    JAW_CLOSED, JAW_OPEN_MAX)], turns the scale over without leaving the
    jaw's range: 0 gives [JAW_CLOSED], 50 gives [JAW_OPEN_MAX], and a
    larger table value never gives a larger (more closed) angle. *)
Theorem jaw_remap_turns_the_scale (x y : Z) :
  0 <= x -> x <= y -> y <= 50 ->
  JAW_OPEN_MAX <= map y 0 50 JAW_CLOSED JAW_OPEN_MAX
  /\ map y 0 50 JAW_CLOSED JAW_OPEN_MAX <= map x 0 50 JAW_CLOSED JAW_OPEN_MAX
  /\ map x 0 50 JAW_CLOSED JAW_OPEN_MAX <= JAW_CLOSED
  /\ map 0 0 50 JAW_CLOSED JAW_OPEN_MAX = JAW_CLOSED
  /\ map 50 0 50 JAW_CLOSED JAW_OPEN_MAX = JAW_OPEN_MAX.
Proof.
  intros Hx Hxy Hy. unfold map, JAW_CLOSED, JAW_OPEN_MAX.
  rewrite !Z.sub_0_r. change (70 - 115) with (- 45).
  assert (Hq : forall v, v * -45 ÷ 50 = - (v * 45 ÷ 50)).
  { intro v. rewrite <- Z.quot_opp_l by discriminate. f_equal. lia. }
  rewrite !Hq.
  assert (Hmono : x * 45 ÷ 50 <= y * 45 ÷ 50)
    by (apply Z.quot_le_mono; lia).
  assert (Hlow : 0 <= x * 45 ÷ 50) by (apply Z.quot_pos; lia).
  assert (Hhigh : y * 45 ÷ 50 <= 50 * 45 ÷ 50)
    by (apply Z.quot_le_mono; lia).
  change (50 * 45 ÷ 50) with 45 in Hhigh.
  repeat split; try lia; reflexivity.
Qed.

Lemma constrain_inside (amt low high : Q) :
  (low <= amt <= high)%Q -> constrain amt low high = amt.
Proof.
  intros [Hl Hh]. unfold constrain.
  destruct (Qltb amt low) eqn:E1; [apply Qltb_lt in E1; lra |].
  destruct (Qltb high amt) eqn:E2; [apply Qltb_lt in E2; lra |].
  reflexivity.
Qed.

(** ** Edges of the helpers *)

(** X22.  The table lookup of [getJawPositionForLetter] never leaves the
    table: whenever the function indexes [letterToJaw], that is for an
    upper-case letter, the index [letter - 'A'] is one of the 26 entries,
    and the entry found, the function's result, is 25, 38 or 50; for any
    other character the table is not read and the result is 0. *)
Theorem letter_table_lookup_in_bounds (letter : ascii) :
  (is_upper letter = true ->
   0 <= char_code letter - char_code "A" < Z.of_nat (List.length letterToJaw)
   /\ nth_error letterToJaw (Z.to_nat (char_code letter - char_code "A"))
      = Some (getJawPositionForLetter letter)
   /\ In (getJawPositionForLetter letter) [25; 38; 50])
  /\ (is_upper letter = false -> getJawPositionForLetter letter = 0).
Proof.
  destruct letter as [[] [] [] [] [] [] [] []];
    (split; intro H; vm_compute in H; try discriminate H; vm_compute;
     repeat split; try discriminate; auto 6).
Qed.

(** ** Values of the format between 32 and 128 *)

Section Binary32Grid.
Import Binary32.
Local Open Scope Q_scope.

(** A value of the format of size at least [2^k] is a multiple of
    [2^(k-23)]. *)
Lemma float_grid (x : Q) (k : Z) :
  is_float x -> pow2 k <= Qabs x ->
  exists n : Z, x == inject_Z n * pow2 (k - 23).
Proof.
  intros F H.
  assert (N : ~ x == 0).
  { intro E. rewrite E in H. change (Qabs 0) with 0 in H.
    pose proof (pow2_pos k). lra. }
  pose proof (ulp_of_above x k N H) as A.
  assert (E : x == inject_Z (nearest_even (x / pow2 (ulp_of x)))
                   * pow2 (ulp_of x)).
  { transitivity (rounded x); [symmetry; exact F | apply rounded_eq]. }
  revert E. generalize (nearest_even (x / pow2 (ulp_of x))). intros n E.
  exists (n * 2 ^ (ulp_of x - (k - 23)))%Z.
  rewrite E at 1.
  rewrite inject_Z_mult, <- pow2_Z by lia.
  rewrite (pow2_shift (ulp_of x) (k - 23)). ring.
Qed.

(** The difference of two values of the format that are at least 32 and
    less than 64 apart is computed exactly. *)
Lemma sub_exact (x y : Q) :
  is_float x -> is_float y -> 32 <= x -> 32 <= y -> Qabs (x - y) < 64 ->
  sub x y == x - y.
Proof.
  intros Fx Fy Hx Hy D.
  assert (P5 : pow2 5 == 32) by reflexivity.
  destruct (float_grid x 5 Fx) as [n En].
  { rewrite Qabs_pos by lra. lra. }
  destruct (float_grid y 5 Fy) as [m Em].
  { rewrite Qabs_pos by lra. lra. }
  change (5 - 23)%Z with (- 18)%Z in En, Em.
  apply (is_float_scaled (x - y) (n - m) (- 18)).
  - rewrite En, Em, inject_Z_sub. ring.
  - assert (E : x - y == inject_Z (n - m) * pow2 (- 18))
      by (rewrite En, Em, inject_Z_sub; ring).
    rewrite E in D.
    rewrite Qabs_Qmult, (Qabs_pos (pow2 (- 18))) in D by discriminate.
    assert (A : Qabs (inject_Z (n - m)) == inject_Z (Z.abs (n - m)))
      by reflexivity.
    rewrite A in D.
    change (pow2 (- 18)) with (1 # 262144) in D.
    assert (B : inject_Z (Z.abs (n - m)) < inject_Z (2 ^ 24)).
    { change (inject_Z (2 ^ 24)) with 16777216. lra. }
    rewrite <- Zlt_Qlt in B. exact B.
  - discriminate.
Qed.

End Binary32Grid.

(** Inside the bounds of the axes the distance test of [moveTowards] is
    exact. *)
Lemma fabs_sub_exact (current target : Q) :
  Binary32.is_float current -> Binary32.is_float target ->
  (60 <= current <= 120)%Q -> (60 <= target <= 120)%Q ->
  (fabs (Binary32.sub current target) == Qabs (current - target))%Q.
Proof.
  intros Fc Ft Bc Bt. rewrite fabs_Qabs.
  rewrite (sub_exact current target Fc Ft); [reflexivity | lra | lra |].
  apply Qabs_Qlt_condition. split; lra.
Qed.

(** ** The head invariants on the board *)

Lemma is_float_comp (x y : Q) :
  (x == y)%Q -> Binary32.is_float x -> Binary32.is_float y.
Proof.
  unfold Binary32.is_float. intros E F. rewrite <- E. exact F.
Qed.

Lemma is_float_constrain (amt low high : Q) :
  Binary32.is_float amt -> Binary32.is_float low -> Binary32.is_float high ->
  Binary32.is_float (constrain amt low high).
Proof.
  intros Fa Fl Fh. unfold constrain.
  destruct (Qltb amt low); [exact Fl |].
  destruct (Qltb high amt); [exact Fh | exact Fa].
Qed.

Lemma is_float_axis_bound (z : Z) :
  60 <= z <= 120 -> Binary32.is_float (inject_Z z).
Proof.
  intro H. apply is_float_Z. change (2 ^ 24) with 16777216. lia.
Qed.

Lemma is_float_draw (raw low high : Z) :
  60 <= low -> low <= high -> high <= 120 ->
  Binary32.is_float (inject_Z (random2 raw low (high + 1))).
Proof.
  intros Hl Hlh Hh.
  pose proof (random2_range raw low (high + 1) ltac:(lia)).
  apply is_float_axis_bound. lia.
Qed.

Lemma initial_is_float : head_is_float initial.
Proof.
  intro a. destruct a; split; apply (is_float_Z 90); reflexivity.
Qed.

Lemma head_is_float_ext (s s' : State) :
  head s' = head s -> head_is_float s -> head_is_float s'.
Proof.
  intros E H a. specialize (H a).
  destruct a; cbn in *; rewrite E; exact H.
Qed.

Lemma updateHeadMovement_is_float (now rawR rawX rawY : Z) (s : State) :
  head_is_float s -> head_is_float (updateHeadMovement now rawR rawX rawY s).
Proof.
  intros H. unfold updateHeadMovement.
  destruct (HEAD_MOVE_DURATION <=? _); [| exact H].
  intro a. specialize (H a). destruct H as [_ Hc].
  destruct a; (split; [| exact Hc]); cbn.
  - apply (is_float_draw _ HEAD_ROTATION_MIN HEAD_ROTATION_MAX); discriminate.
  - apply (is_float_draw _ HEAD_X_MIN HEAD_X_MAX); discriminate.
  - apply (is_float_draw _ HEAD_Y_MIN HEAD_Y_MAX); discriminate.
Qed.

Lemma Rounded_randomMovementsBetweenSentences_invariants
      (now rawR rawX rawY : Z) (s s' : State) :
  Rounded.randomMovementsBetweenSentences now rawR rawX rawY s = Some s' ->
  head_in_bounds s /\ head_is_float s -> head_in_bounds s' /\ head_is_float s'.
Proof.
  unfold Rounded.randomMovementsBetweenSentences. intros E [Hb Hf].
  destruct (CString.get _ 0) as [first |]; [| discriminate].
  destruct (_ && _); injection E as <-; [| split; assumption].
  split; intro a.
  - destruct (Hb a) as [_ Hc].
    destruct a; (split; [| exact Hc]); cbn;
      apply constrain_within; discriminate.
  - destruct (Hf a) as [_ Hc].
    destruct a; (split; [| exact Hc]); cbn;
      (apply is_float_constrain;
       [apply rounded_is_float | apply is_float_axis_bound; split; discriminate
        | apply is_float_axis_bound; split; discriminate]).
Qed.

Lemma Rounded_updateBreathing_invariants
      (sin : Q -> Q) (PI : Q) (currentTime : Z) (s : State) :
  head_in_bounds s /\ head_is_float s ->
  head_in_bounds (Rounded.updateBreathing sin PI currentTime s)
  /\ head_is_float (Rounded.updateBreathing sin PI currentTime s).
Proof.
  intros [Hb Hf]. unfold Rounded.updateBreathing.
  destruct (20 <=? _); [| split; assumption].
  split; intro a.
  - pose proof (Hb a) as [Ht Hc].
    destruct a; (split; [| exact Hc]); try exact Ht.
    cbn. apply constrain_within. discriminate.
  - pose proof (Hf a) as [Ht Hc].
    destruct a; (split; [| exact Hc]); try exact Ht.
    cbn. apply is_float_constrain;
      [apply rounded_is_float | apply is_float_axis_bound; split; discriminate
       | apply is_float_axis_bound; split; discriminate].
Qed.

Lemma Rounded_graduallyMoveServos_invariants (now : Z) (s : State) :
  head_in_bounds s /\ head_is_float s ->
  head_in_bounds (Rounded.graduallyMoveServos now s)
  /\ head_is_float (Rounded.graduallyMoveServos now s).
Proof.
  intros [Hb Hf].
  pose proof (Rounded_maxMove_is_float now s) as Fm.
  pose proof (Rounded_maxMove_nonneg now s) as Hm.
  split; intro a; destruct (Hb a) as [Bt Bc]; destruct (Hf a) as [Ft Fc];
    destruct (Rounded_graduallyMoveServos_axis now s a) as [Et Ec];
    rewrite Et.
  - split; [exact Bt |]. unfold within_bound in *. rewrite Ec.
    destruct (gradual_due now s); [| exact Bc].
    destruct (Rounded_moveTowards_between _ _ _ Fc Ft Fm Hm) as [Up Down].
    destruct (Qlt_le_dec (current_of a s) (target_of a s)) as [L | L].
    + specialize (Up ltac:(lra)). split; lra.
    + specialize (Down L). split; lra.
  - split; [exact Ft |]. apply (is_float_comp _ _ (Qeq_sym _ _ Ec)).
    destruct (gradual_due now s); [| exact Fc].
    apply Rounded_moveTowards_is_float. exact Ft.
Qed.

Lemma Rounded_exec_invariants (sin : Q -> Q) (PI : Q) (op : Op) (s s' : State) :
  Rounded.exec sin PI op s = Some s' ->
  head_in_bounds s /\ head_is_float s -> head_in_bounds s' /\ head_is_float s'.
Proof.
  destruct op; cbn; intros E [Hb Hf].
  - pose proof (updateJawMovement_head _ _ _ _ _ E) as Eh.
    split; [eapply head_in_bounds_ext | eapply head_is_float_ext]; eassumption.
  - injection E as <-.
    split; [apply updateHeadMovement_in_bounds | apply updateHeadMovement_is_float];
      assumption.
  - eapply Rounded_randomMovementsBetweenSentences_invariants;
      [exact E | split; assumption].
  - injection E as <-. apply Rounded_updateBreathing_invariants. split; assumption.
  - injection E as <-. apply Rounded_graduallyMoveServos_invariants.
    split; assumption.
  - pose proof (generateNewPhrase_head _ _ _ _ E) as Eh.
    split; [eapply head_in_bounds_ext | eapply head_is_float_ext]; eassumption.
Qed.

Lemma Rounded_reachable_invariants (sin : Q -> Q) (PI : Q) (s : State) :
  Rounded.reachable sin PI s -> head_in_bounds s /\ head_is_float s.
Proof.
  induction 1 as [| s s' op _ IH E].
  - split; [exact initial_in_bounds | exact initial_is_float].
  - eapply Rounded_exec_invariants; eassumption.
Qed.

(** X24.  The head on the board.  With the float routines rounding as the board
    does, in every state the sketch can reach and after every operation
    from it, the target and the current position of each axis are values of
    binary32 inside the bound of the axis. *)
Theorem board_axes_stay_in_bounds
        (sin : Q -> Q) (PI : Q) (s s' : State) (op : Op) :
  Rounded.reachable sin PI s ->
  Rounded.exec sin PI op s = Some s' ->
  forall a : Axis,
    (within_bound a (target_of a s') /\ within_bound a (current_of a s'))
    /\ Binary32.is_float (target_of a s')
    /\ Binary32.is_float (current_of a s').
Proof.
  intros Hs E a.
  destruct (Rounded_exec_invariants sin PI op s s' E
              (Rounded_reachable_invariants sin PI s Hs)) as [Hb Hf].
  split; [exact (Hb a) | exact (Hf a)].
Qed.

(** ** Step lengths on the board *)

(** The commands of one call, axis by axis, and the positions it leaves. *)
Lemma Rounded_graduallyMoveServos_effect (now : Z) (s : State) :
  gradual_due now s = true ->
  trace (Rounded.graduallyMoveServos now s) =
    trace s ++ Rounded.axis_write now s Rotation
            ++ Rounded.axis_write now s AxisX
            ++ Rounded.axis_write now s AxisY
  /\ forall a : Axis,
       current_of a (Rounded.graduallyMoveServos now s) =
       if Qneqb (Rounded.interpolated now s a) (current_of a s)
       then Rounded.interpolated now s a else current_of a s.
Proof.
  intro Hdue. rewrite Rounded_graduallyMoveServos_blocks, Hdue. cbv zeta.
  unfold Rounded.axis_write, Rounded.interpolated.
  set (m := Rounded.maxMove now s).
  split.
  - rewrite set_lastGradualMoveTime_trace.
    rewrite !Rounded_interpolate_axis_trace.
    rewrite !Rounded_interpolate_axis_target.
    rewrite (Rounded_interpolate_axis_other AxisX AxisY),
      !(Rounded_interpolate_axis_other Rotation) by discriminate.
    rewrite <- !app_assoc. reflexivity.
  - intro a.
    rewrite set_lastGradualMoveTime_current.
    destruct a.
    + rewrite !(Rounded_interpolate_axis_other _ Rotation) by discriminate.
      apply Rounded_interpolate_axis_current.
    + rewrite (Rounded_interpolate_axis_other AxisY AxisX) by discriminate.
      rewrite Rounded_interpolate_axis_current, Rounded_interpolate_axis_target.
      rewrite (Rounded_interpolate_axis_other Rotation AxisX) by discriminate.
      reflexivity.
    + rewrite Rounded_interpolate_axis_current, !Rounded_interpolate_axis_target.
      rewrite (Rounded_interpolate_axis_other AxisX AxisY),
        (Rounded_interpolate_axis_other Rotation AxisY) by discriminate.
      reflexivity.
Qed.

(** Inside the bounds, the three cases of [moveTowards] by the exact
    distance, and the length of the step taken. *)
Lemma Rounded_moveTowards_in_bounds (current target maxMove : Q) :
  Binary32.is_float current -> Binary32.is_float target ->
  Binary32.is_float maxMove -> (0 <= maxMove)%Q ->
  (60 <= current <= 120)%Q -> (60 <= target <= 120)%Q ->
  ((Qabs (current - target) <= maxMove)%Q
   /\ Rounded.moveTowards current target maxMove = target)
  \/ ((maxMove < Qabs (current - target))%Q
      /\ (current < target)%Q
      /\ (Qabs (Rounded.moveTowards current target maxMove - (current + maxMove))
          <= Binary32.half_ulp)%Q
      /\ (current <= Rounded.moveTowards current target maxMove <= target)%Q)
  \/ ((maxMove < Qabs (current - target))%Q
      /\ (target < current)%Q
      /\ (Qabs (Rounded.moveTowards current target maxMove - (current - maxMove))
          <= Binary32.half_ulp)%Q
      /\ (target <= Rounded.moveTowards current target maxMove <= current)%Q).
Proof.
  intros Fc Ft Fm Hm Bc Bt.
  pose proof (fabs_sub_exact current target Fc Ft Bc Bt) as Ex.
  destruct (Rounded_moveTowards_cases current target maxMove Fc Ft Fm Hm)
    as [[Hnear ->] | [[Hfar [-> B]] | [Hfar [-> B]]]].
  - left. rewrite Ex in Hnear. split; [exact Hnear | reflexivity].
  - right. left. split; [rewrite Qabs_neg by lra; lra |].
    split; [lra |]. split; [| exact B].
    apply rounded_error_128. apply Qabs_Qlt_condition. split; lra.
  - right. right. split; [rewrite Qabs_pos by lra; lra |].
    split; [lra |]. split; [| exact B].
    apply rounded_error_128. apply Qabs_Qlt_condition. split; lra.
Qed.

Lemma in_Rounded_axis_write (now : Z) (s : State) (a : Axis) :
  Qneqb (Rounded.interpolated now s a) (current_of a s) = true ->
  In (ServoWrite (servo_of a) (Rounded.round (Rounded.interpolated now s a)))
     (Rounded.axis_write now s Rotation ++ Rounded.axis_write now s AxisX
      ++ Rounded.axis_write now s AxisY).
Proof.
  intro E. rewrite !in_app_iff.
  destruct a; [left | right; left | right; right];
    unfold Rounded.axis_write; rewrite E; left; reflexivity.
Qed.

(** X6.  A due call of [graduallyMoveServos] on the board has a step of at
    least the binary32 value of 0.16 degrees (20 ms at [HEAD_MOVE_SPEED]).
    An axis inside its bound and within the step of its target arrives on
    it exactly; an axis farther away moves toward the target, by the step
    give or take half a unit in the last place, ends strictly closer, and
    its servo is commanded to the rounded new position. *)
Theorem interpolation_step (now : Z) (s : State) (a : Axis) :
  gradual_due now s = true ->
  Binary32.is_float (current_of a s) -> Binary32.is_float (target_of a s) ->
  within_bound a (current_of a s) -> within_bound a (target_of a s) ->
  let s' := Rounded.graduallyMoveServos now s in
  let m := Rounded.maxMove now s in
  (10737418 # 67108864 <= m)%Q
  /\ ((Qabs (current_of a s - target_of a s) <= m)%Q ->
      (current_of a s' == target_of a s)%Q)
  /\ ((m < Qabs (current_of a s - target_of a s))%Q ->
      (Qabs (Qabs (current_of a s' - current_of a s) - m)
       <= Binary32.half_ulp)%Q
      /\ (Qabs (current_of a s' - target_of a s)
          < Qabs (current_of a s - target_of a s))%Q
      /\ In (ServoWrite (servo_of a) (Rounded.round (current_of a s')))
            (emitted s s')).
Proof.
  intros Hdue Fc Ft Bc Bt. cbv zeta.
  apply within_bound_wide in Bc, Bt.
  pose proof (Rounded_maxMove_is_float now s) as Fm.
  pose proof (Rounded_maxMove_nonneg now s) as Hm.
  pose proof (Rounded_maxMove_due now s Hdue) as Hstep.
  pose proof half_ulp_value as Hu.
  destruct (Rounded_graduallyMoveServos_effect now s Hdue) as [Htrace Hcur].
  destruct (Rounded_graduallyMoveServos_axis now s a) as [_ Hq].
  rewrite Hdue in Hq.
  split; [exact Hstep |].
  destruct (Rounded_moveTowards_in_bounds _ _ _ Fc Ft Fm Hm Bc Bt)
    as [[Hnear E] | [[Hfar [Hdir [Herr B]]] | [Hfar [Hdir [Herr B]]]]].
  - split; [| intro; exfalso; lra].
    intros _. rewrite Hq, E. reflexivity.
  - split; [intro; exfalso; lra |]. intros _.
    apply Qabs_Qle_condition in Herr.
    assert (Hchanged : Qneqb (Rounded.interpolated now s a) (current_of a s) = true).
    { unfold Qneqb. apply negb_true_iff.
      destruct (Qeq_bool (Rounded.interpolated now s a) (current_of a s)) eqn:K;
        [| reflexivity].
      apply Qeq_bool_iff in K. unfold Rounded.interpolated in K. lra. }
    split; [| split].
    + rewrite Hq. rewrite (Qabs_pos (_ - current_of a s)) by lra.
      apply Qabs_Qle_condition. split; lra.
    + rewrite Hq. rewrite !Qabs_neg by lra. lra.
    + rewrite (emitted_app _ _ _ Htrace), Hcur, Hchanged.
      apply in_Rounded_axis_write. exact Hchanged.
  - split; [intro; exfalso; lra |]. intros _.
    apply Qabs_Qle_condition in Herr.
    assert (Hchanged : Qneqb (Rounded.interpolated now s a) (current_of a s) = true).
    { unfold Qneqb. apply negb_true_iff.
      destruct (Qeq_bool (Rounded.interpolated now s a) (current_of a s)) eqn:K;
        [| reflexivity].
      apply Qeq_bool_iff in K. unfold Rounded.interpolated in K. lra. }
    split; [| split].
    + rewrite Hq. rewrite (Qabs_neg (_ - current_of a s)) by lra.
      apply Qabs_Qle_condition. split; lra.
    + rewrite Hq. rewrite !Qabs_pos by lra. lra.
    + rewrite (emitted_app _ _ _ Htrace), Hcur, Hchanged.
      apply in_Rounded_axis_write. exact Hchanged.
Qed.

(** X23.  [moveTowards] needs a step that is not negative.  With a
    negative [maxMove] it never lands on the target and never moves
    toward it: the result is at least as far from the target as the start.
    The step [graduallyMoveServos] passes to it is never negative. *)
Theorem moveTowards_negative_step
        (current target maxMove : Q) (now : Z) (s : State) :
  Binary32.is_float current -> (maxMove < 0)%Q ->
  (Qabs (current - target)
   <= Qabs (Rounded.moveTowards current target maxMove - target))%Q
  /\ ((current < target)%Q ->
      (Rounded.moveTowards current target maxMove <= current)%Q)
  /\ ((target <= current)%Q ->
      (current <= Rounded.moveTowards current target maxMove)%Q)
  /\ (0 <= Rounded.maxMove now s)%Q.
Proof.
  intros Fc Hneg.
  split; [| split; [| split; [| apply Rounded_maxMove_nonneg]]];
    unfold Rounded.moveTowards;
    (destruct (Qle_bool (fabs (Binary32.sub current target)) maxMove) eqn:Enear;
     [ apply Qle_bool_iff in Enear; rewrite fabs_Qabs in Enear;
       pose proof (Qabs_nonneg (Binary32.sub current target)); exfalso; lra |]).
  - destruct (Qltb current target) eqn:Edir.
    + apply Qltb_lt in Edir.
      assert (Binary32.add current maxMove <= current)%Q
        by (apply rounded_le; [exact Fc | lra]).
      rewrite !Qabs_neg by lra. lra.
    + apply Qltb_ge in Edir.
      assert (current <= Binary32.sub current maxMove)%Q
        by (apply rounded_ge; [exact Fc | lra]).
      rewrite !Qabs_pos by lra. lra.
  - intro L. apply Qltb_lt in L. rewrite L.
    apply rounded_le; [exact Fc | lra].
  - intro L. apply Qltb_ge in L. rewrite L.
    apply rounded_ge; [exact Fc | lra].
Qed.

(** ** Jitter and breathing on the board *)

Lemma jitter_draw_on_board (raw : Z) :
  (Qabs (Binary32.div
           (Binary32.of_long
              (random2 raw (- RANDOM_MOVE_RANGE) (RANDOM_MOVE_RANGE + 1)))
           10)
   <= 7 # 2)%Q.
Proof.
  pose proof (random2_range raw (- RANDOM_MOVE_RANGE) (RANDOM_MOVE_RANGE + 1)
                eq_refl) as H.
  unfold RANDOM_MOVE_RANGE in *.
  set (k := random2 raw _ _) in *.
  assert (Fk : Binary32.is_float (inject_Z k)).
  { apply is_float_Z. change (2 ^ 24) with 16777216. lia. }
  unfold Binary32.is_float in Fk.
  unfold Binary32.div, Binary32.of_long. rewrite Fk.
  assert (Hl : (inject_Z (-35) <= inject_Z k)%Q) by (rewrite <- Zle_Qle; lia).
  assert (Hh : (inject_Z k <= inject_Z 35)%Q) by (rewrite <- Zle_Qle; lia).
  change (inject_Z (-35)) with (-35)%Q in Hl. change (inject_Z 35) with 35%Q in Hh.
  assert (F : Binary32.is_float (7 # 2)).
  { apply (is_float_scaled _ 7 (- 1)); [reflexivity | reflexivity | discriminate]. }
  assert (F' : Binary32.is_float (- (7 # 2))).
  { apply (is_float_scaled _ (- 7) (- 1)); [reflexivity | reflexivity | discriminate]. }
  apply Qabs_Qle_condition. unfold Qdiv. change (/ 10)%Q with (1 # 10)%Q.
  split; [apply rounded_ge | apply rounded_le]; try assumption; lra.
Qed.

Lemma jitter_target_on_board (t r low high : Q) :
  (60 <= low)%Q -> (high <= 120)%Q -> (low <= t <= high)%Q ->
  (Qabs r <= 7 # 2)%Q ->
  (Qabs (constrain (Binary32.add t r) low high - t)
   <= (7 # 2) + Binary32.half_ulp)%Q.
Proof.
  intros Hlow Hhigh Ht Hr. pose proof half_ulp_value as Hu.
  apply Qabs_Qle_condition in Hr.
  assert (E : (Qabs (Binary32.rounded (t + r) - (t + r)) <= Binary32.half_ulp)%Q).
  { apply rounded_error_128. apply Qabs_Qlt_condition. split; lra. }
  apply Qabs_Qle_condition in E. unfold Binary32.add.
  set (x := Binary32.rounded (t + r)) in *.
  unfold constrain.
  destruct (Qltb x low) eqn:E1.
  - apply Qltb_lt in E1. apply Qabs_Qle_condition. split; lra.
  - apply Qltb_ge in E1. destruct (Qltb high x) eqn:E2.
    + apply Qltb_lt in E2. apply Qabs_Qle_condition. split; lra.
    + apply Qabs_Qle_condition. split; lra.
Qed.

(** X15.  The idle jitter is small and silent during speech.  While a
    phrase is being spoken, or before [RANDOM_MOVE_INTERVAL] has elapsed,
    [randomMovementsBetweenSentences] changes nothing; when it fires, from
    targets inside their bounds, it moves each target by at most 3.5
    degrees and half a unit in the last place. *)
Theorem jitter_is_small (now rawR rawX rawY : Z) (s s' : State) (a : Axis) :
  Rounded.randomMovementsBetweenSentences now rawR rawX rawY s = Some s' ->
  head_in_bounds s ->
  (jitter_due now s = false -> s' = s)
  /\ (Qabs (target_of a s' - target_of a s)
      <= (7 # 2) + Binary32.half_ulp)%Q.
Proof.
  unfold Rounded.randomMovementsBetweenSentences, jitter_due. intros E Hb.
  destruct (CString.get _ 0) as [first |] eqn:Efirst; [| discriminate].
  rewrite (get_first_idle s first Efirst).
  destruct (CString.is_nul first && _).
  - injection E as <-. split; [discriminate |].
    destruct (Hb a) as [Ht _]. unfold within_bound in Ht.
    destruct a; cbn;
      (apply jitter_target_on_board;
       [discriminate | discriminate | exact Ht | apply jitter_draw_on_board]).
  - injection E as <-. split; [reflexivity |].
    rewrite Qabs_self. pose proof half_ulp_value. lra.
Qed.

(** The 3.5 degrees themselves can be exceeded: jittered from 61 by 0.3
    and then by 3.5 degrees, the rotation target moves by 3.5000038 in the
    second call. *)
Example jitter_amplitude_exceeded :
  Rounded.reachable SamplePlatform.sin SamplePlatform.PI jittered_once
  /\ Rounded.randomMovementsBetweenSentences 7000 70 35 35 jittered_once
     = Some jittered_twice
  /\ (target_of Rotation jittered_once == 16069427 # 262144)%Q
  /\ (target_of Rotation jittered_twice == 4246733 # 65536)%Q
  /\ (7 # 2 < target_of Rotation jittered_twice - target_of Rotation jittered_once)%Q.
Proof.
  split.
  { apply (Rounded.reachable_step _ _ (updateHeadMovement 5000 1 25 25 initial) _
             (CallRandomMovementsBetweenSentences 6000 38 35 35));
      [| vm_compute; reflexivity].
    apply (Rounded.reachable_step _ _ initial _
             (CallUpdateHeadMovement 5000 1 25 25));
      [apply Rounded.reachable_initial | reflexivity]. }
  split; [vm_compute; reflexivity |].
  split; [vm_compute; reflexivity |].
  split; [vm_compute; reflexivity |].
  vm_compute. reflexivity.
Qed.

Lemma Rounded_updateBreathing_fired
      (sin : Q -> Q) (PI : Q) (currentTime : Z) (s : State) :
  breath_due currentTime s = true ->
  target_of AxisY (Rounded.updateBreathing sin PI currentTime s) =
    constrain (Binary32.add (target_of AxisY s)
                 (Rounded.breath_offset sin PI currentTime))
      (inject_Z HEAD_Y_MIN) (inject_Z HEAD_Y_MAX)
  /\ breathOffset (head (Rounded.updateBreathing sin PI currentTime s))
     = Rounded.breath_offset sin PI currentTime.
Proof.
  unfold breath_due, Rounded.updateBreathing. intros ->. split; reflexivity.
Qed.

(** X21.  Breathing offsets add up.  [updateBreathing] adds its offset to
    the vertical target it finds, not to a baseline: after two calls that
    fire, with no clamping at the bound, the vertical target is the
    original target plus both offsets, give or take one unit in the last
    place for the two rounded additions. *)
Theorem breathing_offsets_accumulate
        (sin : Q -> Q) (PI : Q) (t1 t2 : Z) (s : State) :
  let s1 := Rounded.updateBreathing sin PI t1 s in
  let s2 := Rounded.updateBreathing sin PI t2 s1 in
  let o1 := Rounded.breath_offset sin PI t1 in
  let o2 := Rounded.breath_offset sin PI t2 in
  breath_due t1 s = true ->
  breath_due t2 s1 = true ->
  within_bound AxisY (Binary32.add (target_of AxisY s) o1) ->
  within_bound AxisY (Binary32.add (Binary32.add (target_of AxisY s) o1) o2) ->
  target_of AxisY s2 = Binary32.add (Binary32.add (target_of AxisY s) o1) o2
  /\ (Qabs (target_of AxisY s2 - (target_of AxisY s + o1 + o2))
      <= 2 * Binary32.half_ulp)%Q
  /\ breathOffset (head s2) = o2.
Proof.
  cbv zeta. intros H1 H2 B1 B2.
  destruct (Rounded_updateBreathing_fired sin PI t2 _ H2) as [T2 O2].
  destruct (Rounded_updateBreathing_fired sin PI t1 _ H1) as [T1 _].
  rewrite T2, T1.
  rewrite (constrain_inside _ (inject_Z HEAD_Y_MIN) (inject_Z HEAD_Y_MAX) B1).
  rewrite (constrain_inside _ (inject_Z HEAD_Y_MIN) (inject_Z HEAD_Y_MAX) B2).
  split; [reflexivity |]. split; [| exact O2].
  pose proof half_ulp_value as Hu.
  apply within_bound_wide in B1, B2.
  set (o1 := Rounded.breath_offset sin PI t1) in *.
  set (o2 := Rounded.breath_offset sin PI t2) in *.
  set (t := target_of AxisY s) in *.
  assert (F128 : Binary32.is_float 128) by (apply (is_float_Z 128); reflexivity).
  assert (F128' : Binary32.is_float (-128)) by (apply (is_float_Z (-128)); reflexivity).
  unfold Binary32.add in *.
  assert (A1 : (Qabs (t + o1) < 128)%Q).
  { apply Qabs_Qlt_condition. split.
    - apply (rounded_lt_inv _ _ F128'). lra.
    - apply (rounded_gt_inv _ _ F128). lra. }
  pose proof (rounded_error_128 _ A1) as E1.
  set (u := Binary32.rounded (t + o1)) in *.
  assert (A2 : (Qabs (u + o2) < 128)%Q).
  { apply Qabs_Qlt_condition. split.
    - apply (rounded_lt_inv _ _ F128'). lra.
    - apply (rounded_gt_inv _ _ F128). lra. }
  pose proof (rounded_error_128 _ A2) as E2.
  apply Qabs_Qle_condition in E1, E2. apply Qabs_Qle_condition. split; lra.
Qed.

(** ** The interpolator's rate on the board *)

Lemma distance_left_lipschitz (x y moved : Q) :
  (Qabs (distance_left x moved - distance_left y moved) <= Qabs (x - y))%Q.
Proof.
  destruct (distance_left_spec x moved) as [[Hx ->] | [Hx ->]];
    destruct (distance_left_spec y moved) as [[Hy ->] | [Hy ->]];
    apply Qabs_Qle_condition;
    destruct (Qlt_le_dec x y) as [L | L];
    [ rewrite (Qabs_neg (x - y)) by lra | rewrite (Qabs_pos (x - y)) by lra
    | rewrite (Qabs_neg (x - y)) by lra | rewrite (Qabs_pos (x - y)) by lra
    | rewrite (Qabs_neg (x - y)) by lra | rewrite (Qabs_pos (x - y)) by lra
    | rewrite (Qabs_neg (x - y)) by lra | rewrite (Qabs_pos (x - y)) by lra ];
    split; lra.
Qed.

Lemma Rounded_graduallyMoveServos_timer (now : Z) (s : State) :
  lastGradualMoveTime (timers (Rounded.graduallyMoveServos now s)) =
  if gradual_due now s then ulong now else lastGradualMoveTime (timers s).
Proof.
  rewrite Rounded_graduallyMoveServos_blocks.
  destruct (gradual_due now s); reflexivity.
Qed.

(** An axis that holds values of the format inside its bound still does
    after a call. *)
Lemma Rounded_graduallyMoveServos_keeps (now : Z) (s : State) (a : Axis) :
  Binary32.is_float (current_of a s) -> Binary32.is_float (target_of a s) ->
  within_bound a (current_of a s) -> within_bound a (target_of a s) ->
  let s' := Rounded.graduallyMoveServos now s in
  Binary32.is_float (current_of a s') /\ Binary32.is_float (target_of a s')
  /\ within_bound a (current_of a s') /\ within_bound a (target_of a s').
Proof.
  intros Fc Ft Bc Bt. cbv zeta.
  pose proof (Rounded_maxMove_is_float now s) as Fm.
  pose proof (Rounded_maxMove_nonneg now s) as Hm.
  destruct (Rounded_graduallyMoveServos_axis now s a) as [Et Ec].
  rewrite Et.
  split; [| split; [exact Ft | split; [| exact Bt]]].
  - apply (is_float_comp _ _ (Qeq_sym _ _ Ec)).
    destruct (gradual_due now s); [| exact Fc].
    apply Rounded_moveTowards_is_float. exact Ft.
  - unfold within_bound in *. rewrite Ec.
    destruct (gradual_due now s); [| exact Bc].
    destruct (Rounded_moveTowards_between _ _ _ Fc Ft Fm Hm) as [Up Down].
    destruct (Qlt_le_dec (current_of a s) (target_of a s)) as [L | L].
    + specialize (Up ltac:(lra)). split; lra.
    + specialize (Down L). split; lra.
Qed.

(** The distance left after one due call, against the distance left at
    exactly [HEAD_MOVE_SPEED]. *)
Lemma Rounded_step_distance (now : Z) (s : State) (a : Axis) :
  gradual_due now s = true ->
  Binary32.is_float (current_of a s) -> Binary32.is_float (target_of a s) ->
  within_bound a (current_of a s) -> within_bound a (target_of a s) ->
  let s' := Rounded.graduallyMoveServos now s in
  let exact := (HEAD_MOVE_SPEED * elapsed_seconds now s)%Q in
  (Qabs (Qabs (current_of a s' - target_of a s)
         - distance_left (Qabs (current_of a s - target_of a s)) exact)
   <= Binary32.half_ulp + exact * (1 # 4194304))%Q.
Proof.
  intros Hdue Fc Ft Bc Bt. cbv zeta.
  apply within_bound_wide in Bc, Bt.
  pose proof (Rounded_maxMove_is_float now s) as Fm.
  pose proof (Rounded_maxMove_nonneg now s) as Hm.
  destruct (Rounded_maxMove_upper now s) as [Hup Hlow].
  pose proof (elapsed_seconds_nonneg now s) as Hex.
  pose proof half_ulp_value as Hu.
  destruct (Rounded_graduallyMoveServos_axis now s a) as [_ Hq].
  rewrite Hdue in Hq. rewrite Hq. clear Hq.
  set (m := Rounded.maxMove now s) in *.
  set (e := (HEAD_MOVE_SPEED * elapsed_seconds now s)%Q) in *.
  set (c := current_of a s) in *. set (t := target_of a s) in *.
  destruct (Rounded_moveTowards_in_bounds c t m Fc Ft Fm Hm Bc Bt)
    as [[Hnear ->] | [[Hfar [Hdir [Herr B]]] | [Hfar [Hdir [Herr B]]]]].
  - rewrite Qabs_self.
    destruct (distance_left_spec (Qabs (c - t)) e) as [[H ->] | [H ->]];
      apply Qabs_Qle_condition; split; lra.
  - apply Qabs_Qle_condition in Herr.
    assert (Hd : (Qabs (c - t) == t - c)%Q) by (rewrite Qabs_neg by lra; ring).
    set (d := Qabs (c - t)) in *.
    rewrite (Qabs_neg (_ - t)) by lra.
    destruct (distance_left_spec d e) as [[H ->] | [H ->]];
      apply Qabs_Qle_condition; split; lra.
  - apply Qabs_Qle_condition in Herr.
    assert (Hd : (Qabs (c - t) == c - t)%Q) by (rewrite Qabs_pos by lra; ring).
    set (d := Qabs (c - t)) in *.
    rewrite (Qabs_pos (_ - t)) by lra.
    destruct (distance_left_spec d e) as [[H ->] | [H ->]];
      apply Qabs_Qle_condition; split; lra.
Qed.

(** X7.  On the board the head turns at [HEAD_MOVE_SPEED] up to rounding,
    whatever the pattern of the calls.  Let [graduallyMoveServos] be
    called, with the targets left alone, at clock readings that do not wrap
    and are each at least [GRADUAL_MOVE_INTERVAL] after the previous one
    (the first after the time of the last update).  Then an axis inside its
    bound that was [d] away from its target is [d - HEAD_MOVE_SPEED * t]
    away, or on the target if that is negative, where [t] is the time in
    seconds from the last update to the last reading: give or take half a
    unit in the last place for each call and one part in [2^22] of
    [HEAD_MOVE_SPEED * t]. *)
Theorem interpolation_rate (nows : list Z) (s : State) (a : Axis) :
  0 <= lastGradualMoveTime (timers s) ->
  paced (lastGradualMoveTime (timers s)) nows ->
  Binary32.is_float (current_of a s) -> Binary32.is_float (target_of a s) ->
  within_bound a (current_of a s) -> within_bound a (target_of a s) ->
  let t0 := lastGradualMoveTime (timers s) in
  let s' := Rounded.gradual_calls nows s in
  let seconds := (inject_Z (last nows t0 - t0) / 1000)%Q in
  target_of a s' = target_of a s
  /\ lastGradualMoveTime (timers s') = last nows t0
  /\ (Qabs (Qabs (current_of a s' - target_of a s')
            - distance_left (Qabs (current_of a s - target_of a s))
                (HEAD_MOVE_SPEED * seconds))
      <= inject_Z (Z.of_nat (List.length nows)) * Binary32.half_ulp
         + HEAD_MOVE_SPEED * seconds * (1 # 4194304))%Q.
Proof.
  cbv zeta. revert s.
  pose proof half_ulp_value as Hu.
  induction nows as [| now rest IH]; intros s Ht0 Hpaced Fc Ft Bc Bt.
  - cbn [Rounded.gradual_calls last List.length].
    split; [reflexivity |]. split; [reflexivity |].
    rewrite Z.sub_diag.
    pose proof (Qabs_nonneg (current_of a s - target_of a s)) as Hd.
    pose proof no_time_no_move as Hz.
    change (inject_Z (Z.of_nat 0)) with 0%Q.
    destruct (distance_left_spec (Qabs (current_of a s - target_of a s))
                (HEAD_MOVE_SPEED * (inject_Z 0 / 1000)))
      as [[_ E] | [H E]]; rewrite E; apply Qabs_Qle_condition; split; lra.
  - destruct Hpaced as [Hnow Hrest].
    pose proof (paced_last rest now Hrest) as Hmono.
    unfold GRADUAL_MOVE_INTERVAL in Hnow.
    set (t0 := lastGradualMoveTime (timers s)) in *.
    assert (Hul : ulong now = now) by (apply ulong_small; lia).
    assert (Hdt : ulong_sub (ulong now) t0 = now - t0).
    { rewrite Hul. apply ulong_sub_small. lia. }
    assert (Hdue : gradual_due now s = true).
    { unfold gradual_due, GRADUAL_MOVE_INTERVAL. fold t0. rewrite Hdt.
      apply Z.leb_le. lia. }
    pose proof (Rounded_graduallyMoveServos_timer now s) as Htimer.
    rewrite Hdue, Hul in Htimer.
    destruct (Rounded_graduallyMoveServos_axis now s a) as [Htarget _].
    destruct (Rounded_graduallyMoveServos_keeps now s a Fc Ft Bc Bt)
      as (Fc1 & Ft1 & Bc1 & Bt1).
    pose proof (Rounded_step_distance now s a Hdue Fc Ft Bc Bt) as Hstep.
    cbv zeta in Hstep. unfold elapsed_seconds in Hstep. fold t0 in Hstep.
    rewrite Hdt in Hstep.
    specialize (IH (Rounded.graduallyMoveServos now s)).
    rewrite Htimer in IH.
    destruct (IH ltac:(lia) Hrest Fc1 Ft1 Bc1 Bt1) as (IHt & IHl & IHd).
    cbn [Rounded.gradual_calls]. rewrite last_cons.
    split; [congruence |]. split; [exact IHl |].
    rewrite IHt, Htarget in *.
    set (tn := last rest now) in *.
    set (d0 := Qabs (current_of a s - target_of a s)) in *.
    set (d1 := Qabs (current_of a (Rounded.graduallyMoveServos now s)
                     - target_of a s)) in *.
    set (d2 := Qabs (current_of a
                       (Rounded.gradual_calls rest
                          (Rounded.graduallyMoveServos now s))
                     - target_of a s)) in *.
    set (e1 := (HEAD_MOVE_SPEED * (inject_Z (now - t0) / 1000))%Q) in *.
    set (e2 := (HEAD_MOVE_SPEED * (inject_Z (tn - now) / 1000))%Q) in *.
    assert (Hsplit : (HEAD_MOVE_SPEED * (inject_Z (tn - t0) / 1000)
                      == e1 + e2)%Q).
    { unfold e1, e2. rewrite !inject_Z_sub. field. }
    assert (He1 : (0 <= e1)%Q) by (apply step_length_nonneg; lia).
    assert (He2 : (0 <= e2)%Q) by (apply step_length_nonneg; exact Hmono).
    pose proof (distance_left_lipschitz d1 (distance_left d0 e1) e2) as Hlip.
    pose proof (distance_left_twice d0 (distance_left d0 e1) e1 e2 He1 He2
                  (Qeq_refl _)) as Htwice.
    assert (Hlen : (inject_Z (Z.of_nat (List.length (now :: rest)))
                    == inject_Z (Z.of_nat (List.length rest)) + 1)%Q).
    { cbn [List.length]. rewrite Nat2Z.inj_succ. unfold Z.succ.
      rewrite inject_Z_plus. reflexivity. }
    rewrite Hlen.
    assert (Hsame : (distance_left d0 (HEAD_MOVE_SPEED * (inject_Z (tn - t0) / 1000))
                     == distance_left d0 (e1 + e2))%Q).
    { destruct (distance_left_spec d0
                  (HEAD_MOVE_SPEED * (inject_Z (tn - t0) / 1000)))
        as [[A ->] | [A ->]];
        destruct (distance_left_spec d0 (e1 + e2)) as [[B ->] | [B ->]]; lra. }
    rewrite Hsame, Hsplit.
    set (k := inject_Z (Z.of_nat (List.length rest))) in *.
    apply Qabs_Qle_condition in IHd, Hstep, Hlip.
    revert Hlip. apply Qabs_case; intros Hsgn Hlip;
      apply Qabs_Qle_condition; split; lra.
Qed.

(** ** The further theorems at concrete inputs *)

Lemma head_moving_reachable :
  reachable SamplePlatform.sin SamplePlatform.PI head_moving.
Proof.
  apply (reachable_step _ _ head_move_planned _ (CallGraduallyMoveServos 5020));
    [| reflexivity].
  apply (reachable_step _ _ (graduallyMoveServos 5000 initial) _
           (CallUpdateHeadMovement 5000 40 25 25)); [| reflexivity].
  apply (reachable_step _ _ initial _ (CallGraduallyMoveServos 5000));
    [apply reachable_initial | reflexivity].
Qed.

Lemma first_phrase_selected_reachable :
  reachable SamplePlatform.sin SamplePlatform.PI first_phrase_selected.
Proof.
  apply (reachable_step _ _ initial _ (CallGenerateNewPhrase 10000 0));
    [apply reachable_initial | vm_compute; reflexivity].
Qed.

Lemma only_the_interpolator_moves_the_head_witness :
  exec SamplePlatform.sin SamplePlatform.PI
    (CallUpdateHeadMovement 5000 40 25 25) initial
  = Some (updateHeadMovement 5000 40 25 25 initial)
  /\ current_of Rotation (updateHeadMovement 5000 40 25 25 initial)
     = current_of Rotation initial
  /\ servo_read (servo_of Rotation) (updateHeadMovement 5000 40 25 25 initial)
     = servo_read (servo_of Rotation) initial.
Proof.
  split; [reflexivity |].
  refine (proj1 (only_the_interpolator_moves_the_head
                   SamplePlatform.sin SamplePlatform.PI
                   (CallUpdateHeadMovement 5000 40 25 25) initial
                   (updateHeadMovement 5000 40 25 25 initial) eq_refl _)
            Rotation).
  intros now H. discriminate H.
Defined.



Lemma interpolation_idle_at_target_witness :
  (current_of Rotation initial == target_of Rotation initial)%Q
  /\ current_of Rotation (graduallyMoveServos 20 initial)
     = current_of Rotation initial.
Proof.
  split; [reflexivity |].
  refine (proj1 (interpolation_idle_at_target 20 initial Rotation _)).
  reflexivity.
Defined.

Lemma one_letter_per_due_call_witness :
  speech_well_formed first_phrase_selected
  /\ exists s' : State,
       updateJawMovement 10000 10000 10000 first_phrase_selected = Some s'.
Proof.
  assert (Hw : speech_well_formed first_phrase_selected)
    by exact (reachable_well_formed _ _ _ first_phrase_selected_reachable).
  split; [exact Hw |].
  destruct (one_letter_per_due_call 10000 10000 10000 first_phrase_selected Hw)
    as (s' & E & _).
  exists s'. exact E.
Defined.

Lemma phrase_spoken_in_its_length_witness :
  speech_well_formed first_phrase_selected
  /\ idle first_phrase_selected = false
  /\ CString.strlen (currentPhrase (speech first_phrase_selected)) = Some 11%nat
  /\ all_letters_due [(10000, 10000, 10000)] first_phrase_selected
  /\ Z.of_nat (List.length [(10000, 10000, 10000)])
     <= Z.of_nat 11 - currentLetterIndex (speech first_phrase_selected).
Proof.
  assert (Hw : speech_well_formed first_phrase_selected)
    by exact (reachable_well_formed _ _ _ first_phrase_selected_reachable).
  assert (Hi : idle first_phrase_selected = false) by (vm_compute; reflexivity).
  assert (Hn : CString.strlen (currentPhrase (speech first_phrase_selected))
               = Some 11%nat) by (vm_compute; reflexivity).
  assert (Hd : all_letters_due [(10000, 10000, 10000)] first_phrase_selected).
  { split; [vm_compute; reflexivity | intros s' _; exact I]. }
  split; [exact Hw |]. split; [exact Hi |]. split; [exact Hn |].
  split; [exact Hd |].
  exact (proj1 (phrase_spoken_in_its_length [(10000, 10000, 10000)]
                  first_phrase_selected 11 Hw Hi Hn Hd)).
Defined.

Lemma new_phrase_is_catalog_phrase_witness :
  List.length (currentPhrase (speech initial)) = sizeof_currentPhrase
  /\ idle initial = true
  /\ phrase_due 10000 initial = true
  /\ exists s' : State, generateNewPhrase 10000 0 initial = Some s'.
Proof.
  split; [reflexivity |]. split; [reflexivity |]. split; [reflexivity |].
  destruct (new_phrase_is_catalog_phrase 10000 0 initial
              eq_refl eq_refl eq_refl) as (s' & chosen & E & _).
  exists s'. exact E.
Defined.

Lemma pause_only_at_silent_letters_witness :
  exec SamplePlatform.sin SamplePlatform.PI
    (CallUpdateJawMovement 10500 10700 10700) hello_spoken
  = Some space_consumed
  /\ consumes_silent_letter 10500 hello_spoken
  /\ In (Delay JAW_CLOSE_DURATION) (emitted hello_spoken space_consumed).
Proof.
  assert (E : exec SamplePlatform.sin SamplePlatform.PI
                (CallUpdateJawMovement 10500 10700 10700) hello_spoken
              = Some space_consumed) by (vm_compute; reflexivity).
  assert (Hc : consumes_silent_letter 10500 hello_spoken).
  { split; [vm_compute; reflexivity |].
    exists " "%char. split; [vm_compute; reflexivity | reflexivity]. }
  split; [exact E |]. split; [exact Hc |].
  exact (proj2 (pause_only_at_silent_letters SamplePlatform.sin
                  SamplePlatform.PI _ hello_spoken space_consumed E)
           10500 10700 10700 eq_refl Hc).
Defined.

Lemma only_upper_case_opens_the_jaw_witness :
  is_upper "a" = false /\ fst (letterTarget "a" initial) = JAW_CLOSED.
Proof.
  split; [reflexivity |].
  refine (proj2 (proj2 (only_upper_case_opens_the_jaw "a" initial)) _).
  reflexivity.
Defined.

Lemma head_plan_covers_the_bound_witness :
  head_due 5000 initial = true
  /\ target_of Rotation (updateHeadMovement 5000 40 25 25 initial)
     = inject_Z (head_draw Rotation 40).
Proof.
  split; [reflexivity |].
  refine (proj1 (head_plan_covers_the_bound 5000 40 25 25 initial Rotation _)).
  reflexivity.
Defined.

Lemma head_move_holds_jitter_back_witness :
  head_due 5000 initial = true
  /\ ulong_sub (ulong 5500) (ulong 5000) < RANDOM_MOVE_INTERVAL
  /\ randomMovementsBetweenSentences 5500 3 4 5
       (updateHeadMovement 5000 40 25 25 initial)
     = Some jitter_held
  /\ jitter_held = updateHeadMovement 5000 40 25 25 initial.
Proof.
  assert (E : randomMovementsBetweenSentences 5500 3 4 5
                (updateHeadMovement 5000 40 25 25 initial)
              = Some jitter_held)
    by (vm_compute; reflexivity).
  split; [reflexivity |]. split; [reflexivity |]. split; [exact E |].
  exact (head_move_holds_jitter_back 5000 40 25 25 5500 3 4 5 initial
           jitter_held eq_refl eq_refl E).
Defined.


Lemma cadences_survive_clock_wrap_witness :
  reachable SamplePlatform.sin SamplePlatform.PI head_moving
  /\ In 5020 (timer_values head_moving)
  /\ 0 <= 4294967290 < ULONG_MOD
  /\ ulong_sub (ulong (5020 + 4294967290)) 5020 = 4294967290.
Proof.
  assert (Hin : In 5020 (timer_values head_moving))
    by (vm_compute; auto).
  assert (Hd : 0 <= 4294967290 < ULONG_MOD) by (split; [discriminate | reflexivity]).
  split; [exact head_moving_reachable |]. split; [exact Hin |].
  split; [exact Hd |].
  exact (proj2 (cadences_survive_clock_wrap SamplePlatform.sin
                  SamplePlatform.PI head_moving 5020 4294967290
                  head_moving_reachable Hin Hd)).
Defined.


Lemma fired_operation_rests_witness :
  (gradual_due 5000 initial = true
   /\ ulong_sub (ulong 5010) (ulong 5000) < GRADUAL_MOVE_INTERVAL
   /\ graduallyMoveServos 5010 (graduallyMoveServos 5000 initial)
      = graduallyMoveServos 5000 initial)
  /\ (head_due 5000 initial = true
      /\ ulong_sub (ulong 5010) (ulong 5000) < HEAD_MOVE_DURATION
      /\ updateHeadMovement 5010 1 2 3 (updateHeadMovement 5000 40 25 25 initial)
         = updateHeadMovement 5000 40 25 25 initial)
  /\ (breath_due 5000 initial = true
      /\ ulong_sub (ulong 5010) (ulong 5000) < 20
      /\ updateBreathing SamplePlatform.sin SamplePlatform.PI 5010
           (updateBreathing SamplePlatform.sin SamplePlatform.PI 5000 initial)
         = updateBreathing SamplePlatform.sin SamplePlatform.PI 5000 initial).
Proof.
  pose proof (fired_operation_rests SamplePlatform.sin SamplePlatform.PI
                5000 5010 initial) as (Hg & Hh & Hb).
  split; [| split].
  - split; [reflexivity |]. split; [reflexivity |].
    apply Hg; reflexivity.
  - split; [reflexivity |]. split; [reflexivity |].
    apply Hh; reflexivity.
  - split; [reflexivity |]. split; [reflexivity |].
    apply Hb; reflexivity.
Defined.

Lemma jaw_remap_turns_the_scale_witness :
  0 <= 25 /\ 25 <= 50 /\ 50 <= 50
  /\ map 50 0 50 JAW_CLOSED JAW_OPEN_MAX <= map 25 0 50 JAW_CLOSED JAW_OPEN_MAX.
Proof.
  assert (H0 : 0 <= 25) by discriminate.
  assert (H1 : 25 <= 50) by discriminate.
  assert (H2 : 50 <= 50) by discriminate.
  split; [exact H0 |]. split; [exact H1 |]. split; [exact H2 |].
  exact (proj1 (proj2 (jaw_remap_turns_the_scale 25 50 H0 H1 H2))).
Defined.

Lemma letter_table_lookup_in_bounds_witness :
  is_upper "Z" = true
  /\ nth_error letterToJaw (Z.to_nat (char_code "Z" - char_code "A"))
     = Some (getJawPositionForLetter "Z").
Proof.
  split; [reflexivity |].
  refine (proj1 (proj2 (proj1 (letter_table_lookup_in_bounds "Z") _))).
  reflexivity.
Defined.

Lemma move_planned_on_board_reachable :
  Rounded.reachable SamplePlatform.sin SamplePlatform.PI move_planned_on_board.
Proof.
  apply (Rounded.reachable_step _ _ (Rounded.graduallyMoveServos 5000 initial) _
           (CallUpdateHeadMovement 5000 40 25 25)); [| reflexivity].
  apply (Rounded.reachable_step _ _ initial _ (CallGraduallyMoveServos 5000));
    [apply Rounded.reachable_initial | reflexivity].
Qed.

Lemma board_axes_stay_in_bounds_witness :
  Rounded.reachable SamplePlatform.sin SamplePlatform.PI move_planned_on_board
  /\ Rounded.exec SamplePlatform.sin SamplePlatform.PI
       (CallGraduallyMoveServos 5020) move_planned_on_board
     = Some (Rounded.graduallyMoveServos 5020 move_planned_on_board)
  /\ Binary32.is_float
       (current_of AxisX (Rounded.graduallyMoveServos 5020 move_planned_on_board)).
Proof.
  split; [exact move_planned_on_board_reachable |]. split; [reflexivity |].
  exact (proj2 (proj2 (board_axes_stay_in_bounds
                         SamplePlatform.sin SamplePlatform.PI
                         move_planned_on_board _ (CallGraduallyMoveServos 5020)
                         move_planned_on_board_reachable eq_refl AxisX))).
Defined.

Lemma interpolation_step_witness :
  gradual_due 5020 move_planned_on_board = true
  /\ Binary32.is_float (current_of Rotation move_planned_on_board)
  /\ Binary32.is_float (target_of Rotation move_planned_on_board)
  /\ within_bound Rotation (current_of Rotation move_planned_on_board)
  /\ within_bound Rotation (target_of Rotation move_planned_on_board)
  /\ (10737418 # 67108864 <= Rounded.maxMove 5020 move_planned_on_board)%Q.
Proof.
  assert (Hd : gradual_due 5020 move_planned_on_board = true) by reflexivity.
  assert (Fc : Binary32.is_float (current_of Rotation move_planned_on_board))
    by (vm_compute; reflexivity).
  assert (Ft : Binary32.is_float (target_of Rotation move_planned_on_board))
    by (vm_compute; reflexivity).
  assert (Bc : within_bound Rotation (current_of Rotation move_planned_on_board))
    by (vm_compute; split; discriminate).
  assert (Bt : within_bound Rotation (target_of Rotation move_planned_on_board))
    by (vm_compute; split; discriminate).
  split; [exact Hd |]. split; [exact Fc |]. split; [exact Ft |].
  split; [exact Bc |]. split; [exact Bt |].
  exact (proj1 (interpolation_step 5020 move_planned_on_board Rotation
                  Hd Fc Ft Bc Bt)).
Defined.

Lemma interpolation_rate_witness :
  0 <= lastGradualMoveTime (timers move_planned_on_board)
  /\ paced (lastGradualMoveTime (timers move_planned_on_board)) [5020; 5040; 5100]
  /\ Binary32.is_float (current_of Rotation move_planned_on_board)
  /\ Binary32.is_float (target_of Rotation move_planned_on_board)
  /\ within_bound Rotation (current_of Rotation move_planned_on_board)
  /\ within_bound Rotation (target_of Rotation move_planned_on_board)
  /\ lastGradualMoveTime
       (timers (Rounded.gradual_calls [5020; 5040; 5100] move_planned_on_board))
     = 5100.
Proof.
  assert (H0 : 0 <= lastGradualMoveTime (timers move_planned_on_board))
    by (vm_compute; discriminate).
  assert (Hp : paced (lastGradualMoveTime (timers move_planned_on_board))
                 [5020; 5040; 5100]).
  { vm_compute. repeat split; discriminate. }
  assert (Fc : Binary32.is_float (current_of Rotation move_planned_on_board))
    by (vm_compute; reflexivity).
  assert (Ft : Binary32.is_float (target_of Rotation move_planned_on_board))
    by (vm_compute; reflexivity).
  assert (Bc : within_bound Rotation (current_of Rotation move_planned_on_board))
    by (vm_compute; split; discriminate).
  assert (Bt : within_bound Rotation (target_of Rotation move_planned_on_board))
    by (vm_compute; split; discriminate).
  split; [exact H0 |]. split; [exact Hp |]. split; [exact Fc |].
  split; [exact Ft |]. split; [exact Bc |]. split; [exact Bt |].
  exact (proj1 (proj2 (interpolation_rate [5020; 5040; 5100]
                         move_planned_on_board Rotation H0 Hp Fc Ft Bc Bt))).
Defined.

Lemma jitter_is_small_witness :
  Rounded.randomMovementsBetweenSentences 7000 70 35 35 jittered_once
  = Some jittered_twice
  /\ head_in_bounds jittered_once
  /\ (Qabs (target_of Rotation jittered_twice - target_of Rotation jittered_once)
      <= (7 # 2) + Binary32.half_ulp)%Q.
Proof.
  assert (E : Rounded.randomMovementsBetweenSentences 7000 70 35 35 jittered_once
              = Some jittered_twice) by (vm_compute; reflexivity).
  assert (Hb : head_in_bounds jittered_once).
  { intro a. destruct a; vm_compute; repeat split; discriminate. }
  split; [exact E |]. split; [exact Hb |].
  exact (proj2 (jitter_is_small 7000 70 35 35 jittered_once jittered_twice
                  Rotation E Hb)).
Defined.

Lemma breathing_offsets_accumulate_witness :
  breath_due 750 initial = true
  /\ breath_due 770
       (Rounded.updateBreathing SamplePlatform.sin SamplePlatform.PI 750 initial)
     = true
  /\ within_bound AxisY
       (Binary32.add (target_of AxisY initial)
          (Rounded.breath_offset SamplePlatform.sin SamplePlatform.PI 750))
  /\ within_bound AxisY
       (Binary32.add
          (Binary32.add (target_of AxisY initial)
             (Rounded.breath_offset SamplePlatform.sin SamplePlatform.PI 750))
          (Rounded.breath_offset SamplePlatform.sin SamplePlatform.PI 770))
  /\ breathOffset
       (head (Rounded.updateBreathing SamplePlatform.sin SamplePlatform.PI 770
                (Rounded.updateBreathing SamplePlatform.sin SamplePlatform.PI
                   750 initial)))
     = Rounded.breath_offset SamplePlatform.sin SamplePlatform.PI 770.
Proof.
  assert (H1 : breath_due 750 initial = true) by reflexivity.
  assert (H2 : breath_due 770
                 (Rounded.updateBreathing SamplePlatform.sin SamplePlatform.PI
                    750 initial) = true) by (vm_compute; reflexivity).
  assert (B1 : within_bound AxisY
                 (Binary32.add (target_of AxisY initial)
                    (Rounded.breath_offset SamplePlatform.sin SamplePlatform.PI 750)))
    by (vm_compute; split; discriminate).
  assert (B2 : within_bound AxisY
                 (Binary32.add
                    (Binary32.add (target_of AxisY initial)
                       (Rounded.breath_offset SamplePlatform.sin SamplePlatform.PI 750))
                    (Rounded.breath_offset SamplePlatform.sin SamplePlatform.PI 770)))
    by (vm_compute; split; discriminate).
  split; [exact H1 |]. split; [exact H2 |]. split; [exact B1 |].
  split; [exact B2 |].
  exact (proj2 (proj2 (breathing_offsets_accumulate
                         SamplePlatform.sin SamplePlatform.PI 750 770 initial
                         H1 H2 B1 B2))).
Defined.

Lemma moveTowards_negative_step_witness :
  Binary32.is_float 90 /\ (- (1 # 10) < 0)%Q
  /\ (Qabs (90 - 100)
      <= Qabs (Rounded.moveTowards 90 100 (- (1 # 10)) - 100))%Q.
Proof.
  assert (F : Binary32.is_float 90) by (vm_compute; reflexivity).
  assert (H : (- (1 # 10) < 0)%Q) by reflexivity.
  split; [exact F |]. split; [exact H |].
  exact (proj1 (moveTowards_negative_step 90 100 (- (1 # 10)) 0 initial F H)).
Defined.
